(** * polysat constraint manager (src/math/polysat/constraint_manager.cpp)

    A shallow embedding of the constraint manager of the polysat bit-vector
    solver: the boolean-variable bridge, the dedup table, the level-scoped
    clause storage, the two-watched-literal registration and the theory
    axiomatizers (comparisons, quotient/remainder, bitwise terms).

    Collaborators whose code lives in other files (the polynomial layer
    [pdd], the boolean trail, the solver's variable and clause entry points)
    are taken as interfaces; the functions of constraint_manager.cpp are
    transcribed over them. *)

From Stdlib Require Import Zbitwise.
From stdpp Require Import gmap list functions fin_maps fin_sets sorting.

(** ** Machine integers *)

(** [unsigned] is a 32-bit integer; arithmetic on it wraps modulo 2^32. *)
Definition UINT_MAX : Z := (2 ^ 32 - 1)%Z.
Definition wrap32 (z : Z) : Z := (z mod 2 ^ 32)%Z.

(** ** Literals, truth values, pointers *)

Abbreviation bool_var := nat (only parsing).
Abbreviation pvar := nat (only parsing).

(** Modelled from the spec: a literal is a boolean variable paired with a
    polarity (sat::literal); [~l] flips the polarity. *)
Record literal := mk_literal { lit_var : bool_var; lit_sign : bool }.

Definition lit_neg (l : literal) : literal :=
  {| lit_var := lit_var l; lit_sign := negb (lit_sign l) |}.


#[global] Instance literal_eq_dec : EqDecision literal.
Proof. solve_decision. Defined.

#[global] Instance literal_inhabited : Inhabited literal :=
  populate {| lit_var := 0; lit_sign := false |}.

(** Modelled from the spec: the truth value of a literal (lbool). *)
Inductive lbool := l_false | l_undef | l_true.

#[global] Instance lbool_eq_dec : EqDecision lbool.
Proof. solve_decision. Defined.

(** Heap addresses of constraint and clause objects. *)
Abbreviation cptr := nat (only parsing).
Abbreviation clause_ptr := nat (only parsing).

(** Modelled from the spec: a signed constraint is a (constraint, polarity)
    pair; the constraint pointer may be null. *)
Record signed_constraint := mk_signed_constraint {
  sc_constraint : option cptr;
  sc_positive : bool
}.

#[global] Instance signed_constraint_eq_dec : EqDecision signed_constraint.
Proof. solve_decision. Defined.

(** [~sc] on signed constraints. *)
Definition sc_neg (sc : signed_constraint) : signed_constraint :=
  {| sc_constraint := sc_constraint sc; sc_positive := negb (sc_positive sc) |}.

(** ** The boolean trail, as the manager sees it *)

(** Modelled from the spec: the boolean assignment/trail engine is an external
    collaborator (solver.cpp, boolean.h).  The manager reads truth values and
    levels, asks for propagations and reports conflicts; it never looks inside.
    The watch lists, which the manager itself edits, are kept apart from this
    opaque part (see [state] below). *)
Class SearchEngine (trail : Type) := {
  (** s.m_bvars.value(lit) *)
  value : trail → literal → lbool;
  (** s.m_bvars.level(lit), an [unsigned] *)
  level : trail → literal → Z;
  (** s.assign_propagate(lit, cl) *)
  assign_propagate : literal → clause_ptr → trail → trail;
  (** s.assign_eval(lit) *)
  assign_eval : literal → trail → trail;
  (** s.set_conflict(cl) *)
  set_conflict_clause : clause_ptr → trail → trail;
  (** s.set_conflict(sc) *)
  set_conflict_constraint : signed_constraint → trail → trail;
  (** sc.is_currently_false(s) *)
  is_currently_false : signed_constraint → trail → bool;
  (** boolean variables of the boolean assignments on s.m_search *)
  search_bool_vars : trail → list bool_var;
  (** s.base_level(), an [unsigned] *)
  base_level : trail → nat;
  (** the value_propagate flag with which s.add_clause(..., is_redundant)
      stores the clause it makes *)
  add_clause_value_propagate : bool → bool
}.

Section bvars.
Context `{SearchEngine trail}.

Definition is_true (s : trail) (lit : literal) : bool :=
  bool_decide (value s lit = l_true).
Definition is_false (s : trail) (lit : literal) : bool :=
  bool_decide (value s lit = l_false).
Definition is_assigned (s : trail) (lit : literal) : bool :=
  bool_decide (value s lit ≠ l_undef).
End bvars.

(** ** normalize_watch *)

Section normalize_watch.
Context `{SearchEngine trail}.
Variable s : trail.

(** The lambda [get_watch_level] of normalize_watch. *)
Definition get_watch_level (lit : literal) : Z :=
  match value s lit with
  | l_false => level s lit
  | l_true => UINT_MAX
  | l_undef => (UINT_MAX - 1)%Z
  end.

(** One iteration of the [for] loop, at index [i], on the clause and the
    two cached levels. *)
Definition normalize_watch_step
    (st : list literal * Z * Z) (i : nat) : list literal * Z * Z :=
  let '(cl, lvl0, lvl1) := st in
  let lit := cl !!! i in
  let lvl := get_watch_level lit in
  if decide (lvl > lvl0)%Z then
    let cl := <[i := cl !!! 1]> cl in
    let cl := <[1 := cl !!! 0]> cl in
    let cl := <[0 := lit]> cl in
    (cl, lvl, lvl0)
  else if decide (lvl > lvl1)%Z then
    let cl := <[i := cl !!! 1]> cl in
    let cl := <[1 := lit]> cl in
    (cl, lvl0, lvl)
  else (cl, lvl0, lvl1).

(** The part before the loop: read both levels, swap if out of order. *)
Definition normalize_watch_init (cl : list literal) : list literal * Z * Z :=
  let lvl0 := get_watch_level (cl !!! 0) in
  let lvl1 := get_watch_level (cl !!! 1) in
  if decide (lvl0 < lvl1)%Z then
    (<[1 := cl !!! 0]> (<[0 := cl !!! 1]> cl), lvl1, lvl0)
  else (cl, lvl0, lvl1).

(** normalize_watch: [for (i = 2; i < cl.size(); ++i)]. *)
Definition normalize_watch (cl : list literal) : list literal :=
  (foldl normalize_watch_step (normalize_watch_init cl)
         (seq 2 (length cl - 2))).1.1.
End normalize_watch.

(** ** The polynomial layer *)

(** Modelled from the spec: polynomials ([pdd], math/dd/dd_pdd.h) are the
    canonical representation of fixed-width bit-vector expressions modulo
    2^K.  One instance of the interface stands for one pdd manager, hence one
    bit-width [power_of_2].  Values are the integers of [0, 2^K). *)
Class PddOps (pdd : Type) := {
  pdd_eq_dec :: EqDecision pdd;
  pdd_countable :: Countable pdd;
  (** m.power_of_2(), an [unsigned] *)
  power_of_2 : Z;
  (** m.mk_val(r): the constant polynomial r mod 2^K *)
  mk_val : Z → pdd;
  (** m.mk_var(v) *)
  mk_var : pvar → pdd;
  pdd_add : pdd → pdd → pdd;
  pdd_mul : pdd → pdd → pdd;
  pdd_sub : pdd → pdd → pdd;
  pdd_neg : pdd → pdd;
  (** p.is_val(), p.val(), p.is_zero(), p.is_one(), p.var() *)
  is_val : pdd → bool;
  val : pdd → Z;
  is_zero : pdd → bool;
  is_one : pdd → bool;
  var : pdd → pvar
}.

Declare Scope pdd_scope.
Delimit Scope pdd_scope with pdd.
Infix "+" := pdd_add : pdd_scope.
Infix "*" := pdd_mul : pdd_scope.
Infix "-" := pdd_sub : pdd_scope.
Notation "- p" := (pdd_neg p) : pdd_scope.

Section pdd_derived.
Context `{PddOps pdd}.

(** Modelled from the spec: m.max_value() is the all-ones value 2^K - 1. *)
Definition max_value : Z := (2 ^ power_of_2 - 1)%Z.
(** Modelled from the spec: m.zero() is the zero polynomial. *)
Definition pdd_zero : pdd := mk_val 0.
(** Modelled from the spec: rational::power_of_two(k) is 2^k. *)
Definition power_of_two (k : Z) : Z := (2 ^ k)%Z.
(** Modelled from the spec: machine_div_rem(a, b, r) is the exact machine
    (truncating) division; the quotient is returned and the remainder is
    stored in r. *)
Definition machine_div_rem (a b : Z) : Z * Z := (Z.quot a b, Z.rem a b).
End pdd_derived.

(** Modelled from the spec: what the manager relies on from the polynomial
    layer.  Widths are positive and fit an [unsigned]; values are canonical;
    arithmetic on values is arithmetic modulo 2^K. *)
Class PddLaws (pdd : Type) {PO : PddOps pdd} : Prop := {
  power_of_2_range : (1 ≤ power_of_2 < 2 ^ 32)%Z;
  is_val_mk_val n : is_val (mk_val n) = true;
  val_mk_val n : val (mk_val n) = (n mod 2 ^ power_of_2)%Z;
  mk_val_val p : is_val p = true → mk_val (val p) = p;
  is_zero_spec p : is_zero p = true ↔ p = mk_val 0;
  is_one_spec p : is_one p = true ↔ p = mk_val 1;
  add_mk_val x y : (mk_val x + mk_val y)%pdd = mk_val (x + y);
  mul_mk_val x y : (mk_val x * mk_val y)%pdd = mk_val (x * y);
  var_mk_var v : var (mk_var v) = v
}.

(** Modelled from the spec: the simplification pass of [ule] may flip the
    polarity and rewrite the operands before dedup.
    ule_constraint::simplify(is_positive, lhs, rhs) updates its three
    reference arguments in place; its code is in ule_constraint.cpp. *)
Class UleSimplify (pdd : Type) := {
  ule_simplify : bool → pdd → pdd → bool * pdd * pdd
}.

(** ** Constraints and clauses *)

(** Modelled from the spec: the operation codes of the generic operation
    constraint (op_constraint::code) that this file uses. *)
Inductive op_code := lshr_op | shl_op | and_op.

#[global] Instance op_code_eq_dec : EqDecision op_code.
Proof. solve_decision. Defined.

#[global] Instance op_code_countable : Countable op_code.
Proof.
  refine (inj_countable'
    (λ c, match c with lshr_op => 0 | shl_op => 1 | and_op => 2 end)
    (λ n, match n with 0 => lshr_op | 1 => shl_op | _ => and_op end) _).
  by intros [].
Defined.

(** Modelled from the spec: the immutable payload of a constraint, that is
    its class and constructor arguments.  Two constraints are structurally
    equal (the equality of the dedup hash table) when their payloads are
    equal. *)
Inductive ckind (pdd : Type) :=
| ule_constraint (lhs rhs : pdd)
| umul_ovfl_constraint (p q : pdd)
| smul_fl_constraint (p q : pdd) (is_overflow : bool)
| op_constraint (op : op_code) (p q r : pdd).
Arguments ule_constraint {pdd}.
Arguments umul_ovfl_constraint {pdd}.
Arguments smul_fl_constraint {pdd}.
Arguments op_constraint {pdd}.

#[global] Instance ckind_eq_dec `{EqDecision pdd} : EqDecision (ckind pdd).
Proof. solve_decision. Defined.

#[global] Instance ckind_countable `{Countable pdd} : Countable (ckind pdd).
Proof.
  refine (inj_countable'
    (λ k, match k with
          | ule_constraint a b => inl (inl (a, b))
          | umul_ovfl_constraint a b => inl (inr (a, b))
          | smul_fl_constraint a b o => inr (inl (a, b, o))
          | op_constraint c a b r => inr (inr (c, a, b, r))
          end)
    (λ e, match e with
          | inl (inl (a, b)) => ule_constraint a b
          | inl (inr (a, b)) => umul_ovfl_constraint a b
          | inr (inl (a, b, o)) => smul_fl_constraint a b o
          | inr (inr (c, a, b, r)) => op_constraint c a b r
          end) _).
  by intros [].
Defined.

(** Modelled from the spec: a constraint object has its payload, the
    optional link to a boolean variable ([None] is sat::null_bool_var) and
    the external flag. *)
Record constraint (pdd : Type) := mk_constraint {
  c_kind : ckind pdd;
  m_bvar : option bool_var;
  m_external : bool
}.
Arguments mk_constraint {pdd}.
Arguments c_kind {pdd}.
Arguments m_bvar {pdd}.
Arguments m_external {pdd}.

(** Modelled from the spec: a clause object has its literals, permuted in
    place by the watch code, and its reference count. *)
Record clause := mk_clause {
  lits : list literal;
  m_ref_count : nat
}.

(** ** A state monad for the manager's methods *)

Definition StateM (Σ A : Type) : Type := Σ → A * Σ.

Definition ret {Σ A} (a : A) : StateM Σ A := λ st, (a, st).
Definition bind {Σ A B} (m : StateM Σ A) (k : A → StateM Σ B)
    : StateM Σ B :=
  λ st, let '(a, st') := m st in k a st'.
Definition gets {Σ A} (f : Σ → A) : StateM Σ A := λ st, (f st, st).
Definition modify {Σ} (f : Σ → Σ) : StateM Σ unit := λ st, (tt, f st).
(** Run a method for its effect only. *)
Definition exec {Σ A} (m : StateM Σ A) (st : Σ) : Σ := (m st).2.
(** Run a method for its result only. *)
Definition eval {Σ A} (m : StateM Σ A) (st : Σ) : A := (m st).1.

Notation "'let!' x := m 'in' k" := (bind m (λ x, k))
  (at level 10, x pattern, m at level 100, k at level 200,
   format "'[v' 'let!'  x  :=  m  'in' '/' k ']'").
Notation "m ;; k" := (bind m (λ _, k))
  (at level 100, k at level 200, right associativity).

(** Modelled from the spec: ptr_vector::erase(elem) removes the first
    occurrence of the element, if there is one. *)
Fixpoint vector_erase {A} `{EqDecision A} (x : A) (l : list A) : list A :=
  match l with
  | [] => []
  | y :: l' => if decide (y = x) then l' else y :: vector_erase x l'
  end.

(** ** The manager and the solver state it works on *)

Module constraint_manager.
Section manager.
Context `{SE : SearchEngine trail} `{PO : PddOps pdd} `{US : UleSimplify pdd}.

Record state := mk_state {
  (** the opaque boolean trail and search state of the solver *)
  s_trail : trail;
  (** s.m_bvars.watch(lit): the watch list of each literal *)
  s_watch : literal → list clause_ptr;
  (** number of boolean variables handed out by s.m_bvars.new_var() *)
  s_num_bvars : nat;
  (** bit-widths of the variables created by s.add_var(sz) *)
  s_vars : list Z;
  (** clauses handed to s.add_clause(..., is_redundant), oldest first *)
  s_added_clauses : list (list signed_constraint * bool);
  (** allocated constraint objects *)
  constraint_heap : gmap cptr (constraint pdd);
  (** next free constraint address *)
  next_cptr : cptr;
  (** allocated clause objects *)
  clause_heap : gmap clause_ptr clause;
  (** constraints indexed by boolean variable (absent = nullptr) *)
  m_bv2constraint : gmap bool_var cptr;
  (** the stored constraints *)
  m_constraints : list cptr;
  (** clause storage per level *)
  m_clauses : list (list clause_ptr);
  (** m_dedup.constraints: structural key ↦ canonical instance *)
  m_dedup_constraints : gmap (ckind pdd) cptr;
  (** m_dedup.quot_rem_expr *)
  m_dedup_quot_rem_expr : gmap (pdd * pdd) (pvar * pvar);
  (** m_dedup.op_constraint_expr *)
  m_dedup_op_constraint_expr : gmap (op_code * pdd * pdd) pvar
}.

(** Field updates. *)
Definition upd_s_trail (f : trail → trail) (st : state) : state :=
  mk_state (f (s_trail st)) (s_watch st) (s_num_bvars st) (s_vars st)
    (s_added_clauses st) (constraint_heap st) (next_cptr st)
    (clause_heap st) (m_bv2constraint st) (m_constraints st) (m_clauses st)
    (m_dedup_constraints st) (m_dedup_quot_rem_expr st)
    (m_dedup_op_constraint_expr st).
Definition upd_s_watch
    (f : (literal → list clause_ptr) → literal → list clause_ptr)
    (st : state) : state :=
  mk_state (s_trail st) (f (s_watch st)) (s_num_bvars st) (s_vars st)
    (s_added_clauses st) (constraint_heap st) (next_cptr st)
    (clause_heap st) (m_bv2constraint st) (m_constraints st) (m_clauses st)
    (m_dedup_constraints st) (m_dedup_quot_rem_expr st)
    (m_dedup_op_constraint_expr st).
Definition upd_s_num_bvars (f : nat → nat) (st : state) : state :=
  mk_state (s_trail st) (s_watch st) (f (s_num_bvars st)) (s_vars st)
    (s_added_clauses st) (constraint_heap st) (next_cptr st)
    (clause_heap st) (m_bv2constraint st) (m_constraints st) (m_clauses st)
    (m_dedup_constraints st) (m_dedup_quot_rem_expr st)
    (m_dedup_op_constraint_expr st).
Definition upd_s_vars (f : list Z → list Z) (st : state) : state :=
  mk_state (s_trail st) (s_watch st) (s_num_bvars st) (f (s_vars st))
    (s_added_clauses st) (constraint_heap st) (next_cptr st)
    (clause_heap st) (m_bv2constraint st) (m_constraints st) (m_clauses st)
    (m_dedup_constraints st) (m_dedup_quot_rem_expr st)
    (m_dedup_op_constraint_expr st).
Definition upd_s_added_clauses
    (f : list (list signed_constraint * bool) →
         list (list signed_constraint * bool))
    (st : state) : state :=
  mk_state (s_trail st) (s_watch st) (s_num_bvars st) (s_vars st)
    (f (s_added_clauses st)) (constraint_heap st) (next_cptr st)
    (clause_heap st) (m_bv2constraint st) (m_constraints st) (m_clauses st)
    (m_dedup_constraints st) (m_dedup_quot_rem_expr st)
    (m_dedup_op_constraint_expr st).
Definition upd_constraint_heap
    (f : gmap cptr (constraint pdd) → gmap cptr (constraint pdd))
    (st : state) : state :=
  mk_state (s_trail st) (s_watch st) (s_num_bvars st) (s_vars st)
    (s_added_clauses st) (f (constraint_heap st)) (next_cptr st)
    (clause_heap st) (m_bv2constraint st) (m_constraints st) (m_clauses st)
    (m_dedup_constraints st) (m_dedup_quot_rem_expr st)
    (m_dedup_op_constraint_expr st).
Definition upd_next_cptr (f : cptr → cptr) (st : state) : state :=
  mk_state (s_trail st) (s_watch st) (s_num_bvars st) (s_vars st)
    (s_added_clauses st) (constraint_heap st) (f (next_cptr st))
    (clause_heap st) (m_bv2constraint st) (m_constraints st) (m_clauses st)
    (m_dedup_constraints st) (m_dedup_quot_rem_expr st)
    (m_dedup_op_constraint_expr st).
Definition upd_clause_heap
    (f : gmap clause_ptr clause → gmap clause_ptr clause)
    (st : state) : state :=
  mk_state (s_trail st) (s_watch st) (s_num_bvars st) (s_vars st)
    (s_added_clauses st) (constraint_heap st) (next_cptr st)
    (f (clause_heap st)) (m_bv2constraint st) (m_constraints st)
    (m_clauses st) (m_dedup_constraints st) (m_dedup_quot_rem_expr st)
    (m_dedup_op_constraint_expr st).
Definition upd_m_bv2constraint (f : gmap bool_var cptr → gmap bool_var cptr)
    (st : state) : state :=
  mk_state (s_trail st) (s_watch st) (s_num_bvars st) (s_vars st)
    (s_added_clauses st) (constraint_heap st) (next_cptr st)
    (clause_heap st) (f (m_bv2constraint st)) (m_constraints st)
    (m_clauses st) (m_dedup_constraints st) (m_dedup_quot_rem_expr st)
    (m_dedup_op_constraint_expr st).
Definition upd_m_constraints (f : list cptr → list cptr)
    (st : state) : state :=
  mk_state (s_trail st) (s_watch st) (s_num_bvars st) (s_vars st)
    (s_added_clauses st) (constraint_heap st) (next_cptr st)
    (clause_heap st) (m_bv2constraint st) (f (m_constraints st))
    (m_clauses st) (m_dedup_constraints st) (m_dedup_quot_rem_expr st)
    (m_dedup_op_constraint_expr st).
Definition upd_m_clauses
    (f : list (list clause_ptr) → list (list clause_ptr))
    (st : state) : state :=
  mk_state (s_trail st) (s_watch st) (s_num_bvars st) (s_vars st)
    (s_added_clauses st) (constraint_heap st) (next_cptr st)
    (clause_heap st) (m_bv2constraint st) (m_constraints st)
    (f (m_clauses st)) (m_dedup_constraints st) (m_dedup_quot_rem_expr st)
    (m_dedup_op_constraint_expr st).
Definition upd_m_dedup_constraints
    (f : gmap (ckind pdd) cptr → gmap (ckind pdd) cptr)
    (st : state) : state :=
  mk_state (s_trail st) (s_watch st) (s_num_bvars st) (s_vars st)
    (s_added_clauses st) (constraint_heap st) (next_cptr st)
    (clause_heap st) (m_bv2constraint st) (m_constraints st) (m_clauses st)
    (f (m_dedup_constraints st)) (m_dedup_quot_rem_expr st)
    (m_dedup_op_constraint_expr st).
Definition upd_m_dedup_quot_rem_expr
    (f : gmap (pdd * pdd) (pvar * pvar) → gmap (pdd * pdd) (pvar * pvar))
    (st : state) : state :=
  mk_state (s_trail st) (s_watch st) (s_num_bvars st) (s_vars st)
    (s_added_clauses st) (constraint_heap st) (next_cptr st)
    (clause_heap st) (m_bv2constraint st) (m_constraints st) (m_clauses st)
    (m_dedup_constraints st) (f (m_dedup_quot_rem_expr st))
    (m_dedup_op_constraint_expr st).
Definition upd_m_dedup_op_constraint_expr
    (f : gmap (op_code * pdd * pdd) pvar → gmap (op_code * pdd * pdd) pvar)
    (st : state) : state :=
  mk_state (s_trail st) (s_watch st) (s_num_bvars st) (s_vars st)
    (s_added_clauses st) (constraint_heap st) (next_cptr st)
    (clause_heap st) (m_bv2constraint st) (m_constraints st) (m_clauses st)
    (m_dedup_constraints st) (m_dedup_quot_rem_expr st)
    (f (m_dedup_op_constraint_expr st)).

Abbreviation M := (StateM state).

(** *** Objects behind pointers *)

(** c->bvar(), with [None] for a constraint without boolean variable. *)
Definition bvar_of (st : state) (c : cptr) : option bool_var :=
  constraint_heap st !! c ≫= m_bvar.
(** c->has_bvar() *)
Definition has_bvar (c : cptr) : M bool :=
  gets (λ st, bool_decide (is_Some (bvar_of st c))).
(** c->is_external() *)
Definition is_external (c : cptr) : M bool :=
  gets (λ st, default false (m_external <$> constraint_heap st !! c)).
(** The literals of *cl; a clause that is not allocated has none. *)
Definition clause_lits (st : state) (cl : clause_ptr) : list literal :=
  default [] (lits <$> clause_heap st !! cl).
Definition set_clause_lits (cl : clause_ptr) (ls : list literal) : M unit :=
  modify (upd_clause_heap
    (alter (λ c, {| lits := ls; m_ref_count := m_ref_count c |}) cl)).
Definition set_m_bvar (c : cptr) (bv : option bool_var) : M unit :=
  modify (upd_constraint_heap
    (alter (λ o, {| c_kind := c_kind o; m_bvar := bv;
                    m_external := m_external o |}) c)).

(** Modelled from the spec: alloc(K, *this, args...) makes a new constraint
    object, without boolean variable, at a fresh address. *)
Definition alloc (k : ckind pdd) : M cptr := λ st,
  let c := next_cptr st in
  (c, upd_next_cptr S
        (upd_constraint_heap
           (insert c {| c_kind := k; m_bvar := None; m_external := false |})
           st)).
(** Modelled from the spec: dealloc(c) destroys the object. *)
Definition dealloc (c : cptr) : M unit :=
  modify (upd_constraint_heap (delete c)).

(** *** Entry points of the solver

    Variable allocation and fresh-variable introduction belong to the
    solver (boolean.cpp, solver.cpp). *)

(** Modelled from the spec: s.m_bvars.new_var() allocates a boolean
    variable; it hands out the next index. *)
Definition new_var : M bool_var := λ st,
  (s_num_bvars st, upd_s_num_bvars S st).
(** Modelled from the spec: s.add_var(sz) introduces a fresh variable of
    width sz; it hands out the next index. *)
Definition add_var (sz : Z) : M pvar := λ st,
  (length (s_vars st), upd_s_vars (λ vs, vs ++ [sz]) st).

(** *** Boolean-variable bridge *)

Definition get_bv2c (bv : bool_var) : M (option cptr) :=
  gets (λ st, m_bv2constraint st !! bv).

Definition assign_bv2c (bv : bool_var) (c : cptr) : M unit :=
  set_m_bvar c (Some bv) ;;
  modify (upd_m_bv2constraint (insert bv c)).

Definition erase_bv2c (c : cptr) : M unit :=
  let! bv := gets (λ st, bvar_of st c) in
  modify (upd_m_bv2constraint
            (λ m, match bv with Some v => delete v m | None => m end)) ;;
  set_m_bvar c None.

Definition ensure_bvar (c : cptr) : M unit :=
  let! b := has_bvar c in
  if negb b then (let! bv := new_var in assign_bv2c bv c) else ret tt.

Definition erase_bvar (c : cptr) : M unit :=
  let! b := has_bvar c in
  if b then erase_bv2c c else ret tt.

(** store(constraint* c) *)
Definition store (c : cptr) : M unit :=
  modify (upd_m_constraints (λ l, l ++ [c])).

Definition lookup_var (v : bool_var) : M (option cptr) := get_bv2c v.

(** lookup(literal): the signed constraint is positive iff the literal is
    unsigned. *)
Definition lookup_lit (lit : literal) : M signed_constraint :=
  let! c := lookup_var (lit_var lit) in
  ret {| sc_constraint := c; sc_positive := negb (lit_sign lit) |}.

(** *** Level-scoped clause storage *)

(** register_clause: the level read from the solver is overwritten by 0
    before use; the [while] loop grows the bucket vector up to that level.
    The bucket holds a counted reference to the clause. *)
Definition register_clause (cl : clause_ptr) : M unit :=
  let! clause_level := gets (λ st, base_level (s_trail st)) in
  let clause_level := 0 in
  modify (upd_m_clauses
    (λ m, m ++ replicate (S clause_level - length m) [])) ;;
  modify (upd_clause_heap
    (alter (λ c, {| lits := lits c; m_ref_count := S (m_ref_count c) |}) cl)) ;;
  modify (upd_m_clauses (alter (λ b, b ++ [cl]) clause_level)).

(** *** Watched literals *)

(** s.m_bvars.watch(lit).push_back(&cl) *)
Definition watch_push_back (lit : literal) (cl : clause_ptr) : M unit :=
  modify (upd_s_watch (alter (λ l, l ++ [cl]) lit)).
(** s.m_bvars.watch(lit).erase(&cl) *)
Definition watch_erase (lit : literal) (cl : clause_ptr) : M unit :=
  modify (upd_s_watch (alter (vector_erase cl) lit)).

(** First loop of [watch] under value_propagate: the unique unassigned
    literal of a clause without true literal, else null ([None]). *)
Fixpoint find_undef_lit (s : trail) (ls : list literal)
    (undef_lit : option literal) : option literal :=
  match ls with
  | [] => undef_lit
  | lit :: ls' =>
    if is_false s lit then find_undef_lit s ls' undef_lit
    else if is_true s lit then None
    else match undef_lit with
         | None => find_undef_lit s ls' (Some lit)
         | Some _ => None
         end
  end.

(** Second loop of [watch] under value_propagate.  The result is [true]
    when the loop left through [return] after reporting a conflict. *)
Fixpoint eval_literals (ls : list literal) : M bool :=
  match ls with
  | [] => ret false
  | lit :: ls' =>
    let! s := gets s_trail in
    if is_false s lit then eval_literals ls'
    else
      let! sc := lookup_lit lit in
      if is_currently_false sc s then
        if is_true s lit then
          modify (upd_s_trail (set_conflict_constraint sc)) ;; ret true
        else
          modify (upd_s_trail (assign_eval (lit_neg lit))) ;;
          eval_literals ls'
      else eval_literals ls'
  end.

Definition watch_value_propagate (cl : clause_ptr) : M bool :=
  let! ls := gets (λ st, clause_lits st cl) in
  let! s := gets s_trail in
  match find_undef_lit s ls None with
  | Some undef_lit => modify (upd_s_trail (assign_propagate undef_lit cl))
  | None => ret tt
  end ;;
  eval_literals ls.

(** The tail of [watch] for a clause of size 1. *)
Definition watch_unit (cl : clause_ptr) (l0 : literal) : M unit :=
  let! s := gets s_trail in
  if is_false s l0 then modify (upd_s_trail (set_conflict_clause cl))
  else if negb (is_assigned s l0) then
    modify (upd_s_trail (assign_propagate l0 cl))
  else ret tt.

(** The tail of [watch] for a clause of size > 1. *)
Definition watch_general (cl : clause_ptr) : M unit :=
  let! s := gets s_trail in
  let! ls := gets (λ st, clause_lits st cl) in
  set_clause_lits cl (normalize_watch s ls) ;;
  let! ls := gets (λ st, clause_lits st cl) in
  watch_push_back (ls !!! 0) cl ;;
  watch_push_back (ls !!! 1) cl ;;
  if is_true s (ls !!! 0) then ret tt
  else if negb (is_false s (ls !!! 1)) then ret tt
  else if is_false s (ls !!! 0) then
    modify (upd_s_trail (set_conflict_clause cl))
  else modify (upd_s_trail (assign_propagate (ls !!! 0) cl)).

Definition watch (cl : clause_ptr) (value_propagate : bool) : M unit :=
  let! ls := gets (λ st, clause_lits st cl) in
  if bool_decide (ls = []) then ret tt
  else
    let! returned :=
      (if value_propagate then watch_value_propagate cl else ret false) in
    if returned then ret tt
    else if bool_decide (length ls = 1) then watch_unit cl (ls !!! 0)
    else watch_general cl.

Definition unwatch (cl : clause_ptr) : M unit :=
  let! ls := gets (λ st, clause_lits st cl) in
  if bool_decide (length ls ≤ 1) then ret tt
  else
    watch_erase (lit_neg (ls !!! 0)) cl ;;
    watch_erase (lit_neg (ls !!! 1)) cl.

(** store(clause* cl, bool value_propagate) *)
Definition store_clause (cl : clause_ptr) (value_propagate : bool) : M unit :=
  register_clause cl ;;
  watch cl value_propagate.

(** *** Clause emission

    s.add_clause belongs to the solver (solver.cpp); it makes the clause
    and hands it back to the manager. *)

(** Modelled from the spec: sc.blit(), the boolean literal of a signed
    constraint, is the boolean variable of its constraint, negated when
    the polarity is negative (the converse of lookup(literal)); a
    constraint without boolean variable has no literal. *)
Definition blit (st : state) (sc : signed_constraint) : option literal :=
  bv ← sc_constraint sc ≫= bvar_of st;
  Some {| lit_var := bv; lit_sign := negb (sc_positive sc) |}.

(** Modelled from the spec: a new clause object is made at an address
    that holds no clause; nothing refers to it yet. *)
Definition alloc_clause (ls : list literal) : M clause_ptr := λ st,
  let cl := fresh (dom (clause_heap st) : gset clause_ptr) in
  (cl, upd_clause_heap (insert cl {| lits := ls; m_ref_count := 0 |}) st).

(** Modelled from the spec: s.add_clause(c, is_redundant) and
    s.add_clause(c1, c2, is_redundant) make the clause of the literals of
    the given signed constraints; a clause is registered into level
    storage and the watch lists at creation, that is, it goes through
    store(cl, value_propagate).  The calls are recorded in their order. *)
Definition add_clause (cs : list signed_constraint) (is_redundant : bool)
    : M unit :=
  modify (upd_s_added_clauses (λ l, l ++ [(cs, is_redundant)])) ;;
  let! ls := gets (λ st, omap (blit st) cs) in
  let! cl := alloc_clause ls in
  store_clause cl (add_clause_value_propagate is_redundant).

(** The inner loop of release_level: unwatch every clause of a bucket.
    The result tells whether each SASSERT_EQ(cl->m_ref_count, 1) held
    (release builds do not evaluate it). *)
Fixpoint unwatch_all (cls : list clause_ptr) : M bool :=
  match cls with
  | [] => ret true
  | cl :: cls' =>
    unwatch cl ;;
    let! ok := gets (λ st,
      bool_decide (m_ref_count <$> clause_heap st !! cl = Some 1)) in
    let! oks := unwatch_all cls' in
    ret (ok && oks)
  end.

(** Modelled from the spec: m_clauses[l].reset() makes the bucket drop its
    references; a clause whose count reaches zero is destroyed. *)
Definition drop_ref (cl : clause_ptr) : M unit :=
  modify (upd_clause_heap (λ h,
    match h !! cl with
    | Some c =>
      if bool_decide (m_ref_count c ≤ 1) then delete cl h
      else <[cl := {| lits := lits c; m_ref_count := pred (m_ref_count c) |}]> h
    | None => h
    end)).

Fixpoint drop_refs (cls : list clause_ptr) : M unit :=
  match cls with
  | [] => ret tt
  | cl :: cls' => drop_ref cl ;; drop_refs cls'
  end.

(** The body of the outer loop of release_level, for bucket [l]. *)
Definition release_bucket (l : nat) : M bool :=
  let! cls := gets (λ st, m_clauses st !!! l) in
  let! ok := unwatch_all cls in
  drop_refs cls ;;
  modify (upd_m_clauses (<[l := []]>)) ;;
  ret ok.

Fixpoint release_buckets (levels : list nat) : M bool :=
  match levels with
  | [] => ret true
  | l :: levels' =>
    let! ok := release_bucket l in
    let! oks := release_buckets levels' in
    ret (ok && oks)
  end.

(** release_level: [for (unsigned l = m_clauses.size(); l-- > lvl; )]
    visits l = size-1, size-2, ..., lvl. *)
Definition release_level (lvl : nat) : M bool :=
  let! size := gets (λ st, length (m_clauses st)) in
  release_buckets (reverse (seq lvl (size - lvl))).

(** *** Dedup of constraints *)

(** dedup(c1): look the candidate up by its structure; on a hit the
    candidate is freed and the stored instance returned, on a miss the
    candidate gets a boolean variable, enters the table and the storage. *)
Definition dedup (c1 : cptr) : M cptr :=
  let! k1 := gets (λ st, c_kind <$> constraint_heap st !! c1) in
  let! found := gets (λ st, k1 ≫= (λ k, m_dedup_constraints st !! k)) in
  match found with
  | Some c2 => dealloc c1 ;; ret c2
  | None =>
    ensure_bvar c1 ;;
    modify (upd_m_dedup_constraints
      (λ m, match k1 with Some k => <[k := c1]> m | None => m end)) ;;
    store c1 ;;
    ret c1
  end.

(** *** Collection *)

(** The boolean variables of the literals of all stored clauses and of the
    boolean assignments on the search stack. *)
Definition used_vars (st : state) : gset bool_var :=
  list_to_set (lit_var <$> concat (clause_lits st <$> concat (m_clauses st)))
  ∪ list_to_set (search_bool_vars (s_trail st)).

(** The sweep of gc_constraints from index [i].  An erased constraint is
    swapped with the last one and popped, and the same index is visited
    again; the storage owns its constraints, so the popped one is freed.
    Every iteration either advances [i] or shortens the vector, so
    [length m_constraints] iterations are enough. *)
Fixpoint gc_constraints_loop (fuel : nat) (used : gset bool_var) (i : nat)
    : M unit :=
  match fuel with
  | 0 => ret tt
  | S fuel' =>
    let! cs := gets m_constraints in
    match cs !! i with
    | None => ret tt
    | Some c =>
      let! bv := gets (λ st, bvar_of st c) in
      let! ext := is_external c in
      if match bv with Some v => bool_decide (v ∈ used) | None => false end
      then gc_constraints_loop fuel' used (S i)
      else if ext then gc_constraints_loop fuel' used (S i)
      else
        erase_bvar c ;;
        let last := pred (length cs) in
        modify (upd_m_constraints (λ cs,
          take last (<[last := cs !!! i]> (<[i := cs !!! last]> cs)))) ;;
        dealloc c ;;
        gc_constraints_loop fuel' used i
    end
  end.

Definition gc_constraints : M unit :=
  let! used := gets used_vars in
  let! size := gets (λ st, length (m_constraints st)) in
  gc_constraints_loop size used 0.

Definition gc_clauses : M unit := ret tt.

Definition gc : M unit := gc_clauses ;; gc_constraints.

Definition should_gc : M bool := ret false.

(** *** Constraint builders *)

Definition ule (a b : pdd) : M signed_constraint :=
  let '(is_positive, lhs, rhs) := ule_simplify true a b in
  let! c1 := alloc (ule_constraint lhs rhs) in
  let! c := dedup c1 in
  ret {| sc_constraint := Some c; sc_positive := is_positive |}.

Definition eq (p : pdd) : M signed_constraint := ule p pdd_zero.

Definition ult (a b : pdd) : M signed_constraint :=
  let! c := ule b a in ret (sc_neg c).

(** bit(p, i): [K - i - 1] and [K - 1] are computed on [unsigned]. *)
Definition bit (p : pdd) (i : Z) : M signed_constraint :=
  let K := power_of_2 in
  let q := (p * mk_val (power_of_two (wrap32 (K - i - 1))))%pdd in
  let msb := power_of_two (wrap32 (K - 1)) in
  ule (mk_val msb) q.

Definition umul_ovfl (a b : pdd) : M signed_constraint :=
  let! c1 := alloc (umul_ovfl_constraint a b) in
  let! c := dedup c1 in
  ret {| sc_constraint := Some c; sc_positive := true |}.

Definition smul_ovfl (a b : pdd) : M signed_constraint :=
  let! c1 := alloc (smul_fl_constraint a b true) in
  let! c := dedup c1 in
  ret {| sc_constraint := Some c; sc_positive := true |}.

Definition smul_udfl (a b : pdd) : M signed_constraint :=
  let! c1 := alloc (smul_fl_constraint a b false) in
  let! c := dedup c1 in
  ret {| sc_constraint := Some c; sc_positive := true |}.

Definition mk_op_constraint (op : op_code) (p q r : pdd)
    : M signed_constraint :=
  let! c1 := alloc (op_constraint op p q r) in
  let! c := dedup c1 in
  ret {| sc_constraint := Some c; sc_positive := true |}.

(** sle, slt: [a.power_of_2() - 1] is computed on [unsigned]. *)
Definition sle (a b : pdd) : M signed_constraint :=
  let shift := power_of_two (wrap32 (power_of_2 - 1)) in
  ule (a + mk_val shift)%pdd (b + mk_val shift)%pdd.

Definition slt (a b : pdd) : M signed_constraint :=
  let shift := power_of_two (wrap32 (power_of_2 - 1)) in
  ult (a + mk_val shift)%pdd (b + mk_val shift)%pdd.

(** *** Term builders *)

(** unsigned quotient/remainder *)
Definition quot_rem (a b : pdd) : M (pdd * pdd) :=
  let sz := power_of_2 in
  if is_zero b then ret (mk_val max_value, a)
  else if is_one b then ret (a, pdd_zero)
  else if is_val a && is_val b then
    let av := val a in
    let bv := val b in
    let '(qv, rv) := machine_div_rem av bv in
    ret (mk_val qv, mk_val rv)
  else
    let! it := gets (λ st, m_dedup_quot_rem_expr st !! (a, b)) in
    match it with
    | Some (vq, vr) => ret (mk_var vq, mk_var vr)
    | None =>
      let! vq := add_var sz in
      let q := mk_var vq in
      let! vr := add_var sz in
      let r := mk_var vr in
      modify (upd_m_dedup_quot_rem_expr (insert (a, b) (var q, var r))) ;;
      let! c := eq (b * q + r - a)%pdd in
      add_clause [c] false ;;
      let! c := umul_ovfl b q in
      add_clause [sc_neg c] false ;;
      let! c := ule (b * q)%pdd (- r - mk_val 1)%pdd in
      add_clause [c] false ;;
      let! c_eq := eq b in
      let! c := ult r b in
      add_clause [c_eq; c] false ;;
      let! c := eq (q + mk_val 1)%pdd in
      add_clause [sc_neg c_eq; c] false ;;
      ret (q, r)
    end.

Definition bnot (p : pdd) : pdd := (- p - mk_val 1)%pdd.

Definition mk_op_term (op : op_code) (p q : pdd) : M pdd :=
  let sz := power_of_2 in
  let! it := gets (λ st, m_dedup_op_constraint_expr st !! (op, p, q)) in
  match it with
  | Some v => ret (mk_var v)
  | None =>
    let! v := add_var sz in
    let r := mk_var v in
    modify (upd_m_dedup_op_constraint_expr (insert (op, p, q) (var r))) ;;
    let! c := mk_op_constraint op p q r in
    add_clause [c] false ;;
    ret r
  end.

Definition lshr (p q : pdd) : M pdd := mk_op_term lshr_op p q.
Definition shl (p q : pdd) : M pdd := mk_op_term shl_op p q.
Definition band (p q : pdd) : M pdd := mk_op_term and_op p q.

Definition bor (p q : pdd) : M pdd :=
  let! r := band p q in ret (p + q - r)%pdd.

Definition bxor (p q : pdd) : M pdd :=
  let! r := band p q in ret (p + q - mk_val 2 * r)%pdd.

Definition bnand (p q : pdd) : M pdd :=
  let! r := band p q in ret (bnot r).

Definition bnor (p q : pdd) : M pdd :=
  let! r := bor p q in ret (bnot r).

(** The manager of a fresh solver: nothing allocated, nothing stored. *)
Definition init (s : trail) : state :=
  {| s_trail := s; s_watch := λ _, []; s_num_bvars := 0; s_vars := [];
     s_added_clauses := []; constraint_heap := ∅; next_cptr := 0;
     clause_heap := ∅; m_bv2constraint := ∅; m_constraints := [];
     m_clauses := []; m_dedup_constraints := ∅;
     m_dedup_quot_rem_expr := ∅; m_dedup_op_constraint_expr := ∅ |}.
End manager.
End constraint_manager.


(** * Reference instances of the interfaces

    The manager is stated over interfaces; the instances below make the
    interfaces inhabited and give concrete inputs to run the manager on. *)

(** ** Sparse polynomials modulo 2^K

    Modelled from the spec: a polynomial is a finite map from monomials to
    non-zero coefficients of [1, 2^K); a monomial is the sorted list of its
    variables, repeated according to their degree.  The finite map is
    extensional, so equal polynomials are equal terms, as canonical decision
    diagrams are. *)
Module sparse_poly.
Abbreviation monomial := (list pvar).
Abbreviation poly := (gmap monomial Z).

Section ops.
Variable K : Z.

Definition modulus : Z := (2 ^ K)%Z.

(** A coefficient reduced modulo 2^K, absent when it vanishes. *)
Definition coeff (c : Z) : option Z :=
  if decide (c mod modulus = 0)%Z then None else Some (c mod modulus)%Z.

Definition monom (m : monomial) (c : Z) : poly :=
  match coeff c with Some c' => {[ m := c' ]} | None => ∅ end.

Definition add (p q : poly) : poly :=
  union_with (λ a b, coeff (a + b)) p q.

Definition monomial_mul (m1 m2 : monomial) : monomial :=
  merge_sort Nat.le (m1 ++ m2).

Definition mul (p q : poly) : poly :=
  map_fold (λ m1 c1 acc,
    map_fold (λ m2 c2 acc',
      add (monom (monomial_mul m1 m2) (c1 * c2)) acc') acc q) ∅ p.

Definition neg (p : poly) : poly := omap (λ c, coeff (- c)) p.

Definition sub (p q : poly) : poly := add p (neg q).

Definition const (c : Z) : poly := monom [] c.

Definition constant_term (p : poly) : Z := default 0%Z (p !! []).

Definition is_const (p : poly) : bool :=
  bool_decide (p = const (constant_term p)).

Definition the_var (p : poly) : pvar :=
  match map_to_list p with
  | [([v], _)] => v
  | _ => 0
  end.

#[local] Instance ops : PddOps poly := {|
  power_of_2 := K;
  mk_val := const;
  mk_var v := monom [v] 1;
  pdd_add := add;
  pdd_mul := mul;
  pdd_sub := sub;
  pdd_neg := neg;
  is_val := is_const;
  val := constant_term;
  is_zero p := bool_decide (p = const 0);
  is_one p := bool_decide (p = const 1);
  var := the_var
|}.

(** A simplification pass for ule: comparisons of two values are decided
    and replaced by 0 <= 0 with the fitting polarity. *)
Definition simplify (is_positive : bool) (lhs rhs : poly)
    : bool * poly * poly :=
  if is_const lhs && is_const rhs then
    if bool_decide (constant_term lhs ≤ constant_term rhs)%Z
    then (is_positive, const 0, const 0)
    else (negb is_positive, const 0, const 0)
  else (is_positive, lhs, rhs).

#[local] Instance ule_simp : UleSimplify poly := {| ule_simplify := simplify |}.
End ops.
End sparse_poly.

(** ** A boolean trail

    Modelled from the spec: the trail is the stack of literals assigned true,
    each with its decision level, and a conflict flag.  A literal is true when
    it is on the stack, false when its negation is, unassigned otherwise. *)
Module simple_trail.
Record t := mk {
  assignment : list (literal * Z);
  current_level : Z;
  in_conflict : bool
}.

Definition empty : t :=
  {| assignment := []; current_level := 0; in_conflict := false |}.

Definition find_lit (s : t) (lit : literal) : option Z :=
  (λ ix, ix.2.2) <$> list_find (λ a, a.1 = lit) (assignment s).

Definition value_of (s : t) (lit : literal) : lbool :=
  match find_lit s lit, find_lit s (lit_neg lit) with
  | Some _, _ => l_true
  | None, Some _ => l_false
  | None, None => l_undef
  end.

Definition level_of (s : t) (lit : literal) : Z :=
  match find_lit s lit, find_lit s (lit_neg lit) with
  | Some l, _ => l
  | None, Some l => l
  | None, None => 0
  end.

Definition assign (lit : literal) (s : t) : t :=
  {| assignment := assignment s ++ [(lit, current_level s)];
     current_level := current_level s;
     in_conflict := in_conflict s |}.

Definition set_conflict (s : t) : t :=
  {| assignment := assignment s;
     current_level := current_level s;
     in_conflict := true |}.

#[local] Instance engine : SearchEngine t := {|
  value := value_of;
  level := level_of;
  assign_propagate lit _ := assign lit;
  assign_eval := assign;
  set_conflict_clause _ := set_conflict;
  set_conflict_constraint _ := set_conflict;
  is_currently_false _ _ := false;
  search_bool_vars s := (λ a, lit_var a.1) <$> assignment s;
  base_level _ := 0;
  add_clause_value_propagate _ := false
|}.
End simple_trail.

(** ** A concrete solver: width 4, empty trail *)
Module example.
Import constraint_manager.

Definition ops4 : PddOps sparse_poly.poly := sparse_poly.ops 4.
Definition simp4 : UleSimplify sparse_poly.poly := sparse_poly.ule_simp 4.

Abbreviation state4 :=
  (state (trail:=simple_trail.t) (pdd:=sparse_poly.poly) (PO:=ops4)).

(** A fresh manager over the empty trail. *)
Definition st0 : state4 := init (PO:=ops4) simple_trail.empty.

(** Two positive literals over distinct variables. *)
Definition lit_x : literal := {| lit_var := 0; lit_sign := false |}.
Definition lit_y : literal := {| lit_var := 1; lit_sign := false |}.

(** The clause x ∨ y, allocated at address 0 and not yet referenced. *)
Definition cl_xy : clause_ptr := 0.
Definition st_xy : state4 :=
  upd_clause_heap
    (insert cl_xy {| lits := [lit_x; lit_y]; m_ref_count := 0 |}) st0.

(** A trail on which y is false at level 3 and z is false at level 7. *)
Definition lit_z : literal := {| lit_var := 2; lit_sign := false |}.
Definition trail_yz : simple_trail.t :=
  {| simple_trail.assignment := [(lit_neg lit_y, 3%Z); (lit_neg lit_z, 7%Z)];
     simple_trail.current_level := 7;
     simple_trail.in_conflict := false |}.

(** The clause y ∨ x ∨ z, in an order that normalize_watch has to change. *)
Definition lits_yxz : list literal := [lit_y; lit_x; lit_z].

(** Two polynomials that are not values. *)
Definition var_a : sparse_poly.poly := mk_var (PddOps := ops4) 0.
Definition var_b : sparse_poly.poly := mk_var (PddOps := ops4) 1.

(** The clause y ∨ x ∨ z, allocated at address 0, over the trail on which
    y and z are false. *)
Definition cl_yxz : clause_ptr := 0.
Definition st_yxz : state4 :=
  upd_clause_heap
    (insert cl_yxz {| lits := lits_yxz; m_ref_count := 0 |})
    (init (PO:=ops4) trail_yz).

(** The unit clause x, allocated at address 0, over the empty trail. *)
Definition cl_x : clause_ptr := 0.
Definition st_x : state4 :=
  upd_clause_heap (insert cl_x {| lits := [lit_x]; m_ref_count := 0 |}) st0.

(** A constraint a <= b just allocated, at address 0, not yet interned. *)
Definition st_alloc : state4 := exec (alloc (ule_constraint var_a var_b)) st0.
End example.

(** * Vocabulary of the properties *)

Module spec.
Import constraint_manager.

(** A method respects a two-state relation when the state it leaves is
    related to the state it was started in. *)
Definition respects {Σ A} (R : relation Σ) (m : StateM Σ A) : Prop :=
  ∀ st, R st (m st).2.

(** Preservation of a state predicate, as a two-state relation. *)
Definition preserving {Σ} (P : Σ → Prop) : relation Σ :=
  λ st st', P st → P st'.

(** Two states agree on an observation. *)
Definition same {Σ X} (obs : Σ → X) : relation Σ :=
  λ st st', obs st' = obs st.

(** A state update is free for a relation when it relates every state to
    its updated version, whatever the update does to the field. *)
Class Free {Σ X} (upd : (X → X) → Σ → Σ) (R : relation Σ) : Prop :=
  free_upd : ∀ f st, R st (upd f st).

(** The loop invariant of normalize_watch before iteration [i], on the
    clause and the two cached levels: the cached levels are those of the
    two front literals, they are ordered, and the positions already visited
    do not exceed the second one. *)
Definition watch_inv `{SearchEngine trail} (s : trail) (n : nat)
    (st : list literal * Z * Z) (i : nat) : Prop :=
  length st.1.1 = n ∧
  st.1.2 = get_watch_level s (st.1.1 !!! 0) ∧
  st.2 = get_watch_level s (st.1.1 !!! 1) ∧
  (st.2 ≤ st.1.2)%Z ∧
  ∀ j, 2 ≤ j < i → (get_watch_level s (st.1.1 !!! j) ≤ st.2)%Z.

Section spec.
Context `{SE : SearchEngine trail} `{PO : PddOps pdd} `{US : UleSimplify pdd}.

Abbreviation state := (state (trail:=trail) (pdd:=pdd)).

(** A constraint instance is live from its allocation to its release. *)
Definition live (st : state) (c : cptr) : Prop :=
  is_Some (constraint_heap st !! c).

(** The structural key of a live instance. *)
Definition key_of (st : state) (c : cptr) : option (ckind pdd) :=
  c_kind <$> constraint_heap st !! c.

(** The structural key under which [ule a b] looks its constraint up:
    the operator with the operands left by the simplification. *)
Definition ule_key (a b : pdd) : ckind pdd :=
  let '(_, lhs, rhs) := ule_simplify true a b in ule_constraint lhs rhs.

(** The polarity [ule a b] returns with that constraint. *)
Definition ule_polarity (a b : pdd) : bool := (ule_simplify true a b).1.1.

(** The distinct structural keys of a sequence of [ule] requests. *)
Definition ule_keys (reqs : list (pdd * pdd)) : gset (ckind pdd) :=
  list_to_set ((λ ab, ule_key ab.1 ab.2) <$> reqs).

(** The same with the polarity each request comes back with. *)
Definition ule_signed_keys (reqs : list (pdd * pdd))
    : gset (ckind pdd * bool) :=
  list_to_set
    ((λ ab, (ule_key ab.1 ab.2, ule_polarity ab.1 ab.2)) <$> reqs).

(** Allocation discipline of the constraint heap: live addresses are
    below the next free one, and every live instance is the one its
    structural key is mapped to. *)
Record heap_wf (st : state) : Prop := {
  heap_wf_fresh : ∀ c, live st c → c < next_cptr st;
  heap_wf_table : ∀ c k,
    key_of st c = Some k → m_dedup_constraints st !! k = Some c
}.

(** Every entry of the dedup table is a live instance of its key and has
    a boolean variable. *)
Definition table_wf (st : state) : Prop :=
  ∀ k c, m_dedup_constraints st !! k = Some c →
    key_of st c = Some k ∧ is_Some (bvar_of st c).

(** The state [alloc] followed by [dedup] leaves after a hit: the
    candidate is gone again. *)
Definition hit_state (st : state) : state :=
  upd_next_cptr S (upd_constraint_heap (delete (next_cptr st)) st).

(** The state after a miss: the candidate, at the old [next_cptr], has
    the next boolean variable and is in the table and in the storage. *)
Definition miss_state (k : ckind pdd) (st : state) : state :=
  let c := next_cptr st in
  let bv := s_num_bvars st in
  upd_m_constraints (λ l, l ++ [c])
    (upd_m_dedup_constraints (insert k c)
      (upd_m_bv2constraint (insert bv c)
        (upd_s_num_bvars S
          (upd_next_cptr S
            (upd_constraint_heap
               (insert c {| c_kind := k; m_bvar := Some bv;
                            m_external := false |}) st))))).

Definition wf (st : state) : Prop := heap_wf st ∧ table_wf st.

(** [alloc] followed by [dedup] respects [R]. *)
Class InternOk (R : relation state) : Prop :=
  intern_ok : ∀ k, respects R (bind (alloc k) dedup).
(** Changing the boolean variable of a constraint respects [R]. *)
Class SetBvarOk (R : relation state) : Prop :=
  set_bvar_ok : ∀ c bv, respects R (set_m_bvar c bv).
(** Freeing a constraint respects [R]. *)
Class DeallocOk (R : relation state) : Prop :=
  dealloc_ok : ∀ c, respects R (dealloc c).

(** The variables of the solver and the two memo tables. *)
Definition memo_tables (st : state) :=
  (s_vars st, m_dedup_quot_rem_expr st, m_dedup_op_constraint_expr st).

(** The atom a signed constraint stands for: the structural key of its
    constraint and its polarity. *)
Definition atom_of (st : state) (sc : signed_constraint)
    : option (ckind pdd * bool) :=
  c ← sc_constraint sc; k ← key_of st c; Some (k, sc_positive sc).

(** The atoms the builders are called for.  [ule a b] is the comparison
    the simplification leaves, with the polarity it leaves; [eq p] is
    [ule p 0]; [ult a b] is the negation of [ule b a]; the overflow
    and operation constraints come back positive. *)
Definition neg_atom (x : ckind pdd * bool) : ckind pdd * bool :=
  (x.1, negb x.2).
Definition ule_atom (a b : pdd) : ckind pdd * bool :=
  (ule_key a b, ule_polarity a b).
Definition eq_atom (p : pdd) : ckind pdd * bool := ule_atom p pdd_zero.
Definition ult_atom (a b : pdd) : ckind pdd * bool :=
  neg_atom (ule_atom b a).
Definition umul_ovfl_atom (a b : pdd) : ckind pdd * bool :=
  (umul_ovfl_constraint a b, true).
Definition op_atom (op : op_code) (p q r : pdd) : ckind pdd * bool :=
  (op_constraint op p q r, true).

(** Constraint objects are only added: when the first state is
    well-formed, so is the second, and it has every constraint object
    of the first, unchanged. *)
Definition objects_kept : relation state := λ st st',
  wf st → wf st' ∧ constraint_heap st ⊆ constraint_heap st'.

(** The memo tables only grow. *)
Definition memo_mono : relation state := λ st st',
  m_dedup_quot_rem_expr st ⊆ m_dedup_quot_rem_expr st' ∧
  m_dedup_op_constraint_expr st ⊆ m_dedup_op_constraint_expr st'.

(** The calls a client can make on the manager. *)
Inductive request :=
| req_ule (a b : pdd)
| req_eq (p : pdd)
| req_ult (a b : pdd)
| req_bit (p : pdd) (i : Z)
| req_umul_ovfl (a b : pdd)
| req_smul_ovfl (a b : pdd)
| req_smul_udfl (a b : pdd)
| req_mk_op_constraint (op : op_code) (p q r : pdd)
| req_sle (a b : pdd)
| req_slt (a b : pdd)
| req_quot_rem (a b : pdd)
| req_mk_op_term (op : op_code) (p q : pdd)
| req_bor (p q : pdd)
| req_bxor (p q : pdd)
| req_bnand (p q : pdd)
| req_bnor (p q : pdd)
| req_ensure_bvar (c : cptr)
| req_erase_bvar (c : cptr)
| req_store_clause (cl : clause_ptr) (value_propagate : bool)
| req_release_level (lvl : nat)
| req_gc.

Definition run_request (r : request) : StateM state unit :=
  match r with
  | req_ule a b => ule a b ;; ret tt
  | req_eq p => eq p ;; ret tt
  | req_ult a b => ult a b ;; ret tt
  | req_bit p i => bit p i ;; ret tt
  | req_umul_ovfl a b => umul_ovfl a b ;; ret tt
  | req_smul_ovfl a b => smul_ovfl a b ;; ret tt
  | req_smul_udfl a b => smul_udfl a b ;; ret tt
  | req_mk_op_constraint op p q r => mk_op_constraint op p q r ;; ret tt
  | req_sle a b => sle a b ;; ret tt
  | req_slt a b => slt a b ;; ret tt
  | req_quot_rem a b => quot_rem a b ;; ret tt
  | req_mk_op_term op p q => mk_op_term op p q ;; ret tt
  | req_bor p q => bor p q ;; ret tt
  | req_bxor p q => bxor p q ;; ret tt
  | req_bnand p q => bnand p q ;; ret tt
  | req_bnor p q => bnor p q ;; ret tt
  | req_ensure_bvar c => ensure_bvar c
  | req_erase_bvar c => erase_bvar c
  | req_store_clause cl vp => store_clause cl vp
  | req_release_level lvl => release_level lvl ;; ret tt
  | req_gc => gc
  end.

(** The calls that build constraints and terms. *)
Definition is_builder (r : request) : bool :=
  match r with
  | req_ensure_bvar _ | req_erase_bvar _ | req_store_clause _ _
  | req_release_level _ | req_gc => false
  | _ => true
  end.


(** The state after a sequence of calls. *)
Definition run (rs : list request) (st : state) : state :=
  foldl (λ st r, exec (run_request r) st) st rs.

(** A builder reuses its constraint: called again after the calls
    [rs], it returns what the first call returned and leaves the state
    of a dedup hit, in which only the candidate was allocated and
    freed; the constraint has kept its boolean variable. *)
Definition reuses (m : StateM state signed_constraint)
    (rs : list request) (st : state) : Prop :=
  let '(sc, st1) := m st in
  let st2 := run rs st1 in
  m st2 = (sc, hit_state st2) ∧
  ∃ c bv, sc_constraint sc = Some c ∧
          bvar_of st1 c = Some bv ∧ bvar_of st2 c = Some bv.

(** A sequence of [ule] calls, for its effect on the state. *)
Definition run_ule (reqs : list (pdd * pdd)) (st : state) : state :=
  foldl (λ st ab, exec (ule ab.1 ab.2) st) st reqs.

(** Modelled from the spec: the truth value of a signed constraint whose
    atom is an unsigned comparison of two values; the atom holds when
    lhs <= rhs on the integers, and a negative polarity negates it. *)
Definition sc_holds (st : state) (sc : signed_constraint) : option bool :=
  c ← sc_constraint sc;
  k ← key_of st c;
  match k with
  | ule_constraint lhs rhs =>
    if is_val lhs && is_val rhs
    then Some (if sc_positive sc
               then bool_decide (val lhs ≤ val rhs)%Z
               else negb (bool_decide (val lhs ≤ val rhs)%Z))
    else None
  | _ => None
  end.

(** The truth value of the constraint [sle a b] returns, in the state
    [sle a b] leaves. *)
Definition sle_holds (a b : pdd) (st : state) : option bool :=
  let '(sc, st') := sle a b st in sc_holds st' sc.

(** The two's-complement reading of a value of [0, 2^K). *)
Definition signed_val (v : Z) : Z :=
  if decide (v < 2 ^ (power_of_2 - 1))%Z then v else (v - 2 ^ power_of_2)%Z.
End spec.

(** Modelled from the spec: the simplification pass keeps the meaning of
    the comparison; on two values it yields two values, and the signed atom
    keeps its truth. *)
Class UleSimplifySound (pdd : Type)
    {PO : PddOps pdd} {US : UleSimplify pdd} : Prop := {
  ule_simplify_vals is_positive lhs rhs :
    is_val lhs = true → is_val rhs = true →
    let '(is_positive', lhs', rhs') := ule_simplify is_positive lhs rhs in
    is_val lhs' = true ∧ is_val rhs' = true ∧
    (is_positive' = bool_decide (val lhs' ≤ val rhs')%Z ↔
     is_positive = bool_decide (val lhs ≤ val rhs)%Z)
}.

(** ** Vocabulary of the bridge, the clause storage and the watches *)
Section more.
Context `{SE : SearchEngine trail} `{PO : PddOps pdd}.

Local Abbreviation state_t :=
  (constraint_manager.state (trail:=trail) (pdd:=pdd)).

(** The constraint object after [c->m_bvar = o]. *)
Definition with_bvar (o : option bool_var) (x : constraint pdd)
    : constraint pdd :=
  {| c_kind := c_kind x; m_bvar := o; m_external := m_external x |}.

(** The clause object with one more counted reference. *)
Definition add_ref (c : clause) : clause :=
  {| lits := lits c; m_ref_count := S (m_ref_count c) |}.

(** The boolean-variable bridge is consistent: a constraint that has a
    boolean variable is the constraint registered under that variable,
    and only variables handed out by the solver are registered. *)
Record bridge_wf (st : state_t) : Prop := {
  bridge_lookup : ∀ c bv,
    bvar_of st c = Some bv → m_bv2constraint st !! bv = Some c;
  bridge_fresh : ∀ bv,
    is_Some (m_bv2constraint st !! bv) → bv < s_num_bvars st
}.

(** The two states differ in the trail at most. *)
Definition only_trail : relation state_t :=
  λ st st', st' = upd_s_trail (λ _, s_trail st') st.

(** The test of the sweep of gc_constraints on a constraint object
    ([None] for a freed one), given the used variables: the constraint
    stays when its boolean variable is used or it is external. *)
Definition gc_kept (used : gset bool_var) (o : option (constraint pdd))
    : bool :=
  match o ≫= m_bvar with
  | Some v => bool_decide (v ∈ used)
  | None => false
  end || default false (m_external <$> o).

(** m_constraints.swap(i, size - 1); m_constraints.pop_back() *)
Definition swap_pop (i : nat) (cs : list cptr) : list cptr :=
  take (pred (length cs))
    (<[pred (length cs) := cs !!! i]>
       (<[i := cs !!! pred (length cs)]> cs)).

(** The clause side of the state: trail, watch lists, clause objects
    and buckets. *)
Definition clause_side (st : state_t) :=
  (s_trail st, s_watch st, clause_heap st, m_clauses st).

(** The constraint side of the state: constraint objects, the bridge,
    the storage, the dedup and memo tables, and what the solver was
    asked to create. *)
Definition constraint_side (st : state_t) :=
  (constraint_heap st, next_cptr st, m_bv2constraint st, s_num_bvars st,
   m_constraints st, m_dedup_constraints st, m_dedup_quot_rem_expr st,
   m_dedup_op_constraint_expr st, s_vars st, s_added_clauses st).

(** What gc has no business with: all but the constraint objects, the
    bridge map and the storage. *)
Definition gc_frame (st : state_t) :=
  (clause_side st, next_cptr st, s_num_bvars st, m_dedup_constraints st,
   m_dedup_quot_rem_expr st, m_dedup_op_constraint_expr st, s_vars st,
   s_added_clauses st).

(** The memo tables name variables of the solver: every memoized
    variable has been created with the width of the manager, and no
    variable is memoized twice. *)
Record memo_wf (st : state_t) : Prop := {
  memo_qr_width : ∀ k vq vr,
    m_dedup_quot_rem_expr st !! k = Some (vq, vr) →
    s_vars st !! vq = Some power_of_2 ∧
    s_vars st !! vr = Some power_of_2 ∧ vq ≠ vr;
  memo_op_width : ∀ k v,
    m_dedup_op_constraint_expr st !! k = Some v →
    s_vars st !! v = Some power_of_2;
  memo_qr_inj : ∀ k1 k2 q1 r1 q2 r2,
    m_dedup_quot_rem_expr st !! k1 = Some (q1, r1) →
    m_dedup_quot_rem_expr st !! k2 = Some (q2, r2) →
    k1 ≠ k2 → q1 ≠ q2 ∧ q1 ≠ r2 ∧ r1 ≠ q2 ∧ r1 ≠ r2;
  memo_op_inj : ∀ k1 k2 v1 v2,
    m_dedup_op_constraint_expr st !! k1 = Some v1 →
    m_dedup_op_constraint_expr st !! k2 = Some v2 →
    k1 ≠ k2 → v1 ≠ v2;
  memo_cross : ∀ k k' q r v,
    m_dedup_quot_rem_expr st !! k = Some (q, r) →
    m_dedup_op_constraint_expr st !! k' = Some v →
    v ≠ q ∧ v ≠ r
}.

(** The terms bor and bxor make of p, q and the term r of band. *)
Definition or_of_and (p q r : pdd) : pdd := (p + q - r)%pdd.
Definition xor_of_and (p q r : pdd) : pdd :=
  (p + q - mk_val 2 * r)%pdd.

(** As many boolean variables and storage slots as dedup entries. *)
Definition one_per_key (st : state_t) : Prop :=
  s_num_bvars st = size (m_dedup_constraints st) ∧
  length (m_constraints st) = size (m_dedup_constraints st).
End more.

(** Modelled from the spec: negation and subtraction of the polynomial
    layer (dd_pdd.h), on values, are those of the integers modulo 2^K. *)
Class PddSubLaws (pdd : Type) {PO : PddOps pdd} : Prop := {
  neg_mk_val x : (- mk_val x)%pdd = mk_val (- x);
  sub_mk_val x y : (mk_val x - mk_val y)%pdd = mk_val (x - y)
}.
End spec.
(** * Properties *)

Import constraint_manager.
Import spec.

(** ** normalize_watch keeps the clause and orders its front *)

Section normalize_watch_proofs.
Context `{SearchEngine trail}.
Variable s : trail.

Local Abbreviation wl := (get_watch_level s).

Lemma normalize_watch_init_inv (cl : list literal) :
  1 < length cl → watch_inv s (length cl) (normalize_watch_init s cl) 2.
Proof.
  intros Hlen. unfold normalize_watch_init, watch_inv.
  case_decide; simpl.
  - rewrite !length_insert.
    rewrite list_lookup_total_insert_ne by lia.
    rewrite list_lookup_total_insert_eq by lia.
    rewrite list_lookup_total_insert_eq by (rewrite length_insert; lia).
    repeat split; try lia.
  - repeat split; try lia.
Qed.

Lemma normalize_watch_step_inv n st i :
  2 ≤ i < n → watch_inv s n st i →
  watch_inv s n (normalize_watch_step s st i) (S i).
Proof.
  destruct st as [[cl lvl0] lvl1].
  intros Hi (Hlen & H0 & H1 & Hord & Hrest); simpl in *.
  unfold normalize_watch_step, watch_inv.
  repeat case_decide; simpl.
  - rewrite !length_insert.
    rewrite (list_lookup_total_insert_eq _ 0) by (rewrite !length_insert; lia).
    rewrite (list_lookup_total_insert_ne _ 0 1) by lia.
    rewrite (list_lookup_total_insert_eq _ 1) by (rewrite !length_insert; lia).
    rewrite (list_lookup_total_insert_ne _ i 0) by lia.
    repeat split; try lia.
    intros j Hj.
    rewrite (list_lookup_total_insert_ne _ 0 j) by lia.
    rewrite (list_lookup_total_insert_ne _ 1 j) by lia.
    destruct (decide (j = i)) as [->|Hne].
    + rewrite list_lookup_total_insert_eq by lia. lia.
    + rewrite list_lookup_total_insert_ne by lia.
      specialize (Hrest j). lia.
  - rewrite !length_insert.
    rewrite (list_lookup_total_insert_ne _ 1 0) by lia.
    rewrite (list_lookup_total_insert_ne _ i 0) by lia.
    rewrite (list_lookup_total_insert_eq _ 1) by (rewrite !length_insert; lia).
    repeat split; try lia.
    intros j Hj.
    rewrite (list_lookup_total_insert_ne _ 1 j) by lia.
    destruct (decide (j = i)) as [->|Hne].
    + rewrite list_lookup_total_insert_eq by lia. lia.
    + rewrite list_lookup_total_insert_ne by lia.
      specialize (Hrest j). lia.
  - repeat split; try lia.
    intros j Hj. destruct (decide (j = i)) as [->|Hne]; [lia|].
    specialize (Hrest j). lia.
Qed.

Lemma normalize_watch_loop_inv n k : ∀ st i,
  2 ≤ i → i + k ≤ n → watch_inv s n st i →
  watch_inv s n (foldl (normalize_watch_step s) st (seq i k)) (i + k).
Proof.
  induction k as [|k IH]; intros st i Hi Hk Hinv; simpl.
  - by rewrite Nat.add_0_r.
  - replace (i + S k) with (S i + k) by lia.
    apply IH; [lia | lia |].
    apply normalize_watch_step_inv; [lia | done].
Qed.

Lemma normalize_watch_inv (cl : list literal) :
  1 < length cl →
  watch_inv s (length cl)
    (foldl (normalize_watch_step s) (normalize_watch_init s cl)
           (seq 2 (length cl - 2)))
    (length cl).
Proof.
  intros Hlen.
  replace (length cl) with (2 + (length cl - 2)) at 3 by lia.
  apply normalize_watch_loop_inv; [lia | lia |].
  by apply normalize_watch_init_inv.
Qed.

Lemma normalize_watch_length (cl : list literal) :
  1 < length cl → length (normalize_watch s cl) = length cl.
Proof. intros Hlen. by destruct (normalize_watch_inv cl Hlen) as (? & _). Qed.

(** Overwriting a position with [x] and putting the old element in front
    rearranges [x :: l]. *)
Lemma insert_rotate_perm (l : list literal) k x y :
  l !! k = Some y → y :: <[k := x]> l ≡ₚ x :: l.
Proof.
  revert k. induction l as [|z l IH]; intros [|k] Hk; simplify_eq/=.
  - apply perm_swap.
  - rewrite perm_swap, (IH _ Hk). apply perm_swap.
Qed.

Lemma normalize_watch_init_perm (cl : list literal) :
  1 < length cl → (normalize_watch_init s cl).1.1 ≡ₚ cl.
Proof.
  destruct cl as [|a [|b rest]]; simpl; try lia. intros _.
  unfold normalize_watch_init. case_decide; simpl; [|done].
  apply perm_swap.
Qed.

Lemma normalize_watch_step_perm st i :
  2 ≤ i < length st.1.1 → (normalize_watch_step s st i).1.1 ≡ₚ st.1.1.
Proof.
  destruct st as [[cl lvl0] lvl1]. simpl.
  destruct cl as [|a [|b rest]]; simpl; try lia.
  destruct i as [|[|k]]; try lia. intros Hk.
  destruct (lookup_lt_is_Some_2 rest k) as [lit Hlit]; [lia|].
  unfold normalize_watch_step.
  assert ((a :: b :: rest) !!! S (S k) = lit) as ->
    by (by apply list_lookup_total_correct).
  repeat case_decide; simpl; [| |done].
  - rewrite perm_swap. f_equiv. by apply insert_rotate_perm.
  - f_equiv. by apply insert_rotate_perm.
Qed.

Lemma normalize_watch_step_length st i :
  length (normalize_watch_step s st i).1.1 = length st.1.1.
Proof.
  destruct st as [[cl lvl0] lvl1]. unfold normalize_watch_step.
  repeat case_decide; simpl; by rewrite ?length_insert.
Qed.

Lemma normalize_watch_loop_perm k : ∀ st i,
  2 ≤ i → i + k ≤ length st.1.1 →
  (foldl (normalize_watch_step s) st (seq i k)).1.1 ≡ₚ st.1.1.
Proof.
  induction k as [|k IH]; intros st i Hi Hk; simpl; [done|].
  rewrite IH; [| lia | rewrite normalize_watch_step_length; lia].
  apply normalize_watch_step_perm. lia.
Qed.

Lemma normalize_watch_rearranges (cl : list literal) :
  1 < length cl → normalize_watch s cl ≡ₚ cl.
Proof.
  intros Hlen. unfold normalize_watch.
  rewrite normalize_watch_loop_perm.
  - by apply normalize_watch_init_perm.
  - lia.
  - destruct (normalize_watch_init_inv cl Hlen) as [-> _]. lia.
Qed.

(** C1: normalize_watch on a clause of size > 1 returns a clause of the
    same size with the same literals, rearranged; it has a literal at
    position 0 and one at position 1, the watch level of position 0 is at
    least that of position 1, and no literal at a position >= 2 has a
    watch level above either front position's. *)
Theorem normalize_watch_front_levels (cl : list literal) :
  1 < length cl →
  let cl' := normalize_watch s cl in
  length cl' = length cl ∧
  cl' ≡ₚ cl ∧
  ∃ lit0 lit1,
    cl' !! 0 = Some lit0 ∧ cl' !! 1 = Some lit1 ∧
    (wl lit1 ≤ wl lit0)%Z ∧
    ∀ i lit, 2 ≤ i → cl' !! i = Some lit →
      (wl lit ≤ wl lit0)%Z ∧ (wl lit ≤ wl lit1)%Z.
Proof.
  intros Hlen cl'.
  destruct (normalize_watch_inv cl Hlen) as (Hn & H0 & H1 & Hord & Hrest).
  fold (normalize_watch s cl) in *. fold cl' in Hn, H0, H1, Hord, Hrest.
  split; [done|]. split; [by apply normalize_watch_rearranges|].
  destruct (lookup_lt_is_Some_2 cl' 0) as [lit0 Hl0]; [lia|].
  destruct (lookup_lt_is_Some_2 cl' 1) as [lit1 Hl1]; [lia|].
  exists lit0, lit1. split_and!; [done..| |].
  - rewrite (list_lookup_total_correct _ _ _ Hl0) in H0.
    rewrite (list_lookup_total_correct _ _ _ Hl1) in H1. lia.
  - intros i lit Hi Hlit.
    pose proof (lookup_lt_Some _ _ _ Hlit) as Hlt.
    rewrite (list_lookup_total_correct _ _ _ Hl0) in H0.
    rewrite (list_lookup_total_correct _ _ _ Hl1) in H1.
    apply list_lookup_total_correct in Hlit as <-.
    specialize (Hrest i). lia.
Qed.

(** C9: normalize_watch only permutes the literals of a clause of size
    > 1: the clause after the call is a permutation of the clause before,
    that is, both hold the same multiset of literals. *)
Theorem normalize_watch_permutation (cl : list literal) :
  1 < length cl → normalize_watch s cl ≡ₚ cl.
Proof.
  intros Hlen. unfold normalize_watch.
  rewrite normalize_watch_loop_perm.
  - by apply normalize_watch_init_perm.
  - lia.
  - destruct (normalize_watch_init_inv cl Hlen) as [-> _]. lia.
Qed.
End normalize_watch_proofs.

(** ** The sparse polynomials satisfy the polynomial laws *)

Section sparse_poly_laws.
Import sparse_poly.
Variable K : Z.
Hypothesis K_range : (1 ≤ K < 2 ^ 32)%Z.

Local Abbreviation M := (modulus K).

Lemma sparse_modulus_gt_1 : (1 < M)%Z.
Proof. unfold modulus. apply Z.pow_gt_1; lia. Qed.

Lemma coeff_mod c : coeff K (c mod M) = coeff K c.
Proof.
  pose proof sparse_modulus_gt_1.
  unfold coeff. by rewrite Z.mod_mod by lia.
Qed.

Lemma coeff_congr c d : (c mod M = d mod M)%Z → coeff K c = coeff K d.
Proof. intros Heq. by rewrite <-(coeff_mod c), Heq, coeff_mod. Qed.

Lemma coeff_Some c c' : coeff K c = Some c' → c' = (c mod M)%Z ∧ c' ≠ 0%Z.
Proof. unfold coeff. case_decide; naive_solver. Qed.

Lemma coeff_None c : coeff K c = None → (c mod M = 0)%Z.
Proof. unfold coeff. by case_decide. Qed.

Lemma lookup_monom m c m' :
  monom K m c !! m' = if decide (m = m') then coeff K c else None.
Proof.
  unfold monom. destruct (coeff K c) eqn:Hc.
  - apply lookup_singleton.
  - rewrite lookup_empty. by case_decide.
Qed.

Lemma constant_term_const c : constant_term (const K c) = (c mod M)%Z.
Proof.
  unfold constant_term, const. rewrite lookup_monom, decide_True by done.
  destruct (coeff K c) eqn:Hc; simpl.
  - by apply coeff_Some in Hc as [-> _].
  - by apply coeff_None in Hc.
Qed.

Lemma const_congr c d : (c mod M = d mod M)%Z → const K c = const K d.
Proof. intros Heq. unfold const, monom. by rewrite (coeff_congr c d). Qed.

Lemma const_mod c : const K (c mod M) = const K c.
Proof.
  pose proof sparse_modulus_gt_1. apply const_congr.
  by rewrite Z.mod_mod by lia.
Qed.

Lemma add_const x y : add K (const K x) (const K y) = const K (x + y).
Proof.
  pose proof sparse_modulus_gt_1.
  apply map_eq; intros m. unfold add, const.
  rewrite lookup_union_with, !lookup_monom.
  case_decide; [|done].
  destruct (coeff K x) as [a|] eqn:Hx, (coeff K y) as [b|] eqn:Hy; simpl.
  - apply coeff_Some in Hx as [-> _]. apply coeff_Some in Hy as [-> _].
    apply coeff_congr. by rewrite <-Z.add_mod by lia.
  - rewrite <-Hx. apply coeff_congr. apply coeff_None in Hy.
    by rewrite Z.add_mod, Hy, Z.add_0_r, Z.mod_mod by lia.
  - rewrite <-Hy. apply coeff_congr. apply coeff_None in Hx.
    by rewrite Z.add_mod, Hx, Z.add_0_l, Z.mod_mod by lia.
  - symmetry. apply coeff_None in Hx, Hy. unfold coeff.
    rewrite decide_True; [done|].
    by rewrite Z.add_mod, Hx, Hy by lia.
Qed.

Lemma add_empty_r p : add K p ∅ = p.
Proof.
  apply map_eq; intros m. unfold add.
  rewrite lookup_union_with, lookup_empty. by destruct (p !! m).
Qed.

Lemma mul_const x y : mul K (const K x) (const K y) = const K (x * y).
Proof.
  pose proof sparse_modulus_gt_1.
  unfold mul, const at 1 2, monom.
  destruct (coeff K x) as [a|] eqn:Hx.
  - rewrite map_fold_singleton.
    destruct (coeff K y) as [b|] eqn:Hy.
    + rewrite map_fold_singleton, add_empty_r.
      apply coeff_Some in Hx as [-> _]. apply coeff_Some in Hy as [-> _].
      apply const_congr. by rewrite <-Z.mul_mod by lia.
    + rewrite map_fold_empty. apply coeff_None in Hy.
      rewrite <-(const_congr 0); [done|].
      by rewrite Z.mul_mod, Hy, Z.mul_0_r by lia.
  - rewrite map_fold_empty. apply coeff_None in Hx.
    rewrite <-(const_congr 0); [done|].
    by rewrite Z.mul_mod, Hx, Z.mul_0_l by lia.
Qed.

Lemma the_var_monom v : the_var (monom K [v] 1) = v.
Proof.
  pose proof sparse_modulus_gt_1.
  unfold the_var, monom, coeff.
  rewrite Z.mod_1_l by lia.
  rewrite decide_False by lia.
  by rewrite map_to_list_singleton.
Qed.

Lemma sparse_poly_laws : PddLaws poly (PO := ops K).
Proof.
  split; simpl.
  - done.
  - intros n. unfold is_const. apply bool_decide_eq_true.
    by rewrite constant_term_const, const_mod.
  - apply constant_term_const.
  - intros p Hp. unfold is_const in Hp.
    by apply bool_decide_eq_true in Hp.
  - intros p. apply bool_decide_eq_true.
  - intros p. apply bool_decide_eq_true.
  - apply add_const.
  - apply mul_const.
  - apply the_var_monom.
Qed.

Lemma sparse_simplify_sound :
  spec.UleSimplifySound poly (PO := ops K) (US := ule_simp K).
Proof.
  split. intros is_positive lhs rhs Hl Hr. simpl in *.
  unfold simplify. rewrite Hl, Hr. simpl.
  pose proof (constant_term_const 0) as H0. rewrite Z.mod_0_l in H0
    by (pose proof sparse_modulus_gt_1; lia).
  assert (is_const K (const K 0) = true) as Hc0.
  { unfold is_const. apply bool_decide_eq_true. by rewrite H0. }
  case_bool_decide as Hle; (split_and!; [done|done|]); rewrite H0;
    rewrite (bool_decide_eq_true_2 (0 ≤ 0)%Z) by done.
  - done.
  - by destruct is_positive.
Qed.
End sparse_poly_laws.


(** ** Consequences of the polynomial laws *)

Section pdd_facts.
Context `{PddOps pdd} `{!PddLaws pdd}.

Lemma modulus_pos : (0 < 2 ^ power_of_2)%Z.
Proof. pose proof power_of_2_range. apply Z.pow_pos_nonneg; lia. Qed.

Lemma modulus_gt_1 : (1 < 2 ^ power_of_2)%Z.
Proof. pose proof power_of_2_range. apply Z.pow_gt_1; lia. Qed.

Lemma val_range p : is_val p = true → (0 ≤ val p < 2 ^ power_of_2)%Z.
Proof.
  intros Hp. rewrite <-(mk_val_val p Hp), val_mk_val.
  apply Z.mod_pos_bound, modulus_pos.
Qed.

Lemma val_mk_val_small n :
  (0 ≤ n < 2 ^ power_of_2)%Z → val (mk_val n) = n.
Proof. intros Hn. rewrite val_mk_val. by apply Z.mod_small. Qed.

Lemma is_zero_val p : is_val p = true → is_zero p = false → val p ≠ 0%Z.
Proof.
  intros Hp Hz Hv. apply not_true_iff_false in Hz. apply Hz.
  apply is_zero_spec. by rewrite <-(mk_val_val p Hp), Hv.
Qed.

Lemma is_zero_false_of_val p : val p ≠ 0%Z → is_zero p = false.
Proof.
  intros Hv. apply not_true_iff_false. intros Hz%is_zero_spec.
  apply Hv. subst p. rewrite val_mk_val. apply Z.mod_0_l.
  pose proof modulus_pos. lia.
Qed.

Lemma is_one_val p : is_one p = true → is_val p = true ∧ val p = 1%Z.
Proof.
  intros ->%is_one_spec. split; [apply is_val_mk_val|].
  apply val_mk_val_small. pose proof modulus_gt_1. lia.
Qed.

Lemma is_one_not_zero p : is_one p = true → is_zero p = false.
Proof.
  intros [_ Hv]%is_one_val. apply is_zero_false_of_val. lia.
Qed.

Lemma mk_val_eq_inv x y :
  mk_val x = mk_val y → (x mod 2 ^ power_of_2 = y mod 2 ^ power_of_2)%Z.
Proof. intros Heq. by rewrite <-!val_mk_val, Heq. Qed.
End pdd_facts.

(** ** Quotient and remainder on constants *)

Section quot_rem_constants.
Context `{SearchEngine trail} `{PddOps pdd} `{!UleSimplify pdd}.
Context `{!PddLaws pdd}.

Implicit Types (a b : pdd) (st : state (trail:=trail) (pdd:=pdd)).

(** The folded result, on each of the three constant paths. *)
Lemma quot_rem_zero a b st :
  is_zero b = true → quot_rem a b st = ((mk_val max_value, a), st).
Proof. intros Hz. unfold quot_rem. by rewrite Hz. Qed.

Lemma quot_rem_one a b st :
  is_one b = true → quot_rem a b st = ((a, pdd_zero), st).
Proof.
  intros Ho. unfold quot_rem. by rewrite (is_one_not_zero b Ho), Ho.
Qed.

Lemma quot_rem_vals a b st :
  is_zero b = false → is_one b = false →
  is_val a = true → is_val b = true →
  quot_rem a b st =
    ((mk_val (Z.quot (val a) (val b)), mk_val (Z.rem (val a) (val b))), st).
Proof.
  intros Hz Ho Ha Hb. unfold quot_rem. by rewrite Hz, Ho, Ha, Hb.
Qed.

(** C4: quot_rem folds constants: a zero divisor gives (all-ones, a), a
    divisor one gives (a, 0); at width 4, quot_rem(5, 0) is (15, 5). *)
Theorem quot_rem_constant_folding a b st :
  (is_zero b = true → eval (quot_rem a b) st = (mk_val max_value, a)) ∧
  (is_one b = true → eval (quot_rem a b) st = (a, pdd_zero)) ∧
  (power_of_2 = 4%Z →
     eval (quot_rem (mk_val 5) (mk_val 0)) st = (mk_val 15, mk_val 5)).
Proof.
  unfold eval. split_and!.
  - intros Hz. by rewrite quot_rem_zero.
  - intros Ho. by rewrite quot_rem_one.
  - intros HK. rewrite quot_rem_zero by (by apply is_zero_spec).
    unfold max_value. by rewrite HK.
Qed.

(** C3: for concrete a and b with b ≠ 0, quot_rem returns concrete q and r
    with b*q + r = a as polynomials modulo 2^K, r < b, and b*q + r computed
    on the integers stays below 2^K; at width 4, quot_rem(5, 3) is (1, 2). *)
Theorem quot_rem_concrete a b st :
  (is_val a = true → is_val b = true → val b ≠ 0%Z →
     let '(q, r) := eval (quot_rem a b) st in
     is_val q = true ∧ is_val r = true ∧
     (b * q + r)%pdd = a ∧
     (val r < val b)%Z ∧
     (val b * val q + val r ≤ max_value)%Z ∧
     (val b * val q + val r = val a)%Z) ∧
  (power_of_2 = 4%Z →
     eval (quot_rem (mk_val 5) (mk_val 3)) st = (mk_val 1, mk_val 2)).
Proof.
  split.
  - intros Ha Hb Hb0.
    pose proof (val_range a Ha) as Hra.
    pose proof (val_range b Hb) as Hrb.
    pose proof modulus_gt_1 as HM.
    pose proof (is_zero_false_of_val b Hb0) as Hz.
    unfold eval, max_value.
    destruct (is_one b) eqn:Ho.
    + rewrite quot_rem_one by done. simpl.
      destruct (is_one_val b Ho) as [_ Hb1].
      unfold pdd_zero. rewrite is_val_mk_val, val_mk_val_small by lia.
      split_and!; try done; try lia.
      rewrite <-(mk_val_val b Hb), <-(mk_val_val a Ha) at 1.
      rewrite mul_mk_val, add_mk_val, Hb1.
      rewrite <-(mk_val_val a Ha) at 2. f_equal. lia.
    + rewrite quot_rem_vals by done. simpl.
      pose proof (Z.quot_rem' (val a) (val b)) as Hqr.
      pose proof (Z.rem_bound_pos (val a) (val b)) as Hr.
      pose proof (Z.quot_pos (val a) (val b)) as Hq.
      assert (0 ≤ Z.quot (val a) (val b) < 2 ^ power_of_2)%Z by nia.
      assert (0 ≤ Z.rem (val a) (val b) < 2 ^ power_of_2)%Z by lia.
      rewrite !is_val_mk_val, !val_mk_val_small by done.
      split_and!; try done; try lia.
      rewrite <-(mk_val_val b Hb) at 1.
      rewrite mul_mk_val, add_mk_val, <-Hqr. by apply mk_val_val.
  - intros HK.
    assert (2 ^ power_of_2 = 16)%Z as HM by (by rewrite HK).
    assert (val (mk_val 5) = 5%Z) as H5 by (by rewrite val_mk_val, HM).
    assert (val (mk_val 3) = 3%Z) as H3 by (by rewrite val_mk_val, HM).
    unfold eval. rewrite quot_rem_vals.
    + by rewrite H5, H3.
    + apply is_zero_false_of_val. by rewrite H3.
    + apply not_true_iff_false. intros Ho%is_one_val. lia.
    + apply is_val_mk_val.
    + apply is_val_mk_val.
Qed.

(** C10: on a constant-folded path (b zero, b one, or both operands
    concrete) quot_rem leaves the whole manager and solver state as it
    was: no variable, no clause, no memo entry. *)
Theorem quot_rem_constant_frame a b st :
  is_zero b = true ∨ is_one b = true ∨
  (is_val a = true ∧ is_val b = true) →
  exec (quot_rem a b) st = st.
Proof.
  intros Hpath. unfold exec, quot_rem.
  destruct (is_zero b); [done|].
  destruct (is_one b); [done|].
  destruct Hpath as [?|[?|[-> ->]]]; done.
Qed.
End quot_rem_constants.


(** ** Reasoning about the manager's methods *)

Section respects.
Context {Σ : Type}.
Implicit Types (R : relation Σ).

Lemma respects_ret {A} R `{!PreOrder R} (a : A) : respects R (ret a).
Proof. intros st. simpl. reflexivity. Qed.

Lemma respects_gets {A} R `{!PreOrder R} (f : Σ → A) : respects R (gets f).
Proof. intros st. simpl. reflexivity. Qed.

Lemma respects_modify R (f : Σ → Σ) :
  (∀ st, R st (f st)) → respects R (modify f).
Proof. intros Hf st. apply Hf. Qed.

Lemma respects_bind {A B} R `{!PreOrder R}
    (m : StateM Σ A) (k : A → StateM Σ B) :
  respects R m → (∀ a, respects R (k a)) → respects R (bind m k).
Proof.
  intros Hm Hk st. unfold bind.
  specialize (Hm st). destruct (m st) as [a st1]. simpl in *.
  etrans; [done|]. apply Hk.
Qed.

#[global] Instance same_preorder {X} (obs : Σ → X) : PreOrder (same obs).
Proof. split; unfold same; [intros ?|intros ???]; congruence. Qed.

#[global] Instance preserving_preorder (P : Σ → Prop) :
  PreOrder (preserving P).
Proof. split; unfold preserving; [intros ?|intros ???]; naive_solver. Qed.
End respects.

Create HintDb respects.

(** Unfold the monad, the field updates and the field projections, and
    nothing else; on a state given by its fields this leaves a flat record. *)
Tactic Notation "state_cbv" :=
  cbv [bind gets ret modify exec eval
       upd_s_trail upd_s_watch upd_s_num_bvars upd_s_vars upd_s_added_clauses
       upd_constraint_heap upd_next_cptr upd_clause_heap upd_m_bv2constraint
       upd_m_constraints upd_m_clauses upd_m_dedup_constraints
       upd_m_dedup_quot_rem_expr upd_m_dedup_op_constraint_expr
       s_trail s_watch s_num_bvars s_vars s_added_clauses constraint_heap
       next_cptr clause_heap m_bv2constraint m_constraints m_clauses
       m_dedup_constraints m_dedup_quot_rem_expr m_dedup_op_constraint_expr
       fst snd negb].
Tactic Notation "state_cbv" "in" hyp(H) :=
  cbv [bind gets ret modify exec eval
       upd_s_trail upd_s_watch upd_s_num_bvars upd_s_vars upd_s_added_clauses
       upd_constraint_heap upd_next_cptr upd_clause_heap upd_m_bv2constraint
       upd_m_constraints upd_m_clauses upd_m_dedup_constraints
       upd_m_dedup_quot_rem_expr upd_m_dedup_op_constraint_expr
       s_trail s_watch s_num_bvars s_vars s_added_clauses constraint_heap
       next_cptr clause_heap m_bv2constraint m_constraints m_clauses
       m_dedup_constraints m_dedup_quot_rem_expr m_dedup_op_constraint_expr
       fst snd negb] in H.

Section dedup_proofs.
Context `{SE : SearchEngine trail} `{PO : PddOps pdd} `{US : UleSimplify pdd}.

Implicit Types (st : state (trail:=trail) (pdd:=pdd)) (k : ckind pdd).

(** *** What [alloc] followed by [dedup] does *)

Lemma alloc_dedup k st :
  bind (alloc k) dedup st =
    match m_dedup_constraints st !! k with
    | Some c2 => (c2, hit_state st)
    | None => (next_cptr st, miss_state k st)
    end.
Proof.
  destruct st as [tr w nb vs ac h n ch bv cs cls tbl qr oe].
  unfold alloc, dedup, hit_state, miss_state, bvar_of. state_cbv.
  rewrite lookup_insert_eq.
  cbn [fmap option_fmap option_map c_kind mbind option_bind].
  destruct (tbl !! k) as [c2|] eqn:Hk.
  - unfold dealloc. state_cbv. by rewrite delete_insert_eq.
  - unfold ensure_bvar, has_bvar, bvar_of. state_cbv.
    rewrite lookup_insert_eq.
    cbn [mbind option_bind m_bvar].
    rewrite bool_decide_eq_false_2 by (by intros [? ?]).
    unfold new_var, assign_bv2c, set_m_bvar, store. state_cbv.
    by rewrite alter_insert_eq.
Qed.

Lemma bind_alloc_dedup {B} k (f : cptr → StateM state B) st :
  bind (alloc k) (λ c1, bind (dedup c1) f) st =
    f (bind (alloc k) dedup st).1 (bind (alloc k) dedup st).2.
Proof.
  unfold bind. destruct (alloc k st) as [c1 st1].
  by destruct (dedup c1 st1) as [c st2].
Qed.

(** *** Generic preservation lemmas

    Each method respects every pre-order for which the state updates it
    performs are harmless. *)
Section generic.
Variable R : relation (state (trail:=trail) (pdd:=pdd)).
Context `{!PreOrder R}.

Lemma respects_alloc_dedup_bind `{!InternOk R} {B} k
    (f : cptr → StateM state B) :
  (∀ c, respects R (f c)) →
  respects R (bind (alloc k) (λ c1, bind (dedup c1) f)).
Proof.
  intros Hf st. rewrite bind_alloc_dedup.
  etrans; [apply (intern_ok k st)|]. apply Hf.
Qed.

(** [alloc] followed by [dedup] only updates six fields. *)
Lemma intern_ok_of_free
    `{!Free upd_constraint_heap R, !Free upd_next_cptr R,
      !Free upd_s_num_bvars R, !Free upd_m_bv2constraint R,
      !Free upd_m_dedup_constraints R, !Free upd_m_constraints R} :
  InternOk R.
Proof.
  intros k st. rewrite alloc_dedup.
  destruct (m_dedup_constraints st !! k); cbn [snd];
    unfold hit_state, miss_state;
    repeat (etrans; [|apply free_upd; tc_solve]); reflexivity.
Qed.

Lemma set_bvar_ok_of_free `{!Free upd_constraint_heap R} : SetBvarOk R.
Proof. intros c bv st. apply (free_upd (upd:=upd_constraint_heap)). Qed.

Lemma dealloc_ok_of_free `{!Free upd_constraint_heap R} : DeallocOk R.
Proof. intros c st. apply (free_upd (upd:=upd_constraint_heap)). Qed.

Lemma respects_free {X} (upd : (X → X) → state → state) `{!Free upd R} f :
  respects R (modify (upd f)).
Proof. apply respects_modify. intros st. apply free_upd. Qed.

Ltac resp :=
  repeat first
    [ progress intros
    | match goal with
      | |- PreOrder _ => tc_solve
      | |- SetBvarOk _ => tc_solve
      | |- DeallocOk _ => tc_solve
      | |- InternOk _ => tc_solve
      end
    | apply set_bvar_ok
    | apply dealloc_ok
    | apply respects_ret
    | apply respects_gets
    | apply respects_free; solve [tc_solve]
    | solve [auto with respects]
    | apply respects_alloc_dedup_bind
    | apply respects_bind
    | match goal with
      | |- respects _ (match ?x with _ => _ end) => destruct x
      end ].

Context `{!Free upd_s_trail R, !Free upd_s_watch R, !Free upd_s_num_bvars R,
          !Free upd_s_vars R, !Free upd_s_added_clauses R,
          !Free upd_clause_heap R, !Free upd_m_bv2constraint R,
          !Free upd_m_constraints R, !Free upd_m_clauses R,
          !Free upd_m_dedup_quot_rem_expr R,
          !Free upd_m_dedup_op_constraint_expr R}.
Context `{!InternOk R, !SetBvarOk R, !DeallocOk R}.

(** Entry points of the solver. *)
Lemma respects_new_var : respects R new_var.
Proof. intros st. apply (free_upd (upd:=upd_s_num_bvars)). Qed.
#[local] Hint Resolve respects_new_var : respects.

Lemma respects_add_var sz : respects R (add_var sz).
Proof. intros st. apply (free_upd (upd:=upd_s_vars)). Qed.
#[local] Hint Resolve respects_add_var : respects.

(** The bridge. *)
Lemma respects_ensure_bvar c : respects R (ensure_bvar c).
Proof.
  unfold ensure_bvar, has_bvar, assign_bv2c. resp.
Qed.
#[local] Hint Resolve respects_ensure_bvar : respects.

Lemma respects_erase_bvar c : respects R (erase_bvar c).
Proof.
  unfold erase_bvar, has_bvar, erase_bv2c. resp.
Qed.
#[local] Hint Resolve respects_erase_bvar : respects.

Lemma respects_lookup_lit lit : respects R (lookup_lit lit).
Proof. unfold lookup_lit, lookup_var, get_bv2c. resp. Qed.
#[local] Hint Resolve respects_lookup_lit : respects.

(** Clause storage and watches. *)
Lemma respects_register_clause cl : respects R (register_clause cl).
Proof. unfold register_clause. resp. Qed.
#[local] Hint Resolve respects_register_clause : respects.

Lemma respects_eval_literals ls : respects R (eval_literals ls).
Proof.
  induction ls as [|lit ls IH]; simpl; resp.
Qed.
#[local] Hint Resolve respects_eval_literals : respects.

Lemma respects_watch cl vp : respects R (watch cl vp).
Proof.
  unfold watch, watch_value_propagate, watch_unit, watch_general,
    watch_push_back, set_clause_lits.
  resp.
Qed.
#[local] Hint Resolve respects_watch : respects.

Lemma respects_unwatch cl : respects R (unwatch cl).
Proof. unfold unwatch, watch_erase. resp. Qed.
#[local] Hint Resolve respects_unwatch : respects.

Lemma respects_store_clause cl vp : respects R (store_clause cl vp).
Proof.
  unfold store_clause. resp.
Qed.
#[local] Hint Resolve respects_store_clause : respects.

(** Clause emission. *)
Lemma respects_alloc_clause ls : respects R (alloc_clause ls).
Proof. intros st. apply (free_upd (upd:=upd_clause_heap)). Qed.
#[local] Hint Resolve respects_alloc_clause : respects.

Lemma respects_add_clause cs r : respects R (add_clause cs r).
Proof. unfold add_clause. resp. Qed.
#[local] Hint Resolve respects_add_clause : respects.

Lemma respects_unwatch_all cls : respects R (unwatch_all cls).
Proof.
  induction cls as [|cl cls IH]; simpl; resp.
Qed.
#[local] Hint Resolve respects_unwatch_all : respects.

Lemma respects_drop_refs cls : respects R (drop_refs cls).
Proof.
  induction cls as [|cl cls IH]; simpl; unfold drop_ref; resp.
Qed.
#[local] Hint Resolve respects_drop_refs : respects.

Lemma respects_release_buckets ls : respects R (release_buckets ls).
Proof.
  induction ls as [|l ls IH]; simpl; unfold release_bucket; resp.
Qed.
#[local] Hint Resolve respects_release_buckets : respects.

Lemma respects_release_level lvl : respects R (release_level lvl).
Proof. unfold release_level. resp. Qed.
#[local] Hint Resolve respects_release_level : respects.

(** Collection. *)
Lemma respects_gc_constraints_loop fuel used :
  ∀ i, respects R (gc_constraints_loop fuel used i).
Proof.
  induction fuel as [|fuel IH]; intros i; simpl; unfold is_external; resp.
Qed.
#[local] Hint Resolve respects_gc_constraints_loop : respects.

Lemma respects_gc : respects R gc.
Proof.
  unfold gc, gc_clauses, gc_constraints. resp.
Qed.
#[local] Hint Resolve respects_gc : respects.

(** Constraint builders. *)
Lemma respects_ule a b : respects R (ule a b).
Proof. unfold ule. resp. Qed.
#[local] Hint Resolve respects_ule : respects.

Lemma respects_eq p : respects R (eq p).
Proof. apply respects_ule. Qed.
#[local] Hint Resolve respects_eq : respects.

Lemma respects_ult a b : respects R (ult a b).
Proof. unfold ult. resp. Qed.
#[local] Hint Resolve respects_ult : respects.

Lemma respects_bit p i : respects R (bit p i).
Proof. apply respects_ule. Qed.
#[local] Hint Resolve respects_bit : respects.

Lemma respects_umul_ovfl a b : respects R (umul_ovfl a b).
Proof. unfold umul_ovfl. resp. Qed.
#[local] Hint Resolve respects_umul_ovfl : respects.

Lemma respects_smul_ovfl a b : respects R (smul_ovfl a b).
Proof. unfold smul_ovfl. resp. Qed.
#[local] Hint Resolve respects_smul_ovfl : respects.

Lemma respects_smul_udfl a b : respects R (smul_udfl a b).
Proof. unfold smul_udfl. resp. Qed.
#[local] Hint Resolve respects_smul_udfl : respects.

Lemma respects_mk_op_constraint op p q r :
  respects R (mk_op_constraint op p q r).
Proof. unfold mk_op_constraint. resp. Qed.
#[local] Hint Resolve respects_mk_op_constraint : respects.

Lemma respects_sle a b : respects R (sle a b).
Proof. apply respects_ule. Qed.
#[local] Hint Resolve respects_sle : respects.

Lemma respects_slt a b : respects R (slt a b).
Proof. apply respects_ult. Qed.
#[local] Hint Resolve respects_slt : respects.


(** Term builders. *)
Lemma respects_quot_rem a b : respects R (quot_rem a b).
Proof.
  unfold quot_rem, machine_div_rem. resp.
Qed.
#[local] Hint Resolve respects_quot_rem : respects.

Lemma respects_mk_op_term op p q : respects R (mk_op_term op p q).
Proof.
  unfold mk_op_term. resp.
Qed.
#[local] Hint Resolve respects_mk_op_term : respects.

(** Every call of a client, given the two memoizing term builders. *)
Section run_request.
Hypothesis respects_quot_rem' : ∀ a b, respects R (quot_rem a b).
Hypothesis respects_mk_op_term' : ∀ op p q, respects R (mk_op_term op p q).
#[local] Hint Resolve respects_quot_rem' respects_mk_op_term' : respects.

Lemma respects_run_request_with r : respects R (run_request r).
Proof.
  destruct r; unfold run_request, bxor, bnand, bnor, bor, band; resp.
Qed.

Lemma respects_run_builder_with r :
  is_builder r = true → respects R (run_request r).
Proof.
  destruct r; try discriminate; intros _;
    unfold run_request, bxor, bnand, bnor, bor, band; resp.
Qed.
End run_request.

Lemma respects_run_request r : respects R (run_request r).
Proof.
  apply respects_run_request_with;
    [apply respects_quot_rem | apply respects_mk_op_term].
Qed.

Lemma respects_run_builder r :
  is_builder r = true → respects R (run_request r).
Proof.
  apply respects_run_builder_with;
    [apply respects_quot_rem | apply respects_mk_op_term].
Qed.
End generic.

Lemma respects_run R `{!PreOrder R} rs :
  (∀ r, r ∈ rs → respects R (run_request r)) →
  respects R (λ st, ((), run rs st)).
Proof.
  unfold run. induction rs as [|r rs IH] using rev_ind; intros Hrs st; simpl.
  - reflexivity.
  - rewrite foldl_app. simpl. etrans.
    + apply IH. intros r' Hr'. apply Hrs. set_solver.
    + apply (Hrs r). set_solver.
Qed.
End dedup_proofs.

(** ** The allocation discipline is an invariant *)

Section wf_proofs.
Context `{SE : SearchEngine trail} `{PO : PddOps pdd} `{US : UleSimplify pdd}.

Local Abbreviation state_t := (state (trail:=trail) (pdd:=pdd)).
Implicit Types (st : state_t) (k : ckind pdd).

(** Fields of the state after a hit and after a miss. *)
Lemma hit_state_heap st :
  constraint_heap (hit_state st) = delete (next_cptr st) (constraint_heap st).
Proof. by destruct st. Qed.
Lemma hit_state_next st : next_cptr (hit_state st) = S (next_cptr st).
Proof. by destruct st. Qed.
Lemma hit_state_table st :
  m_dedup_constraints (hit_state st) = m_dedup_constraints st.
Proof. by destruct st. Qed.
Lemma hit_state_num_bvars st : s_num_bvars (hit_state st) = s_num_bvars st.
Proof. by destruct st. Qed.

Lemma miss_state_heap k st :
  constraint_heap (miss_state k st) =
    <[next_cptr st := {| c_kind := k; m_bvar := Some (s_num_bvars st);
                         m_external := false |}]> (constraint_heap st).
Proof. by destruct st. Qed.
Lemma miss_state_next k st : next_cptr (miss_state k st) = S (next_cptr st).
Proof. by destruct st. Qed.
Lemma miss_state_table k st :
  m_dedup_constraints (miss_state k st) =
    <[k := next_cptr st]> (m_dedup_constraints st).
Proof. by destruct st. Qed.
Lemma miss_state_num_bvars k st :
  s_num_bvars (miss_state k st) = S (s_num_bvars st).
Proof. by destruct st. Qed.

(** [heap_wf] and [table_wf] read three fields of the state. *)
Lemma heap_wf_ext st st' :
  constraint_heap st' = constraint_heap st →
  next_cptr st' = next_cptr st →
  m_dedup_constraints st' = m_dedup_constraints st →
  heap_wf st → heap_wf st'.
Proof.
  intros Hh Hn Ht [Hfresh Htable].
  split; unfold live, key_of; rewrite ?Hh, ?Hn, ?Ht; done.
Qed.

Lemma table_wf_ext st st' :
  constraint_heap st' = constraint_heap st →
  m_dedup_constraints st' = m_dedup_constraints st →
  table_wf st → table_wf st'.
Proof.
  intros Hh Ht Hwf k c. unfold key_of, bvar_of. rewrite Hh, Ht. apply Hwf.
Qed.

Lemma heap_wf_fresh_None st c :
  heap_wf st → next_cptr st ≤ c → constraint_heap st !! c = None.
Proof.
  intros [Hfresh _] Hc. apply eq_None_not_Some. intros Hlive.
  apply Hfresh in Hlive. lia.
Qed.

Lemma heap_wf_hit st : heap_wf st → heap_wf (hit_state st).
Proof.
  intros Hwf. pose proof (heap_wf_fresh_None st _ Hwf (le_n _)) as Hn.
  destruct Hwf as [Hfresh Htable]. split.
  - intros c. unfold live.
    rewrite hit_state_next, hit_state_heap, delete_id by done.
    intros Hc%Hfresh. lia.
  - intros c k. unfold key_of.
    rewrite hit_state_heap, hit_state_table, delete_id by done.
    apply Htable.
Qed.

Lemma heap_wf_miss k st :
  m_dedup_constraints st !! k = None →
  heap_wf st → heap_wf (miss_state k st).
Proof.
  intros Hk [Hfresh Htable]. split.
  - intros c. unfold live.
    rewrite miss_state_next, miss_state_heap, lookup_insert_is_Some.
    intros [<-|[_ Hc%Hfresh]]; lia.
  - intros c k'. unfold key_of.
    rewrite miss_state_heap, miss_state_table.
    destruct (decide (c = next_cptr st)) as [->|Hne].
    + rewrite lookup_insert_eq. simpl. intros [= <-].
      by rewrite lookup_insert_eq.
    + rewrite lookup_insert_ne by done. intros Hc%Htable.
      rewrite lookup_insert_ne; [done|]. intros ->. congruence.
Qed.

Lemma table_wf_hit st : heap_wf st → table_wf st → table_wf (hit_state st).
Proof.
  intros Hwf. pose proof (heap_wf_fresh_None st _ Hwf (le_n _)) as Hn.
  apply table_wf_ext; [|apply hit_state_table].
  by rewrite hit_state_heap, delete_id.
Qed.

Lemma table_wf_miss k st :
  heap_wf st → table_wf st → table_wf (miss_state k st).
Proof.
  intros Hwf Htw k' c.
  pose proof (heap_wf_fresh_None st _ Hwf (le_n _)) as Hn.
  unfold key_of, bvar_of.
  rewrite miss_state_table, miss_state_heap, lookup_insert_Some.
  intros [[<- <-]|[Hne Hc]].
  - rewrite lookup_insert_eq. simpl. eauto.
  - destruct (Htw _ _ Hc) as [Hkey Hbv].
    assert (next_cptr st ≠ c) as Hnc.
    { intros <-. unfold key_of in Hkey. rewrite Hn in Hkey. done. }
    by rewrite lookup_insert_ne.
Qed.

#[global] Instance heap_wf_intern_ok :
  InternOk (preserving (heap_wf : state_t → Prop)).
Proof.
  intros k st Hwf. rewrite alloc_dedup.
  destruct (m_dedup_constraints st !! k) eqn:Hk; simpl.
  - by apply heap_wf_hit.
  - by apply heap_wf_miss.
Qed.

#[global] Instance wf_intern_ok :
  InternOk (preserving (wf : state_t → Prop)).
Proof.
  intros k st [Hwf Htw]. rewrite alloc_dedup.
  destruct (m_dedup_constraints st !! k) eqn:Hk; simpl; split.
  - by apply heap_wf_hit.
  - by apply table_wf_hit.
  - by apply heap_wf_miss.
  - by apply table_wf_miss.
Qed.

(** Changing a boolean variable or freeing a constraint keeps the
    discipline: the keys of live instances do not change. *)
#[global] Instance heap_wf_set_bvar_ok :
  SetBvarOk (preserving (heap_wf : state_t → Prop)).
Proof.
  intros c bv st [Hfresh Htable].
  assert (constraint_heap (set_m_bvar c bv st).2 =
          alter (λ o, {| c_kind := c_kind o; m_bvar := bv;
                         m_external := m_external o |}) c (constraint_heap st))
    as Hh by (by destruct st).
  assert (next_cptr (set_m_bvar c bv st).2 = next_cptr st)
    as Hn by (by destruct st).
  assert (m_dedup_constraints (set_m_bvar c bv st).2 = m_dedup_constraints st)
    as Ht by (by destruct st).
  split.
  - intros c'. unfold live. rewrite Hh, Hn, lookup_alter_is_Some. apply Hfresh.
  - intros c' k. unfold key_of. rewrite Hh, Ht, lookup_alter.
    case_decide as Hc; [subst c'|apply Htable].
    rewrite <-option_fmap_compose. apply Htable.
Qed.

#[global] Instance heap_wf_dealloc_ok :
  DeallocOk (preserving (heap_wf : state_t → Prop)).
Proof.
  intros c st [Hfresh Htable].
  assert (constraint_heap (dealloc c st).2 = delete c (constraint_heap st))
    as Hh by (by destruct st).
  assert (next_cptr (dealloc c st).2 = next_cptr st)
    as Hn by (by destruct st).
  assert (m_dedup_constraints (dealloc c st).2 = m_dedup_constraints st)
    as Ht by (by destruct st).
  split.
  - intros c'. unfold live. rewrite Hh, Hn, lookup_delete_is_Some.
    intros [_ Hc]. by apply Hfresh.
  - intros c' k. unfold key_of. rewrite Hh, Ht, lookup_delete.
    case_decide; [done|apply Htable].
Qed.
End wf_proofs.

(** Updates of the other fields are free for the discipline. *)
#[global] Hint Extern 1 (Free _ (preserving heap_wf)) =>
  (let st := fresh "st" in
   intros ? st; unfold preserving; apply heap_wf_ext; by destruct st)
  : typeclass_instances.
#[global] Hint Extern 1 (Free _ (preserving wf)) =>
  (let st := fresh "st" in
   intros ? st; unfold preserving, wf; intros [? ?]; split;
   [eapply heap_wf_ext; [..|done] | eapply table_wf_ext; [..|done]];
   by destruct st)
  : typeclass_instances.

(** ** Dedup of [ule] constraints *)

(** The composite tactic for goals of the form [respects R m]. *)
Ltac resp_method :=
  first [ apply respects_run_request; tc_solve
        | apply respects_run_builder; first [done | tc_solve] ].

Section ule_dedup.
Context `{SE : SearchEngine trail} `{PO : PddOps pdd} `{US : UleSimplify pdd}.

Local Abbreviation state_t := (state (trail:=trail) (pdd:=pdd)).
Implicit Types (st : state_t) (k : ckind pdd) (a b : pdd).

Lemma heap_wf_init (s : trail) : heap_wf (init s : state_t).
Proof.
  split; intros c; unfold live, key_of; simpl;
    by rewrite ?lookup_empty; intros [].
Qed.

Lemma table_wf_init (s : trail) : table_wf (init s : state_t).
Proof. intros k c. simpl. by rewrite lookup_empty. Qed.

Lemma wf_init (s : trail) : wf (init s : state_t).
Proof. split; [apply heap_wf_init | apply table_wf_init]. Qed.

(** The allocation discipline holds after any sequence of calls. *)
Lemma heap_wf_run rs st : heap_wf st → heap_wf (run rs st).
Proof.
  apply (respects_run (preserving heap_wf) rs).
  intros r _. resp_method.
Qed.

(** Builders also keep the table free of dangling entries. *)
Lemma wf_run rs st :
  Forall (λ r, is_builder r = true) rs → wf st → wf (run rs st).
Proof.
  intros Hrs. apply (respects_run (preserving wf) rs).
  intros r Hr. rewrite Forall_forall in Hrs. specialize (Hrs r Hr).
  resp_method.
Qed.

(** What [ule] returns and the state it leaves. *)
Lemma ule_spec a b st :
  ule a b st =
    match m_dedup_constraints st !! ule_key a b with
    | Some c2 =>
      ({| sc_constraint := Some c2; sc_positive := ule_polarity a b |},
       hit_state st)
    | None =>
      ({| sc_constraint := Some (next_cptr st);
          sc_positive := ule_polarity a b |},
       miss_state (ule_key a b) st)
    end.
Proof.
  unfold ule, ule_key, ule_polarity.
  destruct (ule_simplify true a b) as [[pos lhs] rhs]. simpl.
  rewrite bind_alloc_dedup, alloc_dedup.
  by destruct (m_dedup_constraints st !! ule_constraint lhs rhs).
Qed.

(** Two calls in a row. *)
Lemma ule_twice a b st :
  heap_wf st →
  let '(sc1, st1) := ule a b st in
  let '(sc2, st2) := ule a b st1 in
  sc1 = sc2 ∧
  (∃ c, sc_constraint sc1 = Some c ∧
        bvar_of st2 c = bvar_of st1 c ∧
        (table_wf st → is_Some (bvar_of st1 c))) ∧
  s_num_bvars st2 = s_num_bvars st1 ∧
  s_num_bvars st1 ≤ S (s_num_bvars st).
Proof.
  intros Hwf.
  pose proof (heap_wf_fresh_None st _ Hwf (le_S _ _ (le_n _))) as HSn.
  rewrite (ule_spec a b st).
  destruct (m_dedup_constraints st !! ule_key a b) as [c2|] eqn:Hk.
  - rewrite ule_spec, hit_state_table, Hk.
    split_and!; [done| |by rewrite !hit_state_num_bvars
                       |rewrite hit_state_num_bvars; lia].
    exists c2. split_and!; [done| |].
    + unfold bvar_of. rewrite (hit_state_heap (hit_state st)).
      rewrite hit_state_next, delete_id; [done|].
      rewrite hit_state_heap, lookup_delete_ne by lia. done.
    + intros Htw. eapply (table_wf_hit st Hwf Htw).
      by rewrite hit_state_table.
  - rewrite ule_spec, miss_state_table, lookup_insert_eq.
    split_and!; [done| |by rewrite hit_state_num_bvars
                       |rewrite miss_state_num_bvars; lia].
    exists (next_cptr st). split_and!; [done| |].
    + unfold bvar_of. rewrite hit_state_heap, miss_state_next.
      by rewrite lookup_delete_ne by lia.
    + intros _. unfold bvar_of.
      rewrite miss_state_heap, lookup_insert_eq. simpl. eauto.
Qed.

(** Boolean variables are allocated for new keys only. *)
Lemma run_ule_num_bvars reqs : ∀ st,
  s_num_bvars (run_ule reqs st) =
    s_num_bvars st + size (ule_keys reqs ∖ dom (m_dedup_constraints st)).
Proof.
  unfold run_ule, ule_keys.
  induction reqs as [|[a b] reqs IH]; intros st.
  - simpl. rewrite difference_disjoint_L by set_solver. by rewrite size_empty.
  - rewrite fmap_cons, list_to_set_cons. cbn [foldl fst snd].
    rewrite IH. unfold exec. rewrite ule_spec.
    destruct (m_dedup_constraints st !! ule_key a b) as [c2|] eqn:Hk;
      cbn [snd].
    + rewrite hit_state_num_bvars, hit_state_table. f_equal. f_equal.
      apply (elem_of_dom_2 (D:=gset (ckind pdd))) in Hk. set_solver.
    + rewrite miss_state_num_bvars, miss_state_table, dom_insert_L.
      apply (not_elem_of_dom (D:=gset (ckind pdd))) in Hk.
      assert (∀ (k : ckind pdd) (K D : gset (ckind pdd)),
              k ∉ D →
              size (({[k]} ∪ K) ∖ D) = S (size (K ∖ ({[k]} ∪ D))))
        as Hsize.
      { intros k K D HkD.
        replace (({[k]} ∪ K) ∖ D) with ({[k]} ∪ K ∖ ({[k]} ∪ D)).
        - rewrite size_union by set_solver. by rewrite size_singleton.
        - apply set_eq. intros x. destruct (decide (x = k)); set_solver. }
      rewrite Hsize by done. lia.
Qed.

(** Forgetting the polarity cannot make more keys. *)
Lemma size_ule_keys reqs : size (ule_keys reqs) ≤ size (ule_signed_keys reqs).
Proof.
  unfold ule_keys, ule_signed_keys.
  induction reqs as [|[a b] reqs IH]; [done|].
  rewrite !fmap_cons, !list_to_set_cons. cbn [fst snd].
  set (k := ule_key a b). set (pol := ule_polarity a b).
  set (K := list_to_set _ : gset (ckind pdd)) in *.
  set (P := list_to_set _ : gset (ckind pdd * bool)) in *.
  assert ((k, pol) ∈ P → k ∈ K) as HkK.
  { subst K P. intros Hin.
    apply elem_of_list_to_set, list_elem_of_fmap in Hin
      as ([a' b'] & [= -> ->] & Hin).
    apply elem_of_list_to_set, list_elem_of_fmap. by exists (a', b'). }
  clearbody K P k pol.
  destruct (decide ((k, pol) ∈ P)) as [Hin|Hnin].
  - replace ({[k]} ∪ K) with K by set_solver.
    replace ({[(k, pol)]} ∪ P) with P by set_solver. done.
  - rewrite (size_union {[(k, pol)]} P) by set_solver.
    rewrite size_singleton, size_union_alt, size_singleton.
    apply le_n_S. etrans; [|exact IH].
    apply subseteq_size. set_solver.
Qed.

(** C2: two calls [ule a b] in a row return the same constraint instance
    with the same polarity and the same boolean variable, the second call
    allocating none and the first at most one; a sequence of [ule] calls
    allocates at most one boolean variable per distinct structural key
    (operator and simplified operands; there are at most as many of these
    as there are keys with their polarity); and after any sequence
    of calls on a fresh manager no two live constraint instances have the
    same structural key. *)
Theorem ule_dedup_canonical a b st :
  (heap_wf st →
   let '(sc1, st1) := ule a b st in
   let '(sc2, st2) := ule a b st1 in
   sc1 = sc2 ∧
   (∃ c, sc_constraint sc1 = Some c ∧
         bvar_of st2 c = bvar_of st1 c ∧
         (table_wf st → is_Some (bvar_of st1 c))) ∧
   s_num_bvars st2 = s_num_bvars st1 ∧
   s_num_bvars st1 ≤ S (s_num_bvars st)) ∧
  (∀ reqs,
     s_num_bvars (run_ule reqs st) ≤ s_num_bvars st + size (ule_keys reqs) ∧
     size (ule_keys reqs) ≤ size (ule_signed_keys reqs)) ∧
  (∀ rs (s : trail) c1 c2 k,
     let st' : state_t := run rs (init s) in
     key_of st' c1 = Some k → key_of st' c2 = Some k → c1 = c2).
Proof.
  split_and!.
  - apply ule_twice.
  - intros reqs. split; [|apply size_ule_keys].
    rewrite run_ule_num_bvars.
    apply Nat.add_le_mono_l, subseteq_size. set_solver.
  - intros rs s c1 c2 k st' H1 H2.
    pose proof (heap_wf_run rs _ (heap_wf_init s)) as [_ Htable].
    apply Htable in H1, H2. fold st' in H1, H2. congruence.
Qed.
End ule_dedup.

(** ** Signed comparison *)

Section sle_proofs.
Context `{SE : SearchEngine trail} `{PO : PddOps pdd} `{US : UleSimplify pdd}.
Context `{!PddLaws pdd} `{!UleSimplifySound pdd}.

Local Abbreviation state_t := (state (trail:=trail) (pdd:=pdd)).
Implicit Types (st : state_t) (a b : pdd).

Local Abbreviation half := (2 ^ (power_of_2 - 1))%Z.

Lemma wrap32_width : wrap32 (power_of_2 - 1) = (power_of_2 - 1)%Z.
Proof. pose proof power_of_2_range. unfold wrap32. apply Z.mod_small. lia. Qed.

Lemma modulus_half : (2 ^ power_of_2 = 2 * half)%Z.
Proof.
  pose proof power_of_2_range.
  rewrite <-Z.pow_succ_r by lia. f_equal. lia.
Qed.

Lemma half_pos : (0 < half)%Z.
Proof. pose proof power_of_2_range. apply Z.pow_pos_nonneg; lia. Qed.

(** Adding 2^(K-1) modulo 2^K turns the signed reading into an offset. *)
Lemma shift_signed_val v :
  (0 ≤ v < 2 ^ power_of_2)%Z →
  ((v + half) mod 2 ^ power_of_2 = signed_val v + half)%Z.
Proof.
  intros Hv. pose proof half_pos. pose proof modulus_half as HM.
  unfold signed_val. case_decide.
  - apply Z.mod_small. lia.
  - replace (v + half)%Z with ((v - half) + 1 * 2 ^ power_of_2)%Z by lia.
    rewrite Z.mod_add by lia. rewrite Z.mod_small; lia.
Qed.

Lemma val_shift a :
  is_val a = true →
  is_val (a + mk_val half)%pdd = true ∧
  val (a + mk_val half)%pdd = (signed_val (val a) + half)%Z.
Proof.
  intros Ha. rewrite <-(mk_val_val a Ha) at 1 2. rewrite add_mk_val.
  split; [apply is_val_mk_val|].
  rewrite val_mk_val. apply shift_signed_val. by apply val_range.
Qed.

Lemma sle_unfold a b :
  sle (trail:=trail) a b = ule (a + mk_val half)%pdd (b + mk_val half)%pdd.
Proof. unfold sle, power_of_two. by rewrite wrap32_width. Qed.

(** The constraint returned by [ule] is live, with the key [ule] used. *)
Lemma ule_key_of a b st :
  wf st →
  let '(sc, st') := ule a b st in
  ∃ c, sc = {| sc_constraint := Some c; sc_positive := ule_polarity a b |} ∧
       key_of st' c = Some (ule_key a b).
Proof.
  intros [Hwf Htw]. rewrite ule_spec.
  destruct (m_dedup_constraints st !! ule_key a b) as [c2|] eqn:Hk.
  - exists c2. split; [done|].
    eapply (table_wf_hit st Hwf Htw). by rewrite hit_state_table.
  - exists (next_cptr st). split; [done|].
    unfold key_of. by rewrite miss_state_heap, lookup_insert_eq.
Qed.

(** On two values, the constraint of [ule] holds iff lhs <= rhs. *)
Lemma ule_holds a b st :
  wf st → is_val a = true → is_val b = true →
  let '(sc, st') := ule a b st in
  sc_holds st' sc = Some (bool_decide (val a ≤ val b)%Z).
Proof.
  intros Hwf Ha Hb. pose proof (ule_key_of a b st Hwf) as Hkey.
  destruct (ule a b st) as [sc st']. destruct Hkey as (c & -> & Hc).
  unfold sc_holds. simpl. rewrite Hc. simpl.
  unfold ule_key, ule_polarity.
  pose proof (ule_simplify_vals true a b Ha Hb) as Hs.
  destruct (ule_simplify true a b) as [[pos lhs] rhs].
  destruct Hs as (-> & -> & Hpos). simpl. f_equal.
  destruct pos, (bool_decide (val lhs ≤ val rhs)%Z),
    (bool_decide (val a ≤ val b)%Z); naive_solver.
Qed.

Lemma sle_holds_signed a b st :
  wf st → is_val a = true → is_val b = true →
  sle_holds a b st =
    Some (bool_decide (signed_val (val a) ≤ signed_val (val b))%Z).
Proof.
  intros Hwf Ha Hb. unfold sle_holds. rewrite sle_unfold.
  destruct (val_shift a Ha) as [Ha' Hva], (val_shift b Hb) as [Hb' Hvb].
  pose proof (ule_holds _ _ st Hwf Ha' Hb') as Hule.
  destruct (ule _ _ st) as [sc st']. rewrite Hule. f_equal.
  apply bool_decide_ext. lia.
Qed.

(** C8: [sle a b] is [ule] on both operands shifted by 2^(K-1); on
    concrete a and b the shifted operands are values that compare, as
    unsigned integers, the way a and b compare in the two's-complement
    order; and in a well-formed state the constraint [sle a b] returns
    holds exactly when a <= b in the two's-complement order.  In
    particular the minimum negative value 2^(K-1) is below every value,
    every value is below the maximum positive value 2^(K-1) - 1, and zero
    is below exactly the values without sign bit. *)
Theorem sle_signed_order a b st :
  sle (trail:=trail) a b =
    ule (a + mk_val half)%pdd (b + mk_val half)%pdd ∧
  (is_val a = true → is_val b = true →
   is_val (a + mk_val half)%pdd = true ∧
   is_val (b + mk_val half)%pdd = true ∧
   ((val (a + mk_val half)%pdd ≤ val (b + mk_val half)%pdd)%Z ↔
    (signed_val (val a) ≤ signed_val (val b))%Z)) ∧
  (wf st → is_val a = true → is_val b = true →
   sle_holds a b st =
     Some (bool_decide (signed_val (val a) ≤ signed_val (val b))%Z)) ∧
  (wf st → is_val b = true →
   sle_holds (mk_val half) b st = Some true ∧
   sle_holds b (mk_val (half - 1)) st = Some true ∧
   sle_holds (mk_val 0) b st = Some (bool_decide (val b < half)%Z)).
Proof.
  split_and!; [apply sle_unfold | | apply sle_holds_signed |].
  { intros Ha Hb.
    destruct (val_shift a Ha) as [? ->], (val_shift b Hb) as [? ->].
    split_and!; [done|done|lia]. }
  intros Hwf Hb.
  pose proof half_pos. pose proof modulus_half.
  pose proof (val_range b Hb) as Hvb.
  rewrite !sle_holds_signed by (done || apply is_val_mk_val).
  rewrite !val_mk_val_small by lia.
  unfold signed_val.
  split_and!; f_equal; repeat case_decide;
    first [ by apply bool_decide_eq_true_2; lia
          | apply bool_decide_ext; lia ].
Qed.
End sle_proofs.
(** ** Memoization of quotient/remainder and of operation terms *)

#[global] Hint Extern 1 (Free _ (same _)) =>
  (let st := fresh "st" in intros ? st; unfold same; by destruct st)
  : typeclass_instances.

Section objects_kept_proofs.
Context `{SE : SearchEngine trail} `{PO : PddOps pdd} `{US : UleSimplify pdd}.

Local Abbreviation state_t := (state (trail:=trail) (pdd:=pdd)).
Implicit Types (st : state_t) (a b p q : pdd).

#[global] Instance objects_kept_preorder :
  PreOrder (objects_kept : relation state_t).
Proof.
  split.
  - intros st Hwf. by split.
  - intros st1 st2 st3 H12 H23 Hwf.
    destruct (H12 Hwf) as [Hwf2 Hs12]. destruct (H23 Hwf2) as [Hwf3 Hs23].
    split; [done|]. by etrans.
Qed.

Lemma objects_kept_ext st st' :
  constraint_heap st' = constraint_heap st →
  next_cptr st' = next_cptr st →
  m_dedup_constraints st' = m_dedup_constraints st →
  objects_kept st st'.
Proof.
  intros Hh Hn Ht [Hwf Htw]. split; [split|by rewrite Hh].
  - by eapply heap_wf_ext.
  - by eapply table_wf_ext.
Qed.

#[global] Instance objects_kept_intern_ok :
  InternOk (objects_kept : relation state_t).
Proof.
  intros k st Hwf. split; [by apply wf_intern_ok|].
  destruct Hwf as [Hwf _].
  pose proof (heap_wf_fresh_None st _ Hwf (le_n _)) as Hn.
  rewrite alloc_dedup.
  destruct (m_dedup_constraints st !! k); cbn [snd].
  - by rewrite hit_state_heap, delete_id.
  - rewrite miss_state_heap. by apply insert_subseteq.
Qed.

Lemma objects_kept_atom st st' sc x :
  objects_kept st st' → wf st →
  atom_of st sc = Some x → atom_of st' sc = Some x.
Proof.
  intros Hk Hwf. destruct (Hk Hwf) as [_ Hsub].
  unfold atom_of, key_of. destruct (sc_constraint sc) as [c|]; [|done].
  simpl. destruct (constraint_heap st !! c) as [o|] eqn:Ho; [|done].
  by rewrite (lookup_weaken _ _ _ _ Ho Hsub).
Qed.

Lemma atom_of_neg st sc :
  atom_of st (sc_neg sc) = neg_atom <$> atom_of st sc.
Proof.
  unfold atom_of. destruct (sc_constraint sc) as [c|] eqn:Hc; simpl;
    rewrite Hc; simpl; [|done].
  by destruct (key_of st c).
Qed.

(** The atom of the constraint interned for a key. *)
Lemma intern_atom k st :
  wf st →
  let '(c, st') := bind (alloc k) dedup st in key_of st' c = Some k.
Proof.
  intros [Hwf Htw].
  pose proof (heap_wf_fresh_None st _ Hwf (le_n _)) as Hn.
  rewrite alloc_dedup.
  destruct (m_dedup_constraints st !! k) as [c2|] eqn:Hk.
  - unfold key_of. rewrite hit_state_heap, delete_id by done.
    by destruct (Htw _ _ Hk).
  - unfold key_of. by rewrite miss_state_heap, lookup_insert_eq.
Qed.
End objects_kept_proofs.

#[global] Hint Extern 1 (Free _ objects_kept) =>
  (let st := fresh "st" in
   intros ? st; apply objects_kept_ext; by destruct st)
  : typeclass_instances.

Section memo_proofs.
Context `{SE : SearchEngine trail} `{PO : PddOps pdd} `{US : UleSimplify pdd}.

Local Abbreviation state_t := (state (trail:=trail) (pdd:=pdd)).
Implicit Types (st : state_t) (a b p q : pdd).

#[local] Instance memo_tables_intern_ok :
  InternOk (same (memo_tables : state_t → _)).
Proof. apply intern_ok_of_free; tc_solve. Qed.

#[local] Instance added_clauses_intern_ok :
  InternOk (same (s_added_clauses : state_t → _)).
Proof. apply intern_ok_of_free; tc_solve. Qed.

(** *** The atoms of the constraints the builders return *)

Lemma ule_returns a b st :
  wf st → atom_of (ule a b st).2 (ule a b st).1 = Some (ule_atom a b).
Proof.
  intros Hwf. pose proof (intern_atom (ule_key a b) st Hwf) as Hk.
  rewrite alloc_dedup in Hk. rewrite ule_spec. unfold atom_of, ule_atom.
  destruct (m_dedup_constraints st !! ule_key a b); simpl; by rewrite Hk.
Qed.

Lemma eq_returns p st :
  wf st → atom_of (eq p st).2 (eq p st).1 = Some (eq_atom p).
Proof. apply ule_returns. Qed.

Lemma ult_returns a b st :
  wf st → atom_of (ult a b st).2 (ult a b st).1 = Some (ult_atom a b).
Proof.
  intros Hwf. pose proof (ule_returns b a st Hwf) as Hu.
  unfold ult, bind, ret. destruct (ule b a st) as [sc st']. simpl in *.
  by rewrite atom_of_neg, Hu.
Qed.

Lemma umul_ovfl_returns a b st :
  wf st →
  atom_of (umul_ovfl a b st).2 (umul_ovfl a b st).1 =
    Some (umul_ovfl_atom a b).
Proof.
  intros Hwf.
  pose proof (intern_atom (umul_ovfl_constraint a b) st Hwf) as Hk.
  unfold umul_ovfl. rewrite bind_alloc_dedup.
  destruct (bind (alloc _) dedup st) as [c st']. unfold atom_of. simpl.
  by rewrite Hk.
Qed.

Lemma mk_op_constraint_returns op p q r st :
  wf st →
  atom_of (mk_op_constraint op p q r st).2 (mk_op_constraint op p q r st).1 =
    Some (op_atom op p q r).
Proof.
  intros Hwf.
  pose proof (intern_atom (op_constraint op p q r) st Hwf) as Hk.
  unfold mk_op_constraint. rewrite bind_alloc_dedup.
  destruct (bind (alloc _) dedup st) as [c st']. unfold atom_of. simpl.
  by rewrite Hk.
Qed.

(** *** What [add_clause] does to the record of emitted clauses *)

Lemma add_clause_log cs r st :
  s_added_clauses (add_clause cs r st).2 = s_added_clauses st ++ [(cs, r)].
Proof.
  unfold add_clause.
  set (m := bind (gets _) _).
  assert (respects (same (s_added_clauses : state_t → _)) m) as Hm.
  { unfold m. apply respects_bind; [tc_solve|apply respects_gets; tc_solve|].
    intros ls. apply respects_bind; [tc_solve| |intros cl].
    - apply respects_alloc_clause; tc_solve.
    - apply respects_store_clause; tc_solve. }
  unfold bind at 1, modify. rewrite (Hm _). by destruct st.
Qed.

Lemma bind_gets {A B} (f : state_t → A) (k : A → StateM state_t B) st :
  bind (gets f) k st = k (f st) st.
Proof. done. Qed.

Lemma bind_modify {B} (f : state_t → state_t)
    (k : unit → StateM state_t B) st :
  bind (modify f) k st = k tt (f st).
Proof. done. Qed.

Lemma bind_add_var {B} sz (k : pvar → StateM state_t B) st :
  bind (add_var sz) k st =
    k (length (s_vars st)) (upd_s_vars (λ vs, vs ++ [sz]) st).
Proof. done. Qed.

Lemma bind_run {A B} (m : StateM state_t A) (k : A → StateM state_t B) st :
  bind m k st = k (m st).1 (m st).2.
Proof. unfold bind. by destruct (m st). Qed.

(** *** Stepping through a chain of builder calls and clause emissions

    Along the chain, four facts are kept about the current state [s]
    relative to the state [sb] at the start of the chain: the solver's
    variables and the memo tables are those of [sb]; the record of
    emitted clauses is that of [sb] plus what was emitted; constraint
    objects were only added; and the atoms of the constraints built so
    far. *)
Ltac solve_resp :=
  lazymatch goal with
  | |- respects _ (eq _) => apply respects_eq
  | |- respects _ (ult _ _) => apply respects_ult
  | |- respects _ (ule _ _) => apply respects_ule
  | |- respects _ (umul_ovfl _ _) => apply respects_umul_ovfl
  | |- respects _ (mk_op_constraint _ _ _ _) =>
    apply respects_mk_op_constraint
  | |- respects _ (add_clause _ _) => apply respects_add_clause
  end; tc_solve.

Ltac advance s s' K :=
  repeat match goal with
  | A : wf ?sb → atom_of s ?c = Some ?x, Kacc : objects_kept ?sb s |- _ =>
    let A' := fresh "A" in
    assert (wf sb → atom_of s' c = Some x) as A'
      by (let Hwf := fresh in
          intros Hwf;
          exact (objects_kept_atom s s' c x K (proj1 (Kacc Hwf)) (A Hwf)));
    clear A
  end;
  match goal with
  | Kacc : objects_kept ?sb s |- _ =>
    let Kacc' := fresh "Kacc" in
    assert (objects_kept sb s') as Kacc'
      by (etrans; [exact Kacc|exact K]);
    clear Kacc
  end;
  match goal with
  | Tacc : memo_tables s = _ |- _ =>
    let T := fresh "Tacc" in
    assert (memo_tables s' = memo_tables s) as T
      by (subst s'; match goal with
                    | |- memo_tables (?m _).2 = _ =>
                      assert (respects (same memo_tables) m) as Hr
                        by solve_resp; apply Hr
                    end);
    rewrite Tacc in T; clear Tacc
  end.

Ltac chain_step c s' :=
  rewrite bind_run;
  lazymatch goal with
  | |- context [(?m ?s).2] =>
    let K := fresh "K" in
    assert (objects_kept s (m s).2) as K
      by (assert (respects objects_kept m) as Hr by solve_resp; apply Hr);
    lazymatch m with
    | add_clause ?cs ?r =>
      let L := fresh "Lacc" in
      pose proof (add_clause_log cs r s) as L;
      match goal with
      | Lacc : s_added_clauses s = _ |- _ => rewrite Lacc in L; clear Lacc
      end
    | _ =>
      let L := fresh "Lacc" in
      assert (s_added_clauses (m s).2 = s_added_clauses s) as L
        by (assert (respects (same s_added_clauses) m) as Hr
              by solve_resp; apply Hr);
      match goal with
      | Lacc : s_added_clauses s = _ |- _ => rewrite Lacc in L; clear Lacc
      end;
      let A := fresh "A" in
      let x := fresh "x" in
      evar (x : (ckind pdd * bool)%type);
      assert (wf s → atom_of (m s).2 (m s).1 = Some x) as A
        by (subst x;
            lazymatch m with
            | eq _ => apply eq_returns
            | ult _ _ => apply ult_returns
            | ule _ _ => apply ule_returns
            | umul_ovfl _ _ => apply umul_ovfl_returns
            | mk_op_constraint _ _ _ _ => apply mk_op_constraint_returns
            end);
      subst x;
      match goal with
      | Kacc : objects_kept ?sb s |- _ =>
        let A' := fresh "A" in
        assert (wf sb → atom_of (m s).2 (m s).1 = Some _) as A'
          by (let Hwf := fresh in
              intros Hwf; exact (A (proj1 (Kacc Hwf))));
        clear A
      end
    end;
    set (c := (m s).1) in *; set (s' := (m s).2) in *
  end.

(** The first call on a pair: two fresh variables, one memo entry, five
    clauses; the literals of the clauses are the constraints the five
    axioms are built from. *)
Lemma quot_rem_miss a b st :
  is_zero b = false → is_one b = false → is_val a && is_val b = false →
  m_dedup_quot_rem_expr st !! (a, b) = None →
  let vq := length (s_vars st) in
  let vr := S vq in
  let '(res, st') := quot_rem a b st in
  res = (mk_var vq, mk_var vr) ∧
  s_vars st' = s_vars st ++ [power_of_2; power_of_2] ∧
  m_dedup_quot_rem_expr st' =
    <[(a, b) := (var (mk_var vq), var (mk_var vr))]>
      (m_dedup_quot_rem_expr st) ∧
  m_dedup_op_constraint_expr st' = m_dedup_op_constraint_expr st ∧
  ∃ c1 c2 c3 c4 c5 c7,
    s_added_clauses st' =
      s_added_clauses st ++
        [([c1], false); ([sc_neg c2], false); ([c3], false);
         ([c4; c5], false); ([sc_neg c4; c7], false)] ∧
    (wf st →
     wf st' ∧
     atom_of st' c1 =
       Some (eq_atom (b * mk_var vq + mk_var vr - a)%pdd) ∧
     atom_of st' c2 = Some (umul_ovfl_atom b (mk_var vq)) ∧
     atom_of st' c3 =
       Some (ule_atom (b * mk_var vq)%pdd (- mk_var vr - mk_val 1)%pdd) ∧
     atom_of st' c4 = Some (eq_atom b) ∧
     atom_of st' c5 = Some (ult_atom (mk_var vr) b) ∧
     atom_of st' c7 = Some (eq_atom (mk_var vq + mk_val 1)%pdd)).
Proof.
  intros Hz Ho Hv Hmiss vq vr.
  set (q := mk_var vq). set (r := mk_var vr). subst vq vr.
  unfold quot_rem. rewrite Hz, Ho, Hv.
  rewrite bind_gets, Hmiss, !bind_add_var, bind_modify.
  assert (length (s_vars (upd_s_vars (λ vs, vs ++ [power_of_2]) st)) =
          S (length (s_vars st))) as ->
    by (destruct st; simpl; rewrite length_app; simpl; lia).
  fold q r.
  match goal with
  | |- context [bind _ _ ?s] => set (sb := s)
  end.
  assert (memo_tables sb =
          (s_vars st ++ [power_of_2; power_of_2],
           <[(a, b) := (var q, var r)]> (m_dedup_quot_rem_expr st),
           m_dedup_op_constraint_expr st)) as Tacc
    by (subst sb; destruct st; unfold memo_tables; simpl;
        by rewrite <-app_assoc).
  assert (objects_kept st sb) as Kacc
    by (subst sb; apply objects_kept_ext; by destruct st).
  assert (s_added_clauses sb = s_added_clauses st ++ []) as Lacc
    by (subst sb; destruct st; simpl; by rewrite app_nil_r).
  clearbody sb.
  chain_step c1 s1. advance sb s1 K. clearbody c1 s1. clear K.
  chain_step u1 s2. advance s1 s2 K. clearbody u1 s2. clear K.
  chain_step c2 s3. advance s2 s3 K. clearbody c2 s3. clear K.
  chain_step u2 s4. advance s3 s4 K. clearbody u2 s4. clear K.
  chain_step c3 s5. advance s4 s5 K. clearbody c3 s5. clear K.
  chain_step u3 s6. advance s5 s6 K. clearbody u3 s6. clear K.
  chain_step c4 s7. advance s6 s7 K. clearbody c4 s7. clear K.
  chain_step c5 s8. advance s7 s8 K. clearbody c5 s8. clear K.
  chain_step u4 s9. advance s8 s9 K. clearbody u4 s9. clear K.
  chain_step c7 s10. advance s9 s10 K. clearbody c7 s10. clear K.
  chain_step u5 s11. advance s10 s11 K. clearbody u5 s11. clear K.
  unfold ret.
  match goal with
  | T : memo_tables s11 = _, L : s_added_clauses s11 = _,
    K : objects_kept st s11 |- _ =>
    unfold memo_tables in T; injection T as Hvs Hqr Hoe;
    rename L into Hlog; rename K into Hkept
  end.
  split_and!; try done.
  exists c1, c2, c3, c4, c5, c7. split.
  - rewrite Hlog, app_nil_r. by rewrite <-!app_assoc.
  - intros Hwf. destruct (Hkept Hwf) as [Hwf' _]. split_and!; auto.
Qed.

(** A later call on the same pair. *)
Lemma quot_rem_hit a b st vq vr :
  is_zero b = false → is_one b = false → is_val a && is_val b = false →
  m_dedup_quot_rem_expr st !! (a, b) = Some (vq, vr) →
  quot_rem a b st = ((mk_var vq, mk_var vr), st).
Proof.
  intros Hz Ho Hv Hhit. unfold quot_rem. rewrite Hz, Ho, Hv.
  unfold bind, gets. by rewrite Hhit.
Qed.

Lemma mk_op_term_miss op p q st :
  m_dedup_op_constraint_expr st !! (op, p, q) = None →
  let v := length (s_vars st) in
  let '(res, st') := mk_op_term op p q st in
  res = mk_var v ∧
  s_vars st' = s_vars st ++ [power_of_2] ∧
  m_dedup_op_constraint_expr st' =
    <[(op, p, q) := var (mk_var v)]> (m_dedup_op_constraint_expr st) ∧
  m_dedup_quot_rem_expr st' = m_dedup_quot_rem_expr st ∧
  ∃ c, s_added_clauses st' = s_added_clauses st ++ [([c], false)] ∧
       (wf st →
        wf st' ∧ atom_of st' c = Some (op_atom op p q (mk_var v))).
Proof.
  intros Hmiss v. set (r := mk_var v). subst v.
  unfold mk_op_term.
  rewrite bind_gets, Hmiss, bind_add_var, bind_modify. fold r.
  match goal with
  | |- context [bind _ _ ?s] => set (sb := s)
  end.
  assert (memo_tables sb =
          (s_vars st ++ [power_of_2], m_dedup_quot_rem_expr st,
           <[(op, p, q) := var r]> (m_dedup_op_constraint_expr st)))
    as Tacc by (subst sb; by destruct st).
  assert (objects_kept st sb) as Kacc
    by (subst sb; apply objects_kept_ext; by destruct st).
  assert (s_added_clauses sb = s_added_clauses st ++ []) as Lacc
    by (subst sb; destruct st; simpl; by rewrite app_nil_r).
  clearbody sb.
  chain_step c s1. advance sb s1 K. clearbody c s1. clear K.
  chain_step u s2. advance s1 s2 K. clearbody u s2. clear K.
  unfold ret.
  match goal with
  | T : memo_tables s2 = _, L : s_added_clauses s2 = _,
    K : objects_kept st s2 |- _ =>
    unfold memo_tables in T; injection T as Hvs Hqr Hoe;
    rename L into Hlog; rename K into Hkept
  end.
  split_and!; try done.
  exists c. split.
  - by rewrite Hlog, app_nil_r.
  - intros Hwf. destruct (Hkept Hwf) as [Hwf' _]. split; auto.
Qed.

Lemma mk_op_term_hit op p q st v :
  m_dedup_op_constraint_expr st !! (op, p, q) = Some v →
  mk_op_term op p q st = (mk_var v, st).
Proof.
  intros Hhit. unfold mk_op_term, bind, gets. by rewrite Hhit.
Qed.
(** *** The memo tables only grow *)

#[local] Instance memo_mono_preorder : PreOrder (memo_mono : relation state_t).
Proof.
  split.
  - intros st. split; reflexivity.
  - intros st1 st2 st3 [? ?] [? ?]. split; etrans; done.
Qed.

Lemma memo_mono_ext st st' :
  m_dedup_quot_rem_expr st' = m_dedup_quot_rem_expr st →
  m_dedup_op_constraint_expr st' = m_dedup_op_constraint_expr st →
  memo_mono st st'.
Proof. intros Hq Ho. unfold memo_mono. by rewrite Hq, Ho. Qed.

Lemma memo_mono_quot_rem a b :
  respects (memo_mono : relation state_t) (quot_rem a b).
Proof.
  intros st.
  destruct (is_zero b) eqn:Hz;
    [unfold quot_rem; rewrite Hz; reflexivity|].
  destruct (is_one b) eqn:Ho;
    [unfold quot_rem; rewrite Hz, Ho; reflexivity|].
  destruct (is_val a && is_val b) eqn:Hv;
    [unfold quot_rem; rewrite Hz, Ho, Hv; reflexivity|].
  destruct (m_dedup_quot_rem_expr st !! (a, b)) as [[vq vr]|] eqn:Hm.
  - rewrite (quot_rem_hit a b st vq vr) by done. reflexivity.
  - pose proof (quot_rem_miss a b st Hz Ho Hv Hm) as Hqr.
    destruct (quot_rem a b st) as [res st'].
    destruct Hqr as (_ & _ & Hq & Hop & _). split; simpl.
    + rewrite Hq. by apply insert_subseteq.
    + by rewrite Hop.
Qed.

Lemma memo_mono_mk_op_term op p q :
  respects (memo_mono : relation state_t) (mk_op_term op p q).
Proof.
  intros st.
  destruct (m_dedup_op_constraint_expr st !! (op, p, q)) as [v|] eqn:Hm.
  - rewrite (mk_op_term_hit op p q st v) by done. reflexivity.
  - pose proof (mk_op_term_miss op p q st Hm) as Hop.
    destruct (mk_op_term op p q st) as [res st'].
    destruct Hop as (_ & _ & Hop & Hq & _). split; simpl.
    + by rewrite Hq.
    + rewrite Hop. by apply insert_subseteq.
Qed.
End memo_proofs.

#[global] Hint Extern 1 (Free _ memo_mono) =>
  (let st := fresh "st" in intros ? st; apply memo_mono_ext; by destruct st)
  : typeclass_instances.

Section memo_theorem.
Context `{SE : SearchEngine trail} `{PO : PddOps pdd} `{US : UleSimplify pdd}.
Context `{!PddLaws pdd}.

Local Abbreviation state_t := (state (trail:=trail) (pdd:=pdd)).
Implicit Types (st : state_t) (a b p q : pdd).

#[local] Existing Instance memo_mono_preorder.

Lemma memo_mono_run rs st : memo_mono st (run rs st).
Proof.
  apply (respects_run memo_mono rs). intros r _.
  apply respects_run_request_with;
    first [ apply memo_mono_quot_rem | apply memo_mono_mk_op_term
          | apply intern_ok_of_free; tc_solve
          | apply set_bvar_ok_of_free; tc_solve
          | apply dealloc_ok_of_free; tc_solve
          | tc_solve ].
Qed.

(** Once a pair is memoized, every later call returns its variables and
    changes nothing. *)
Lemma quot_rem_again a b st :
  is_zero b = false → is_one b = false → is_val a && is_val b = false →
  let '(res, st1) := quot_rem a b st in
  ∀ rs, let st2 := run rs st1 in quot_rem a b st2 = (res, st2).
Proof.
  intros Hz Ho Hv.
  destruct (m_dedup_quot_rem_expr st !! (a, b)) as [[vq vr]|] eqn:Hm.
  - rewrite (quot_rem_hit a b st vq vr) by done. intros rs st2.
    apply quot_rem_hit; try done.
    eapply lookup_weaken; [done|]. apply (memo_mono_run rs st).
  - pose proof (quot_rem_miss a b st Hz Ho Hv Hm) as Hqr.
    destruct (quot_rem a b st) as [res st1].
    destruct Hqr as (-> & _ & Hq & _). intros rs st2.
    apply quot_rem_hit; try done.
    eapply lookup_weaken; [|apply (memo_mono_run rs st1)].
    by rewrite Hq, lookup_insert_eq, !var_mk_var.
Qed.

Lemma mk_op_term_again op p q st :
  let '(res, st1) := mk_op_term op p q st in
  ∀ rs, let st2 := run rs st1 in mk_op_term op p q st2 = (res, st2).
Proof.
  destruct (m_dedup_op_constraint_expr st !! (op, p, q)) as [v|] eqn:Hm.
  - rewrite (mk_op_term_hit op p q st v) by done. intros rs st2.
    apply mk_op_term_hit.
    eapply lookup_weaken; [done|]. apply (memo_mono_run rs st).
  - pose proof (mk_op_term_miss op p q st Hm) as Hop.
    destruct (mk_op_term op p q st) as [res st1].
    destruct Hop as (-> & _ & Hop & _). intros rs st2.
    apply mk_op_term_hit.
    eapply lookup_weaken; [|apply (memo_mono_run rs st1)].
    by rewrite Hop, lookup_insert_eq, var_mk_var.
Qed.

(** C7: on the non-constant path, the first [quot_rem a b] allocates two
    fresh variables q and r, records them under (a, b) and emits five
    clauses, in this order: [b*q + r - a = 0]; the negation of
    [umul_ovfl b q]; [b*q <= -r - 1]; [b = 0 \/ r < b]; and
    [~(b = 0) \/ q + 1 = 0], whose first literal negates the constraint
    of the fourth clause.  In a well-formed state each literal is a live
    constraint with the key and the polarity of the builder call it comes
    from.  Every call with the same (a, b) made later, after any other
    calls, returns the same variables and leaves the state as it is, so
    it emits no clause.  [mk_op_term] does the same with one variable and
    the one clause of the operation constraint on p, q and the new
    variable, per (operation, operands). *)
Theorem term_builders_memoize a b op p q st :
  (is_zero b = false → is_one b = false → is_val a && is_val b = false →
   (m_dedup_quot_rem_expr st !! (a, b) = None →
    let vq := length (s_vars st) in
    let vr := S vq in
    let '(res, st') := quot_rem a b st in
    res = (mk_var vq, mk_var vr) ∧
    s_vars st' = s_vars st ++ [power_of_2; power_of_2] ∧
    m_dedup_quot_rem_expr st' =
      <[(a, b) := (vq, vr)]> (m_dedup_quot_rem_expr st) ∧
    ∃ c1 c2 c3 c4 c5 c7,
      s_added_clauses st' =
        s_added_clauses st ++
          [([c1], false); ([sc_neg c2], false); ([c3], false);
           ([c4; c5], false); ([sc_neg c4; c7], false)] ∧
      (wf st →
       wf st' ∧
       atom_of st' c1 =
         Some (eq_atom (b * mk_var vq + mk_var vr - a)%pdd) ∧
       atom_of st' c2 = Some (umul_ovfl_atom b (mk_var vq)) ∧
       atom_of st' c3 =
         Some (ule_atom (b * mk_var vq)%pdd
                        (- mk_var vr - mk_val 1)%pdd) ∧
       atom_of st' c4 = Some (eq_atom b) ∧
       atom_of st' c5 = Some (ult_atom (mk_var vr) b) ∧
       atom_of st' c7 = Some (eq_atom (mk_var vq + mk_val 1)%pdd))) ∧
   (let '(res, st1) := quot_rem a b st in
    ∀ rs, let st2 := run rs st1 in quot_rem a b st2 = (res, st2))) ∧
  ((m_dedup_op_constraint_expr st !! (op, p, q) = None →
    let v := length (s_vars st) in
    let '(res, st') := mk_op_term op p q st in
    res = mk_var v ∧
    s_vars st' = s_vars st ++ [power_of_2] ∧
    m_dedup_op_constraint_expr st' =
      <[(op, p, q) := v]> (m_dedup_op_constraint_expr st) ∧
    ∃ c, s_added_clauses st' = s_added_clauses st ++ [([c], false)] ∧
         (wf st →
          wf st' ∧ atom_of st' c = Some (op_atom op p q (mk_var v)))) ∧
   (let '(res, st1) := mk_op_term op p q st in
    ∀ rs, let st2 := run rs st1 in mk_op_term op p q st2 = (res, st2))).
Proof.
  split; [intros Hz Ho Hv|]; split.
  - intros Hm vq vr. pose proof (quot_rem_miss a b st Hz Ho Hv Hm) as Hqr.
    simpl in Hqr. fold vq in Hqr. fold vr in Hqr.
    destruct (quot_rem a b st) as [res st'].
    rewrite !var_mk_var in Hqr.
    destruct Hqr as (Hres & Hvs & Hq & _ & c1 & c2 & c3 & c4 & c5 & c7 &
                     Hlog & Hat).
    split_and!; [done..|]. by exists c1, c2, c3, c4, c5, c7.
  - by apply quot_rem_again.
  - intros Hm v. pose proof (mk_op_term_miss op p q st Hm) as Hop.
    simpl in Hop. fold v in Hop.
    destruct (mk_op_term op p q st) as [res st'].
    rewrite var_mk_var in Hop.
    destruct Hop as (Hres & Hvs & Hoe & _ & c & Hlog & Hat).
    split_and!; [done..|]. by exists c.
  - apply mk_op_term_again.
Qed.
End memo_theorem.

(** ** The sweep of gc_constraints stops by itself *)

Section gc_fuel.
Context `{SE : SearchEngine trail} `{PO : PddOps pdd} `{US : UleSimplify pdd}.

Local Abbreviation state_t := (state (trail:=trail) (pdd:=pdd)).
Implicit Types (st : state_t).

Lemma erase_bvar_m_constraints c st :
  m_constraints (erase_bvar c st).2 = m_constraints st.
Proof.
  assert (respects (same (m_constraints : state_t → _)) (erase_bvar c))
    as Hsame.
  { apply respects_erase_bvar.
    all: first [apply set_bvar_ok_of_free; tc_solve | tc_solve]. }
  apply (Hsame st).
Qed.

(** The state after the erasing branch of the sweep. *)
Lemma gc_erase_m_constraints c i st :
  m_constraints
    (exec (erase_bvar c ;;
           modify (upd_m_constraints (λ cs,
             take (pred (length (m_constraints st)))
               (<[pred (length (m_constraints st)) := cs !!! i]>
                  (<[i := cs !!! pred (length (m_constraints st))]> cs)))) ;;
           dealloc c) st)
  = take (pred (length (m_constraints st)))
      (<[pred (length (m_constraints st)) := m_constraints st !!! i]>
         (<[i := m_constraints st !!! pred (length (m_constraints st))]>
            (m_constraints st))).
Proof.
  unfold exec, bind.
  pose proof (erase_bvar_m_constraints c st) as He.
  destruct (erase_bvar c st) as [[] st1]. simpl in He. rewrite <-He.
  unfold dealloc. by destruct st1.
Qed.

(** One iteration of the sweep. *)
Lemma gc_constraints_loop_S fuel used i st :
  gc_constraints_loop (S fuel) used i st =
    match m_constraints st !! i with
    | None => ((), st)
    | Some c =>
      if match bvar_of st c with
         | Some v => bool_decide (v ∈ used)
         | None => false
         end
      then gc_constraints_loop fuel used (S i) st
      else if default false (m_external <$> constraint_heap st !! c)
      then gc_constraints_loop fuel used (S i) st
      else
        gc_constraints_loop fuel used i
          (exec (erase_bvar c ;;
                 modify (upd_m_constraints (λ cs,
                   take (pred (length (m_constraints st)))
                     (<[pred (length (m_constraints st)) := cs !!! i]>
                        (<[i := cs !!! pred (length (m_constraints st))]>
                           cs)))) ;;
                 dealloc c) st)
    end.
Proof.
  cbn [gc_constraints_loop]. unfold is_external.
  unfold bind at 1. unfold gets at 1. cbv beta iota.
  destruct (m_constraints st !! i) as [c|]; [|done].
  unfold bind at 1. unfold gets at 1. cbv beta iota.
  unfold bind at 1. unfold gets at 1. cbv beta iota.
  destruct (match bvar_of st c with
            | Some v => bool_decide (v ∈ used)
            | None => false
            end); [done|].
  destruct (default false (m_external <$> constraint_heap st !! c)); [done|].
  unfold exec, bind.
  by destruct (erase_bvar c st) as [[] st1].
Qed.

(** With [length m_constraints - i] iterations left to run, the sweep from
    index [i] ends on its own loop test: more iterations change nothing. *)
Lemma gc_constraints_loop_fuel used fuel : ∀ extra i st,
  length (m_constraints st) - i ≤ fuel →
  gc_constraints_loop (fuel + extra) used i st =
    gc_constraints_loop fuel used i st.
Proof.
  induction fuel as [|fuel IH]; intros extra i st Hlen.
  - destruct extra as [|extra]; [done|].
    cbn [Nat.add]. rewrite gc_constraints_loop_S.
    by rewrite lookup_ge_None_2 by lia.
  - cbn [Nat.add]. rewrite !gc_constraints_loop_S.
    destruct (m_constraints st !! i) as [c|] eqn:Hi; [|done].
    apply lookup_lt_Some in Hi as Hlt.
    repeat case_match; try (apply IH; lia);
      (apply IH; rewrite gc_erase_m_constraints;
       rewrite length_take, !length_insert; lia).
Qed.

(** In particular gc_constraints runs its loop to the end. *)
Lemma gc_constraints_complete extra st :
  gc_constraints_loop (length (m_constraints st) + extra) (used_vars st) 0 st
  = gc_constraints st.
Proof.
  unfold gc_constraints, bind, gets.
  apply gc_constraints_loop_fuel. lia.
Qed.
End gc_fuel.

(** ** Watch registration and release *)

Section watch_proofs.
Context `{SE : SearchEngine trail} `{PO : PddOps pdd} `{US : UleSimplify pdd}.

Local Abbreviation state_t := (state (trail:=trail) (pdd:=pdd)).
Implicit Types (st : state_t) (cl : clause_ptr).

Lemma watch_s_watch cl st c :
  clause_heap st !! cl = Some c → 1 < length (lits c) →
  let ls' := normalize_watch (s_trail st) (lits c) in
  let st1 := exec (watch cl false) st in
  clause_lits st1 cl = ls' ∧
  s_watch st1 =
    alter (λ l, l ++ [cl]) (ls' !!! 1)
      (alter (λ l, l ++ [cl]) (ls' !!! 0) (s_watch st)).
Proof.
  intros Hc Hlen ls' st1. subst ls' st1.
  destruct st as [tr w nb vs ac h n ch bv cs cls tbl qr oe].
  state_cbv in Hc.
  unfold watch, clause_lits. state_cbv. rewrite Hc.
  cbn [fmap option_fmap option_map default id].
  rewrite bool_decide_eq_false_2
    by (intros Hnil; rewrite Hnil in Hlen; simpl in Hlen; lia).
  rewrite bool_decide_eq_false_2 by lia.
  unfold watch_general, set_clause_lits, watch_push_back, clause_lits.
  state_cbv. rewrite Hc. cbn [fmap option_fmap option_map default id].
  rewrite !(lookup_alter_eq (M:=gmap nat)), Hc.
  cbn [fmap option_fmap option_map default id lits].
  repeat match goal with
         | |- context [is_true ?s ?l] => destruct (is_true s l)
         | |- context [is_false ?s ?l] => destruct (is_false s l)
         end;
    state_cbv; rewrite ?(lookup_alter_eq (M:=gmap nat)), ?Hc;
    cbn [fmap option_fmap option_map default id lits]; done.
Qed.

Lemma unwatch_s_watch cl st :
  1 < length (clause_lits st cl) →
  s_watch (exec (unwatch cl) st) =
    alter (vector_erase cl) (lit_neg (clause_lits st cl !!! 1))
      (alter (vector_erase cl) (lit_neg (clause_lits st cl !!! 0))
         (s_watch st)).
Proof.
  intros Hlen. unfold exec, unwatch, bind, gets.
  rewrite bool_decide_eq_false_2 by lia.
  unfold watch_erase. by destruct st.
Qed.

Lemma unwatch_small cl st :
  length (clause_lits st cl) ≤ 1 → unwatch cl st = ((), st).
Proof.
  intros Hlen. unfold unwatch, bind, gets.
  by rewrite bool_decide_eq_true_2 by lia.
Qed.

Lemma lit_neg_ne lit : lit ≠ lit_neg lit.
Proof. destruct lit as [v []]; by intros [=]. Qed.

Lemma lit_neg_involutive lit : lit_neg (lit_neg lit) = lit.
Proof. destruct lit as [v []]; done. Qed.

(** Whatever the clause, as long as its two watched literals are not
    complementary, [unwatch] after [watch] leaves the clause in the watch
    lists [watch] put it in. *)
Lemma watch_unwatch_still_watched cl st c :
  clause_heap st !! cl = Some c → 1 < length (lits c) →
  let ls' := normalize_watch (s_trail st) (lits c) in
  ls' !!! 0 ≠ lit_neg (ls' !!! 1) →
  let st2 := exec (unwatch cl) (exec (watch cl false) st) in
  cl ∈ s_watch st2 (ls' !!! 0) ∧ cl ∈ s_watch st2 (ls' !!! 1).
Proof.
  intros Hc Hlen ls' Hcompl st2. subst st2.
  destruct (watch_s_watch cl st c Hc Hlen) as [Hls Hw]. fold ls' in Hls, Hw.
  assert (length ls' = length (lits c)) as Hlen'
    by (by apply normalize_watch_length).
  rewrite unwatch_s_watch by (rewrite Hls; lia).
  rewrite Hls, Hw.
  assert (ls' !!! 1 ≠ lit_neg (ls' !!! 0)) as Hcompl'.
  { intros Heq. apply Hcompl. by rewrite Heq, lit_neg_involutive. }
  pose proof (lit_neg_ne (ls' !!! 0)). pose proof (lit_neg_ne (ls' !!! 1)).
  split.
  - rewrite !fn_lookup_alter_ne by done.
    destruct (decide (ls' !!! 1 = ls' !!! 0)) as [Heq|Hne].
    + rewrite Heq, fn_lookup_alter. set_solver.
    + rewrite fn_lookup_alter_ne, fn_lookup_alter by done. set_solver.
  - rewrite !fn_lookup_alter_ne by done.
    rewrite fn_lookup_alter. set_solver.
Qed.
End watch_proofs.


Section watch_examples.
Import example.
#[local] Existing Instances simple_trail.engine ops4 simp4.

(** C6: on the clause x ∨ y over an empty trail, [watch] registers the
    clause in the watch lists of x and y, and the following [unwatch],
    which erases from the lists of ¬x and ¬y, leaves both registrations in
    place: the watch lists are not back to what they were. *)
Theorem watch_unwatch_leaves_clause_watched :
  let st1 := exec (watch cl_xy false) st_xy in
  let st2 := exec (unwatch cl_xy) st1 in
  clause_lits st1 cl_xy = [lit_x; lit_y] ∧
  (s_watch st_xy lit_x = [] ∧ s_watch st_xy lit_y = []) ∧
  (s_watch st1 lit_x = [cl_xy] ∧ s_watch st1 lit_y = [cl_xy]) ∧
  (s_watch st2 lit_x = [cl_xy] ∧ s_watch st2 lit_y = [cl_xy]).
Proof.
  vm_compute.
  split_and!; reflexivity.
Qed.

(** C5: the clause x ∨ y is stored (hence filed at level 0 and watched)
    and level 0 is released.  Every assertion of release_level holds, the
    bucket is cleared and the clause destroyed, and yet the clause is still
    in the watch lists of x and y. *)
Theorem release_level_leaves_clause_watched :
  let st1 := exec (store_clause cl_xy false) st_xy in
  let '(asserts_ok, st2) := release_level 0 st1 in
  m_clauses st1 = [[cl_xy]] ∧
  asserts_ok = true ∧
  m_clauses st2 = [[]] ∧
  clause_heap st2 !! cl_xy = None ∧
  s_watch st2 lit_x = [cl_xy] ∧ s_watch st2 lit_y = [cl_xy].
Proof.
  vm_compute.
  split_and!; reflexivity.
Qed.

(** normalize_watch on y ∨ x ∨ z, where y is false at level 3, z is false
    at level 7 and x is unassigned: x and z come to the front. *)
Example normalize_watch_yxz :
  normalize_watch trail_yz lits_yxz = [lit_x; lit_z; lit_y].
Proof. vm_compute. split_and?; reflexivity. Qed.

(** Width 4: 5 divided by 3 and by 0. *)
Example quot_rem_5_3 :
  eval (quot_rem (mk_val 5) (mk_val 3)) st0 = (mk_val 1, mk_val 2).
Proof. vm_compute. split_and?; reflexivity. Qed.

Example quot_rem_5_0 :
  eval (quot_rem (mk_val 5) (mk_val 0)) st0 = (mk_val 15, mk_val 5).
Proof. vm_compute. split_and?; reflexivity. Qed.

(** Two requests for the same comparison: one instance, one variable. *)
Example ule_twice_same :
  let '(sc1, st1) := ule var_a var_b st0 in
  let '(sc2, st2) := ule var_a var_b st1 in
  sc1 = {| sc_constraint := Some 0; sc_positive := true |} ∧
  sc2 = sc1 ∧
  bvar_of st1 0 = Some 0 ∧ bvar_of st2 0 = Some 0 ∧
  s_num_bvars st2 = 1.
Proof. vm_compute. split_and?; reflexivity. Qed.
End watch_examples.

(** ** More on normalize_watch and on the scan for a unit literal *)

Section normalize_watch_more.
Context `{SearchEngine trail}.
Variable s : trail.

Local Abbreviation wl := (get_watch_level s).

Lemma normalize_watch_perm (cl : list literal) :
  1 < length cl → normalize_watch s cl ≡ₚ cl.
Proof.
  intros Hlen. unfold normalize_watch.
  rewrite normalize_watch_loop_perm.
  - by apply normalize_watch_init_perm.
  - lia.
  - destruct (normalize_watch_init_inv s cl Hlen) as [-> _]. lia.
Qed.

(** An iteration that finds the invariant already extended to its own
    position changes nothing. *)
Lemma normalize_watch_step_fixed n st i :
  2 ≤ i < n → watch_inv s n st (S i) → normalize_watch_step s st i = st.
Proof.
  destruct st as [[cl lvl0] lvl1].
  intros Hi (Hlen & H0 & H1 & Hord & Hrest); simpl in *.
  unfold normalize_watch_step.
  specialize (Hrest i).
  rewrite decide_False by lia. by rewrite decide_False by lia.
Qed.

Lemma normalize_watch_loop_fixed n k : ∀ st i,
  2 ≤ i → i + k ≤ n → watch_inv s n st n →
  foldl (normalize_watch_step s) st (seq i k) = st.
Proof.
  induction k as [|k IH]; intros st i Hi Hk Hinv; simpl; [done|].
  rewrite normalize_watch_step_fixed with (n := n);
    [apply IH; [lia|lia|done]|lia|].
  destruct Hinv as (?&?&?&?&Hrest). repeat split; try done.
  intros j Hj. apply Hrest. lia.
Qed.

Lemma normalize_watch_fixed (cl : list literal) :
  1 < length cl →
  (wl (cl !!! 1%nat) ≤ wl (cl !!! 0%nat))%Z →
  (∀ i, 2 ≤ i < length cl → (wl (cl !!! i) ≤ wl (cl !!! 1%nat))%Z) →
  normalize_watch s cl = cl.
Proof.
  intros Hlen H01 Hrest. unfold normalize_watch, normalize_watch_init.
  rewrite decide_False by lia.
  rewrite normalize_watch_loop_fixed with (n := length cl); [done|lia|lia|].
  repeat split; simpl; done.
Qed.

(** X1: a clause of size > 1 whose two front literals are already ordered
    by watch level and dominate the rest is left as it is by
    normalize_watch; in particular normalize_watch is idempotent. *)
Theorem normalize_watch_stable (cl : list literal) :
  1 < length cl →
  ((wl (cl !!! 1%nat) ≤ wl (cl !!! 0%nat))%Z →
   (∀ i, 2 ≤ i < length cl → (wl (cl !!! i) ≤ wl (cl !!! 1%nat))%Z) →
   normalize_watch s cl = cl) ∧
  normalize_watch s (normalize_watch s cl) = normalize_watch s cl.
Proof.
  intros Hlen. split; [by apply normalize_watch_fixed|].
  destruct (normalize_watch_inv s cl Hlen) as (Hn & H0 & H1 & Hord & Hrest).
  fold (normalize_watch s cl) in *.
  apply normalize_watch_fixed; [lia|lia|].
  intros i Hi. rewrite <-H1. apply Hrest. lia.
Qed.

(** The scan once an unassigned literal has been seen: it survives only if
    every remaining literal is false. *)
Lemma find_undef_lit_acc ls u l :
  find_undef_lit s ls (Some u) = Some l ↔
  l = u ∧ Forall (λ x, is_false s x = true) ls.
Proof.
  induction ls as [|x ls IH]; simpl.
  - split; [intros [= ->]; by split | intros [-> _]; done].
  - destruct (is_false s x) eqn:Hf.
    + rewrite IH, Forall_cons. by intuition.
    + rewrite Forall_cons. destruct (is_true s x); split; try done;
        intros (_ & ? & _); congruence.
Qed.

(** X2: the first loop of watch under value_propagate ends with a literal
    exactly when that literal is unassigned and every other position of
    the clause holds a false literal: the clause is unit under the current
    assignment.  A true literal, or a second unassigned position, gives
    null. *)
Theorem find_undef_lit_unit ls l :
  find_undef_lit s ls None = Some l ↔
  ∃ pre post, ls = pre ++ l :: post ∧
    Forall (λ x, is_false s x = true) pre ∧
    value s l = l_undef ∧
    Forall (λ x, is_false s x = true) post.
Proof.
  induction ls as [|x ls IH]; simpl.
  - split; [done|]. intros (pre & post & Heq & _). by destruct pre.
  - destruct (is_false s x) eqn:Hf.
    + rewrite IH. split.
      * intros (pre & post & -> & Hpre & Hl & Hpost).
        exists (x :: pre), post. split_and!; try done. by constructor.
      * intros (pre & post & Heq & Hpre & Hl & Hpost).
        destruct pre as [|y pre]; simplify_eq/=.
        -- unfold is_false in Hf. apply bool_decide_eq_true in Hf.
           congruence.
        -- apply Forall_cons in Hpre as [_ Hpre]. by exists pre, post.
    + destruct (is_true s x) eqn:Ht.
      * split; [done|]. intros (pre & post & Heq & Hpre & Hl & Hpost).
        destruct pre as [|y pre]; simplify_eq/=.
        -- unfold is_true in Ht. apply bool_decide_eq_true in Ht.
           congruence.
        -- apply Forall_cons in Hpre as [Hy _]. congruence.
      * rewrite find_undef_lit_acc. split.
        -- intros [-> Hls]. exists [], ls. split_and!; try done.
           unfold is_false, is_true in *.
           apply bool_decide_eq_false in Hf, Ht. by destruct (value s x).
        -- intros (pre & post & Heq & Hpre & Hl & Hpost).
           destruct pre as [|y pre]; simplify_eq/=; [done|].
           apply Forall_cons in Hpre as [Hy _]. congruence.
Qed.
End normalize_watch_more.

(** ** What watch does to the trail, the watch lists and the storage *)

Section watch_more.
Context `{SE : SearchEngine trail} `{PO : PddOps pdd} `{US : UleSimplify pdd}.

Local Abbreviation state_t := (state (trail:=trail) (pdd:=pdd)).
Implicit Types (st : state_t) (cl : clause_ptr) (s : trail).

(** *** The decision taken by watch *)

Lemma watch_general_trail cl st c :
  clause_heap st !! cl = Some c → 1 < length (lits c) →
  let s := s_trail st in
  let ls' := normalize_watch s (lits c) in
  s_trail (exec (watch cl false) st) =
    if is_true s (ls' !!! 0) then s
    else if negb (is_false s (ls' !!! 1)) then s
    else if is_false s (ls' !!! 0) then set_conflict_clause cl s
    else assign_propagate (ls' !!! 0) cl s.
Proof.
  intros Hc Hlen s ls'. subst s ls'.
  destruct st as [tr w nb vs ac h n ch bv cs cls tbl qr oe].
  state_cbv in Hc.
  unfold watch, clause_lits. state_cbv. rewrite Hc.
  cbn [fmap option_fmap option_map default id].
  rewrite bool_decide_eq_false_2
    by (intros Hnil; rewrite Hnil in Hlen; simpl in Hlen; lia).
  rewrite bool_decide_eq_false_2 by lia.
  unfold watch_general, set_clause_lits, watch_push_back, clause_lits.
  state_cbv. rewrite Hc. cbn [fmap option_fmap option_map default id].
  rewrite !(lookup_alter_eq (M:=gmap nat)), Hc.
  cbn [fmap option_fmap option_map default id lits].
  repeat match goal with
         | |- context [is_true ?s ?l] => destruct (is_true s l)
         | |- context [is_false ?s ?l] => destruct (is_false s l)
         end;
    state_cbv; done.
Qed.

Lemma watch_unit_state cl st c l :
  clause_heap st !! cl = Some c → lits c = [l] →
  let s := s_trail st in
  exec (watch cl false) st =
    upd_s_trail (λ _,
      if is_false s l then set_conflict_clause cl s
      else if negb (is_assigned s l) then assign_propagate l cl s
      else s) st.
Proof.
  intros Hc Hl s. subst s.
  destruct st as [tr w nb vs ac h n ch bv cs cls tbl qr oe].
  state_cbv in Hc.
  unfold watch, clause_lits. state_cbv. rewrite Hc.
  cbn [fmap option_fmap option_map default id]. rewrite Hl.
  rewrite bool_decide_eq_false_2 by done.
  rewrite bool_decide_eq_true_2 by done.
  unfold watch_unit. state_cbv.
  cbn [lookup_total list_lookup_total].
  destruct (is_false tr l); [done|].
  by destruct (is_assigned tr l).
Qed.

Lemma watch_level_true s l :
  is_true s l = true → get_watch_level s l = UINT_MAX.
Proof.
  unfold is_true, get_watch_level. intros Ht%bool_decide_eq_true. by rewrite Ht.
Qed.

Lemma watch_level_non_false s l :
  is_false s l = false → (UINT_MAX - 1 ≤ get_watch_level s l)%Z.
Proof.
  unfold is_false, get_watch_level. intros Hf%bool_decide_eq_false.
  destruct (value s l); [done| |]; unfold UINT_MAX; lia.
Qed.

Lemma watch_level_not_true s l :
  is_true s l = false → is_false s l = false →
  get_watch_level s l = (UINT_MAX - 1)%Z.
Proof.
  unfold is_true, is_false, get_watch_level.
  intros Ht%bool_decide_eq_false Hf%bool_decide_eq_false.
  by destruct (value s l).
Qed.

Lemma watch_level_false s l :
  is_false s l = true → get_watch_level s l = level s l ∧ value s l = l_false.
Proof.
  unfold is_false, get_watch_level. intros Hf%bool_decide_eq_true.
  by rewrite Hf.
Qed.

Lemma is_true_not_false s l : is_true s l = true → is_false s l = false.
Proof.
  unfold is_true, is_false. intros Ht%bool_decide_eq_true.
  apply bool_decide_eq_false. congruence.
Qed.

(** Matching on a list known up to the order of its elements. *)
Lemma match_list_perm {A B} (l l' : list A) (x0 : B) (x1 : A → B) (x2 : B) :
  l ≡ₚ l' →
  match l' with [] => x0 | [a] => x1 a | _ => x2 end =
  match l with [] => x0 | [a] => x1 a | _ => x2 end.
Proof.
  intros Hp. destruct l' as [|a [|b r]].
  - by apply Permutation_nil_r in Hp as ->.
  - by apply Permutation_singleton_r in Hp as ->.
  - apply Permutation_length in Hp. by destruct l as [|? [|? ?]].
Qed.

Lemma filter_nil_Forall {A} (P : A → Prop) `{∀ x, Decision (P x)} l :
  Forall (λ x, ¬ P x) l → filter P l = [].
Proof.
  induction 1 as [|x l Hx _ IH]; [done|]. by rewrite filter_cons_False.
Qed.

(** X3: watch without value propagation, on a non-empty clause, does unit
    propagation.  Provided the levels of false literals stay below the two
    sentinel levels, the trail it leaves depends on the literals that are
    not false only: none, and the clause is reported as a conflict; exactly
    one, and it is propagated unless it is already true; two or more, and
    the trail is left alone. *)
Theorem watch_unit_propagation cl st c :
  clause_heap st !! cl = Some c → lits c ≠ [] →
  let s := s_trail st in
  (∀ l, l ∈ lits c → value s l = l_false → (level s l < UINT_MAX - 1)%Z) →
  s_trail (exec (watch cl false) st) =
    match filter (λ l, is_false s l = false) (lits c) with
    | [] => set_conflict_clause cl s
    | [l] => if is_true s l then s else assign_propagate l cl s
    | _ => s
    end.
Proof.
  intros Hc Hne s Hlvl.
  destruct (lits c) as [|l0 [|l1 ls]] eqn:Hls; [done| |].
  - (* a unit clause *)
    rewrite (watch_unit_state cl st c l0 Hc Hls). fold s.
    destruct st; simpl. rewrite filter_cons, filter_nil.
    unfold is_false, is_true, is_assigned.
    destruct (value _ l0) eqn:Hv; simpl; by rewrite ?Hv.
  - set (P := λ l, is_false s l = false).
    assert (1 < length (lits c)) as Hlen by (rewrite Hls; simpl; lia).
    rewrite (watch_general_trail cl st c Hc Hlen). fold s.
    pose proof (normalize_watch_perm s (lits c) Hlen) as Hperm.
    destruct (normalize_watch_inv s (lits c) Hlen)
      as (Hn & H0 & H1 & Hord & Hrest).
    fold (normalize_watch s (lits c)) in *.
    rewrite H0, H1 in Hord. setoid_rewrite H1 in Hrest. clear H0 H1.
    rewrite <-Hls.
    pose proof (match_list_perm _ _ (set_conflict_clause cl s)
                  (λ l, if is_true s l then s else assign_propagate l cl s)
                  s (filter_Permutation P _ _ Hperm)) as Hm.
    cbv beta in Hm. rewrite Hm. clear Hm.
    assert (∀ l, l ∈ normalize_watch s (lits c) → is_false s l = true →
              (get_watch_level s l < UINT_MAX - 1)%Z) as Hlvl'.
    { intros l Hl Hf. rewrite Hperm, Hls in Hl.
      apply watch_level_false in Hf as [-> Hf]. by apply Hlvl. }
    destruct (normalize_watch s (lits c)) as [|a [|b rest]] eqn:Hnw;
      simpl in Hn; try lia.
    cbn [lookup_total list_lookup_total] in *.
    assert (Forall (λ x, (get_watch_level s x ≤ get_watch_level s b)%Z) rest)
      as Hrest'.
    { apply Forall_lookup. intros j x Hj. specialize (Hrest (S (S j))).
      rewrite (list_lookup_total_correct (a :: b :: rest) (S (S j)) x Hj)
        in Hrest.
      apply Hrest. apply lookup_lt_Some in Hj. lia. }
    clear Hrest.
    destruct (is_true s a) eqn:Hta.
    { pose proof (is_true_not_false _ _ Hta) as Hfa.
      rewrite filter_cons_True by done.
      destruct (filter P (b :: rest)) as [|? ?]; [by rewrite Hta|done]. }
    destruct (is_false s b) eqn:Hfb; simpl.
    + (* the second watch is false: so is every literal after it *)
      assert (filter P (b :: rest) = []) as Hnil.
      { rewrite filter_cons_False by (unfold P; congruence).
        apply filter_nil_Forall. apply Forall_forall. intros x Hx HP.
        rewrite Forall_forall in Hrest'. specialize (Hrest' x Hx).
        pose proof (watch_level_non_false _ _ HP).
        pose proof (Hlvl' b ltac:(set_solver) Hfb). lia. }
      destruct (is_false s a) eqn:Hfa.
      * by rewrite filter_cons_False, Hnil by (unfold P; congruence).
      * by rewrite filter_cons_True, Hnil, Hta by done.
    + (* two literals that are not false *)
      assert (P a) as HPa.
      { unfold P. destruct (is_false s a) eqn:Hfa; [|done].
        pose proof (watch_level_non_false _ _ Hfb).
        pose proof (Hlvl' a ltac:(set_solver) Hfa). lia. }
      by rewrite !filter_cons_True by done.
Qed.

(** *** Clauses of size at most 1 are not watched *)

#[local] Instance only_trail_preorder :
  PreOrder (only_trail : relation state_t).
Proof.
  split.
  - intros st. unfold only_trail. by destruct st.
  - intros st1 st2 st3 H1 H2. unfold only_trail in *.
    rewrite H2, H1. by destruct st1.
Qed.

#[local] Instance only_trail_free :
  Free upd_s_trail (only_trail : relation state_t).
Proof. intros f st. unfold only_trail. by destruct st. Qed.

Lemma respects_watch_value_propagate R `{!PreOrder R, !Free upd_s_trail R} cl :
  respects (R : relation state_t) (watch_value_propagate cl).
Proof.
  unfold watch_value_propagate.
  apply respects_bind; [done|by apply respects_gets|intros ls].
  apply respects_bind; [done|by apply respects_gets|intros s].
  apply respects_bind; [done| |intros _; by apply respects_eval_literals].
  destruct (find_undef_lit s ls None);
    [by apply respects_free|by apply respects_ret].
Qed.

Lemma respects_watch_unit R `{!PreOrder R, !Free upd_s_trail R} cl l :
  respects (R : relation state_t) (watch_unit cl l).
Proof.
  unfold watch_unit.
  apply respects_bind; [done|by apply respects_gets|intros s].
  destruct (is_false s l); [by apply respects_free|].
  destruct (negb (is_assigned s l));
    [by apply respects_free|by apply respects_ret].
Qed.

(** X4: on a clause with at most one literal, watch (with or without
    value propagation) changes nothing but the trail: the clause enters no
    watch list; on the empty clause it changes nothing at all. *)
Theorem watch_small_clause cl vp st :
  length (clause_lits st cl) ≤ 1 →
  let st' := exec (watch cl vp) st in
  st' = upd_s_trail (λ _, s_trail st') st ∧
  (clause_lits st cl = [] → st' = st).
Proof.
  intros Hlen st'. subst st'. unfold exec, watch, bind, gets.
  case_bool_decide as Hnil.
  { unfold ret. cbn [snd]. split; [by destruct st|done]. }
  split; [|done].
  assert (respects only_trail
            (if vp then watch_value_propagate cl else ret false)) as Hvp.
  { destruct vp; [apply respects_watch_value_propagate
                 | apply respects_ret]; tc_solve. }
  specialize (Hvp st).
  destruct ((if vp then watch_value_propagate cl else ret false) st)
    as [returned st1]. simpl in Hvp.
  destruct returned; [done|].
  rewrite bool_decide_eq_true_2
    by (destruct (clause_lits st cl) as [|? [|? ?]]; simpl in *; done || lia).
  etrans; [apply (respects_watch_unit only_trail); tc_solve|].
  rewrite Hvp. by destruct st.
Qed.

(** *** What store installs *)

Lemma register_clause_state cl st :
  exec (register_clause cl) st =
    upd_m_clauses (alter (λ b, b ++ [cl]) 0)
      (upd_clause_heap (alter add_ref cl)
         (upd_m_clauses (λ m, m ++ replicate (1 - length m) []) st)).
Proof. by destruct st. Qed.

Lemma watch_general_rest cl st c :
  clause_heap st !! cl = Some c → 1 < length (lits c) →
  let st1 := exec (watch cl false) st in
  clause_heap st1 =
    alter (λ c, {| lits := normalize_watch (s_trail st) (lits c);
                   m_ref_count := m_ref_count c |}) cl (clause_heap st) ∧
  m_clauses st1 = m_clauses st.
Proof.
  intros Hc Hlen st1. subst st1.
  destruct st as [tr w nb vs ac h n ch bv cs cls tbl qr oe].
  state_cbv in Hc.
  unfold watch, clause_lits. state_cbv. rewrite Hc.
  cbn [fmap option_fmap option_map default id].
  rewrite bool_decide_eq_false_2
    by (intros Hnil; rewrite Hnil in Hlen; simpl in Hlen; lia).
  rewrite bool_decide_eq_false_2 by lia.
  unfold watch_general, set_clause_lits, watch_push_back, clause_lits.
  state_cbv. rewrite Hc. cbn [fmap option_fmap option_map default id].
  rewrite !(lookup_alter_eq (M:=gmap nat)), Hc.
  cbn [fmap option_fmap option_map default id lits].
  assert (alter (λ c0, {| lits := normalize_watch tr (lits c);
                          m_ref_count := m_ref_count c0 |}) cl ch =
          alter (λ c0, {| lits := normalize_watch tr (lits c0);
                          m_ref_count := m_ref_count c0 |}) cl ch) as Heq.
  { apply map_eq. intros cl'. rewrite !lookup_alter.
    case_decide; [subst cl'|done]. by rewrite Hc. }
  repeat match goal with
         | |- context [is_true ?s ?l] => destruct (is_true s l)
         | |- context [is_false ?s ?l] => destruct (is_false s l)
         end;
    state_cbv; by rewrite Heq.
Qed.

(** X5: store(cl, false) on a clause of size > 1 reorders the literals of
    the clause by normalize_watch (a permutation), appends the clause to the
    watch lists of the two literals now in front and to no other, files it
    at the end of bucket 0 and counts one more reference to it. *)
Theorem store_clause_installs cl st c :
  clause_heap st !! cl = Some c → 1 < length (lits c) →
  let ls' := normalize_watch (s_trail st) (lits c) in
  let st' := exec (store_clause cl false) st in
  clause_lits st' cl = ls' ∧ ls' ≡ₚ lits c ∧
  (∀ lit, s_watch st' lit =
     s_watch st lit ++ (if decide (lit = ls' !!! 0) then [cl] else [])
                    ++ (if decide (lit = ls' !!! 1) then [cl] else [])) ∧
  m_clauses st' !! 0 = Some (default [] (m_clauses st !! 0) ++ [cl]) ∧
  m_ref_count <$> clause_heap st' !! cl = Some (S (m_ref_count c)).
Proof.
  intros Hc Hlen ls' st'.
  set (st_r := exec (register_clause cl) st).
  assert (st' = exec (watch cl false) st_r) as Hst'.
  { subst st' st_r. unfold exec, store_clause, bind.
    by destruct (register_clause cl st) as [[] ?]. }
  assert (clause_heap st_r !! cl = Some (add_ref c)) as Hc_r.
  { subst st_r. rewrite register_clause_state. destruct st; simpl in *.
    by rewrite lookup_alter_eq, Hc. }
  assert (s_trail st_r = s_trail st ∧ s_watch st_r = s_watch st ∧
          m_clauses st_r !! 0 = Some (default [] (m_clauses st !! 0) ++ [cl]))
    as (Htr & Hw & Hm).
  { subst st_r. rewrite register_clause_state. destruct st; simpl.
    split_and!; try done.
    rewrite list_lookup_alter_eq. by destruct m_clauses0. }
  destruct (watch_s_watch cl st_r _ Hc_r Hlen) as [Hls Hws].
  destruct (watch_general_rest cl st_r _ Hc_r Hlen) as [Hch Hmc].
  rewrite <-Hst' in Hls, Hws, Hch, Hmc. rewrite Htr in Hls, Hws, Hch.
  cbn [add_ref lits] in Hls, Hws. fold ls' in Hls, Hws.
  split_and!.
  - done.
  - by apply normalize_watch_perm.
  - intros lit. rewrite Hws, Hw.
    destruct (decide (lit = ls' !!! 0)) as [H0|H0],
             (decide (lit = ls' !!! 1)) as [H1|H1].
    + rewrite <-H1, <-H0, !fn_lookup_alter. by rewrite <-app_assoc.
    + rewrite <-H0, fn_lookup_alter_ne, fn_lookup_alter by done.
      by rewrite app_nil_r.
    + rewrite <-H1, fn_lookup_alter, fn_lookup_alter_ne by done. done.
    + rewrite !fn_lookup_alter_ne by done. by rewrite !app_nil_r.
  - by rewrite Hmc.
  - rewrite Hch, lookup_alter_eq, Hc_r. done.
Qed.
End watch_more.

(** ** The boolean-variable bridge *)

Section bridge.
Context `{SE : SearchEngine trail} `{PO : PddOps pdd} `{US : UleSimplify pdd}.

Local Abbreviation state_t := (state (trail:=trail) (pdd:=pdd)).
Implicit Types (st : state_t) (c : cptr) (bv : bool_var).

(** The state ensure_bvar and erase_bvar leave. *)
Lemma ensure_bvar_state c st :
  exec (ensure_bvar c) st =
    if bool_decide (is_Some (bvar_of st c)) then st
    else upd_m_bv2constraint (insert (s_num_bvars st) c)
           (upd_constraint_heap (alter (with_bvar (Some (s_num_bvars st))) c)
              (upd_s_num_bvars S st)).
Proof.
  destruct st as [tr w nb vs ac h n ch bv cs cls tbl qr oe].
  unfold ensure_bvar, has_bvar, bvar_of. state_cbv.
  case_bool_decide; [done|].
  unfold new_var, assign_bv2c, set_m_bvar. by state_cbv.
Qed.

Lemma erase_bvar_state c st :
  exec (erase_bvar c) st =
    match bvar_of st c with
    | Some bv =>
      upd_constraint_heap (alter (with_bvar None) c)
        (upd_m_bv2constraint (delete bv) st)
    | None => st
    end.
Proof.
  destruct st as [tr w nb vs ac h n ch bv cs cls tbl qr oe].
  unfold erase_bvar, has_bvar, bvar_of. state_cbv.
  destruct (h !! c ≫= m_bvar) as [v|] eqn:Hv.
  - rewrite bool_decide_eq_true_2 by done.
    unfold erase_bv2c, set_m_bvar, bvar_of. state_cbv. by rewrite Hv.
  - by rewrite bool_decide_eq_false_2 by (by intros [? ?]).
Qed.

Lemma bvar_of_alter_with_bvar o c c' (h : gmap cptr (constraint pdd)) :
  alter (with_bvar o) c h !! c' ≫= m_bvar =
    if decide (c = c') then h !! c ≫= (λ _, o) else h !! c' ≫= m_bvar.
Proof.
  rewrite lookup_alter. case_decide as Hc; [subst c'|done].
  by destruct (h !! c).
Qed.

Lemma with_bvar_id (x : constraint pdd) : with_bvar (m_bvar x) x = x.
Proof. by destruct x. Qed.

(** The boolean variable a constraint gets from ensure_bvar. *)
Lemma ensure_bvar_fresh c st :
  live st c → bvar_of st c = None →
  bvar_of (exec (ensure_bvar c) st) c = Some (s_num_bvars st).
Proof.
  intros [x Hx] Hnone. rewrite ensure_bvar_state.
  rewrite bool_decide_eq_false_2 by (rewrite Hnone; by intros [? ?]).
  destruct st as [tr w nb vs ac h n ch b2c cs cls tbl qr oe].
  unfold bvar_of in *. state_cbv. state_cbv in Hx.
  rewrite bvar_of_alter_with_bvar, decide_True by done. by rewrite Hx.
Qed.

(** X6: ensure_bvar on an allocated constraint without boolean variable
    gives it the next variable of the solver, and lookup of that variable
    returns the constraint; no other constraint and no other entry of the
    variable-to-constraint map changes. *)
Theorem ensure_bvar_lookup c st :
  live st c → bvar_of st c = None →
  let bv := s_num_bvars st in
  let st' := exec (ensure_bvar c) st in
  bvar_of st' c = Some bv ∧
  eval (lookup_var bv) st' = Some c ∧
  s_num_bvars st' = S bv ∧
  (∀ c', c' ≠ c → constraint_heap st' !! c' = constraint_heap st !! c') ∧
  (∀ bv', bv' ≠ bv → eval (lookup_var bv') st' = eval (lookup_var bv') st).
Proof.
  intros [x Hx] Hnone bv st'. subst bv st'.
  rewrite ensure_bvar_state.
  rewrite bool_decide_eq_false_2 by (rewrite Hnone; by intros [? ?]).
  destruct st as [tr w nb vs ac h n ch b2c cs cls tbl qr oe].
  unfold bvar_of, lookup_var, get_bv2c in *. state_cbv. state_cbv in Hx.
  split_and!.
  - rewrite bvar_of_alter_with_bvar, decide_True by done. by rewrite Hx.
  - by rewrite lookup_insert_eq.
  - done.
  - intros c' Hc'. by rewrite lookup_alter_ne.
  - intros bv' Hbv'. by rewrite lookup_insert_ne.
Qed.

(** X7: erase_bvar undoes ensure_bvar on the constraint and on the
    variable-to-constraint map, but the boolean variable is not handed
    back: the solver's variable counter stays incremented. *)
Theorem ensure_erase_bvar_roundtrip c st :
  live st c → bvar_of st c = None →
  m_bv2constraint st !! s_num_bvars st = None →
  exec (erase_bvar c) (exec (ensure_bvar c) st) = upd_s_num_bvars S st.
Proof.
  intros [x Hx] Hnone Hfresh.
  pose proof (ensure_bvar_fresh c st (ex_intro _ x Hx) Hnone) as Hbv.
  rewrite erase_bvar_state, Hbv. clear Hbv.
  rewrite ensure_bvar_state.
  rewrite bool_decide_eq_false_2 by (rewrite Hnone; by intros [? ?]).
  destruct st as [tr w nb vs ac h n ch b2c cs cls tbl qr oe].
  unfold bvar_of in *. state_cbv. state_cbv in Hx. state_cbv in Hnone.
  state_cbv in Hfresh.
  rewrite Hx in Hnone. simpl in Hnone.
  f_equal.
  - rewrite alter_alter_eq. apply map_eq. intros c'.
    rewrite lookup_alter. case_decide as Hc; [subst c'|done].
    rewrite Hx. simpl. f_equal. unfold with_bvar; simpl.
    rewrite <-Hnone. by destruct x.
  - by rewrite delete_insert_eq, delete_id.
Qed.

(** X8: ensure_bvar is idempotent on an allocated constraint, and
    erase_bvar is idempotent on every pointer. *)
Theorem bvar_idempotent c st :
  (live st c →
   exec (ensure_bvar c) (exec (ensure_bvar c) st) = exec (ensure_bvar c) st) ∧
  exec (erase_bvar c) (exec (erase_bvar c) st) = exec (erase_bvar c) st.
Proof.
  split.
  - intros [x Hx]. rewrite (ensure_bvar_state c (exec _ _)).
    rewrite bool_decide_eq_true_2; [done|].
    rewrite ensure_bvar_state. case_bool_decide as Hb; [done|].
    destruct st as [tr w nb vs ac h n ch b2c cs cls tbl qr oe].
    unfold bvar_of. state_cbv. state_cbv in Hx.
    rewrite bvar_of_alter_with_bvar, decide_True by done. by rewrite Hx.
  - rewrite (erase_bvar_state c (exec _ _)).
    assert (bvar_of (exec (erase_bvar c) st) c = None) as ->; [|done].
    rewrite erase_bvar_state.
    destruct (bvar_of st c) as [bv|] eqn:Hbv; [|done].
    destruct st as [tr w nb vs ac h n ch b2c cs cls tbl qr oe].
    unfold bvar_of. state_cbv.
    rewrite bvar_of_alter_with_bvar, decide_True by done.
    by destruct (h !! c).
Qed.

(** *** The bridge stays consistent *)

Lemma bridge_wf_ext st st' :
  constraint_heap st' = constraint_heap st →
  m_bv2constraint st' = m_bv2constraint st →
  s_num_bvars st' = s_num_bvars st →
  bridge_wf st → bridge_wf st'.
Proof.
  intros Hh Hb Hn [Hl Hf].
  split; unfold bvar_of; rewrite ?Hh, ?Hb, ?Hn; done.
Qed.

Lemma bridge_wf_init (s : trail) : bridge_wf (init s : state_t).
Proof.
  split.
  - intros c bv. unfold bvar_of. simpl. by rewrite lookup_empty.
  - intros bv. simpl. rewrite lookup_empty. by intros [? ?].
Qed.

Lemma bridge_wf_ensure_bvar c :
  respects (preserving (bridge_wf : state_t → Prop)) (ensure_bvar c).
Proof.
  intros st [Hl Hf]. fold (exec (ensure_bvar c) st).
  rewrite ensure_bvar_state. case_bool_decide as Hb; [done|].
  destruct st as [tr w nb vs ac h n ch b2c cs cls tbl qr oe].
  unfold bvar_of in *. state_cbv in Hl. state_cbv in Hf. state_cbv in Hb.
  split; unfold bvar_of; state_cbv.
  - intros c' bv. rewrite bvar_of_alter_with_bvar.
    case_decide as Hc; [subst c'|].
    + destruct (h !! c); simpl; [|done]. intros [= <-].
      by rewrite lookup_insert_eq.
    + intros Hbv. pose proof (Hl _ _ Hbv) as Hin.
      rewrite lookup_insert_ne; [done|]. intros <-.
      specialize (Hf nb (mk_is_Some _ _ Hin)). lia.
  - intros bv. rewrite lookup_insert_is_Some.
    intros [<-|[_ Hin%Hf]]; lia.
Qed.

Lemma bridge_wf_erase_bvar c :
  respects (preserving (bridge_wf : state_t → Prop)) (erase_bvar c).
Proof.
  intros st [Hl Hf]. fold (exec (erase_bvar c) st).
  rewrite erase_bvar_state.
  destruct (bvar_of st c) as [bv|] eqn:Hbv; [|done].
  destruct st as [tr w nb vs ac h n ch b2c cs cls tbl qr oe].
  unfold bvar_of in *. state_cbv in Hl. state_cbv in Hf. state_cbv in Hbv.
  split; unfold bvar_of; state_cbv.
  - intros c' bv'. rewrite bvar_of_alter_with_bvar.
    case_decide as Hc; [subst c'; by destruct (h !! c)|].
    intros Hbv'. rewrite lookup_delete_ne; [by apply Hl|].
    intros <-. apply Hl in Hbv, Hbv'. congruence.
  - intros bv'. rewrite lookup_delete_is_Some. intros [_ Hin]. by apply Hf.
Qed.

#[global] Instance bridge_wf_dealloc_ok :
  DeallocOk (preserving (bridge_wf : state_t → Prop)).
Proof.
  intros c st [Hl Hf].
  destruct st as [tr w nb vs ac h n ch b2c cs cls tbl qr oe].
  unfold bvar_of in *. state_cbv in Hl. state_cbv in Hf.
  split; unfold dealloc, bvar_of; state_cbv; [|done].
  intros c' bv. rewrite lookup_delete. case_decide; [done|]. apply Hl.
Qed.

#[global] Instance bridge_wf_intern_ok :
  InternOk (preserving (bridge_wf : state_t → Prop)).
Proof.
  intros k st [Hl Hf]. rewrite alloc_dedup.
  destruct st as [tr w nb vs ac h n ch b2c cs cls tbl qr oe].
  unfold bvar_of in *. state_cbv in Hl. state_cbv in Hf. state_cbv.
  destruct (tbl !! k) as [c2|]; unfold hit_state, miss_state; state_cbv;
    (split; unfold bvar_of; state_cbv).
  - intros c' bv. rewrite lookup_delete. case_decide; [done|]. apply Hl.
  - done.
  - intros c' bv. rewrite lookup_insert. case_decide as Hc; [subst c'|].
    + simpl. intros [= <-]. by rewrite lookup_insert_eq.
    + intros Hbv. pose proof (Hl _ _ Hbv) as Hin.
      rewrite lookup_insert_ne; [done|]. intros <-.
      specialize (Hf nb (mk_is_Some _ _ Hin)). lia.
  - intros bv. rewrite lookup_insert_is_Some.
    intros [<-|[_ Hin%Hf]]; lia.
Qed.
End bridge.

#[global] Hint Extern 1 (Free _ (preserving bridge_wf)) =>
  (let st := fresh "st" in
   intros ? st; unfold preserving; apply bridge_wf_ext; by destruct st)
  : typeclass_instances.

(** The sweep of gc, for relations that erase_bvar respects as a whole. *)
Section gc_generic.
Context `{SE : SearchEngine trail} `{PO : PddOps pdd} `{US : UleSimplify pdd}.
Variable R : relation (state (trail:=trail) (pdd:=pdd)).
Context `{!PreOrder R, !Free upd_m_constraints R, !DeallocOk R}.
Hypothesis respects_erase : ∀ c, respects R (erase_bvar c).

Lemma respects_gc_constraints_loop_erase fuel used :
  ∀ i, respects R (gc_constraints_loop fuel used i).
Proof.
  induction fuel as [|fuel IH]; intros i; simpl; [by apply respects_ret|].
  apply respects_bind; [tc_solve|by apply respects_gets|]. intros cs.
  destruct (cs !! i) as [c|]; [|by apply respects_ret].
  apply respects_bind; [tc_solve|by apply respects_gets|]. intros bv.
  apply respects_bind; [tc_solve|by apply respects_gets|]. intros ext.
  destruct (match bv with Some v => bool_decide (v ∈ used) | None => false end);
    [apply IH|].
  destruct ext; [apply IH|].
  apply respects_bind; [tc_solve|apply respects_erase|intros _].
  apply respects_bind; [tc_solve|by apply respects_free|intros _].
  apply respects_bind; [tc_solve|apply dealloc_ok|intros _]. apply IH.
Qed.

Lemma respects_gc_erase : respects R gc.
Proof.
  unfold gc, gc_clauses, gc_constraints.
  apply respects_bind; [tc_solve|by apply respects_ret|intros _].
  apply respects_bind; [tc_solve|by apply respects_gets|intros used].
  apply respects_bind; [tc_solve|by apply respects_gets|intros size].
  apply respects_gc_constraints_loop_erase.
Qed.
End gc_generic.

Section bridge_run.
Context `{SE : SearchEngine trail} `{PO : PddOps pdd} `{US : UleSimplify pdd}.
Local Abbreviation state_t := (state (trail:=trail) (pdd:=pdd)).

Lemma bridge_wf_run_request r :
  respects (preserving (bridge_wf : state_t → Prop)) (run_request r).
Proof.
  destruct (is_builder r) eqn:Hb.
  { apply respects_run_builder; [tc_solve..|done]. }
  destruct r; try discriminate; simpl.
  - apply bridge_wf_ensure_bvar.
  - apply bridge_wf_erase_bvar.
  - apply respects_store_clause; tc_solve.
  - apply respects_bind; [tc_solve| |intros ?; apply respects_ret; tc_solve].
    apply respects_release_level; tc_solve.
  - apply respects_gc_erase; first [tc_solve | apply bridge_wf_erase_bvar].
Qed.

Lemma bridge_wf_run rs (s : trail) : bridge_wf (run rs (init s) : state_t).
Proof.
  apply (respects_run (preserving bridge_wf) rs).
  - intros r _. apply bridge_wf_run_request.
  - apply bridge_wf_init.
Qed.

(** X9: after any sequence of calls on a fresh manager, every constraint
    that has a boolean variable is the one lookup returns for that
    variable, the variable is one the solver has handed out, no two
    constraints share a boolean variable, and lookup of a variable the
    solver has not handed out gives null. *)
Theorem bridge_consistent rs (s : trail) :
  let st : state_t := run rs (init s) in
  (∀ c bv, bvar_of st c = Some bv →
     eval (lookup_var bv) st = Some c ∧ bv < s_num_bvars st) ∧
  (∀ c1 c2 bv,
     bvar_of st c1 = Some bv → bvar_of st c2 = Some bv → c1 = c2) ∧
  (∀ bv, s_num_bvars st ≤ bv → eval (lookup_var bv) st = None).
Proof.
  intros st. destruct (bridge_wf_run rs s) as [Hl Hf]. fold st in Hl, Hf.
  split_and!.
  - intros c bv Hbv. apply Hl in Hbv. split; [done|]. apply Hf. by eexists.
  - intros c1 c2 bv H1%Hl H2%Hl. congruence.
  - intros bv Hbv. apply eq_None_not_Some. intros Hsome%Hf. lia.
Qed.

(** X10: in a well-formed state with a consistent bridge, the signed
    constraint returned by [ule a b] has a boolean variable, and lookup of
    the literal made of that variable and of the constraint's polarity
    gives the signed constraint back. *)
Theorem ule_lookup_roundtrip a b (st : state_t) :
  wf st → bridge_wf st →
  let '(sc, st') := ule a b st in
  ∃ c bv, sc_constraint sc = Some c ∧ bvar_of st' c = Some bv ∧
    eval (lookup_lit {| lit_var := bv; lit_sign := negb (sc_positive sc) |})
         st' = sc.
Proof.
  intros [Hwf Htw] Hbr.
  assert (respects (preserving (bridge_wf : state_t → Prop)) (ule a b)) as Hr
    by (apply respects_ule; tc_solve).
  specialize (Hr st Hbr).
  pose proof (ule_twice a b st Hwf) as Htwice.
  destruct (ule a b st) as [sc st'].
  destruct (ule a b st') as [sc2 st2].
  destruct Htwice as (_ & (c & Hc & _ & Hbv) & _).
  destruct (Hbv Htw) as [bv Hbv']. exists c, bv. split_and!; [done..|].
  simpl in Hr. destruct Hr as [Hl _]. apply Hl in Hbv'.
  unfold eval, lookup_lit, lookup_var, get_bv2c, bind, gets, ret. simpl.
  rewrite Hbv', negb_involutive. destruct sc; simpl in *. by subst.
Qed.
End bridge_run.

(** ** Level-scoped clause storage *)

Section clause_storage.
Context `{SE : SearchEngine trail} `{PO : PddOps pdd} `{US : UleSimplify pdd}.

Local Abbreviation state_t := (state (trail:=trail) (pdd:=pdd)).
Implicit Types (st : state_t) (cl : clause_ptr).

(** X11: register_clause files the clause at the end of bucket 0, whatever
    base level the solver reports, creating the bucket when there is none;
    the other buckets are untouched, the clause gets one more counted
    reference and no clause changes its literals. *)
Theorem register_clause_level0 cl st :
  let st' := exec (register_clause cl) st in
  m_clauses st' !! 0 = Some (default [] (m_clauses st !! 0) ++ [cl]) ∧
  (∀ l, 0 < l → m_clauses st' !! l = m_clauses st !! l) ∧
  m_ref_count <$> clause_heap st' !! cl =
    S <$> (m_ref_count <$> clause_heap st !! cl) ∧
  (∀ cl', clause_lits st' cl' = clause_lits st cl') ∧
  (∀ cl', cl' ≠ cl → clause_heap st' !! cl' = clause_heap st !! cl').
Proof.
  intros st'. subst st'. rewrite register_clause_state.
  destruct st as [tr w nb vs ac h n ch bv cs cls tbl qr oe].
  unfold clause_lits. state_cbv. split_and!.
  - rewrite list_lookup_alter_eq. destruct cls as [|b0 cls]; done.
  - intros l Hl. rewrite list_lookup_alter_ne by lia.
    destruct cls as [|b0 cls]; simpl.
    + destruct l; [lia|done].
    + by rewrite app_nil_r.
  - rewrite lookup_alter_eq. by destruct (ch !! cl).
  - intros cl'. rewrite lookup_alter. case_decide; [subst cl'|done].
    by destruct (ch !! cl).
  - intros cl' Hne. by rewrite lookup_alter_ne.
Qed.

Lemma release_bucket_m_clauses l st :
  m_clauses (exec (release_bucket l) st) = <[l := []]> (m_clauses st).
Proof.
  unfold exec, release_bucket, bind, gets.
  set (cls := m_clauses st !!! l).
  assert (respects (same (m_clauses : state_t → _)) (unwatch_all cls)) as H1
    by (apply respects_unwatch_all; tc_solve).
  assert (respects (same (m_clauses : state_t → _)) (drop_refs cls)) as H2
    by (apply respects_drop_refs; tc_solve).
  specialize (H1 st). destruct (unwatch_all cls st) as [ok st1].
  specialize (H2 st1).
  destruct (drop_refs cls st1) as [[] st2]. unfold same in *. simpl in *.
  rewrite <-H1, <-H2. by destruct st2.
Qed.

Lemma release_buckets_m_clauses ls : ∀ st,
  m_clauses (exec (release_buckets ls) st) =
    foldl (λ m l, <[l := []]> m) (m_clauses st) ls.
Proof.
  induction ls as [|l ls IH]; intros st; [done|].
  cbn [release_buckets foldl]. rewrite <-release_bucket_m_clauses, <-IH.
  unfold exec, bind. destruct (release_bucket l st) as [ok st1]. cbn [snd].
  by destruct (release_buckets ls st1) as [oks st2].
Qed.

Lemma foldl_reset_lookup {A} (ls : list nat) : ∀ (m : list (list A)) l,
  foldl (λ m l, <[l := []]> m) m ls !! l =
    if decide (l ∈ ls ∧ l < length m) then Some [] else m !! l.
Proof.
  induction ls as [|l0 ls IH]; intros m l; cbn [foldl].
  - case_decide as Hl; [|done]. destruct Hl as [Hl _].
    by apply elem_of_nil in Hl.
  - rewrite IH, length_insert.
    destruct (decide (l = l0)) as [->|Hne].
    + destruct (decide (l0 < length m)).
      * rewrite (decide_True (P := l0 ∈ l0 :: ls ∧ _)) by set_solver.
        case_decide; [done|]. by rewrite list_lookup_insert_eq.
      * rewrite !decide_False by (intros [_ ?]; lia).
        by rewrite list_insert_ge by lia.
    + rewrite list_lookup_insert_ne by done.
      repeat case_decide; set_solver.
Qed.

Lemma foldl_reset_length {A} (ls : list nat) : ∀ (m : list (list A)),
  length (foldl (λ m l, <[l := []]> m) m ls) = length m.
Proof.
  induction ls as [|l0 ls IH]; intros m; simpl; [done|].
  by rewrite IH, length_insert.
Qed.

(** X12: release_level(lvl) keeps the number of buckets, empties every
    bucket from lvl upwards and leaves the buckets below lvl as they are;
    when there is no bucket at or above lvl it changes nothing and every
    assertion holds vacuously. *)
Theorem release_level_buckets lvl st :
  let st' := exec (release_level lvl) st in
  length (m_clauses st') = length (m_clauses st) ∧
  (∀ l, lvl ≤ l < length (m_clauses st) → m_clauses st' !! l = Some []) ∧
  (∀ l, l < lvl → m_clauses st' !! l = m_clauses st !! l) ∧
  (length (m_clauses st) ≤ lvl → release_level lvl st = (true, st)).
Proof.
  intros st'.
  assert (m_clauses st' =
          foldl (λ m l, <[l := []]> m) (m_clauses st)
            (reverse (seq lvl (length (m_clauses st) - lvl)))) as Hm.
  { subst st'. rewrite <-release_buckets_m_clauses.
    unfold exec, release_level, bind, gets. done. }
  rewrite Hm. split_and!.
  - apply foldl_reset_length.
  - intros l Hl. rewrite foldl_reset_lookup, decide_True; [done|].
    split; [|lia]. rewrite elem_of_reverse, elem_of_seq. lia.
  - intros l Hl. rewrite foldl_reset_lookup, decide_False; [done|].
    rewrite elem_of_reverse, elem_of_seq. lia.
  - intros Hlen. unfold release_level, bind, gets.
    by replace (length (m_clauses st) - lvl) with 0 by lia.
Qed.
End clause_storage.

(** ** What the sweep of gc keeps and what it frees *)

Section gc_sweep_proofs.
Context `{SE : SearchEngine trail} `{PO : PddOps pdd} `{US : UleSimplify pdd}.

Local Abbreviation state_t := (state (trail:=trail) (pdd:=pdd)).
Implicit Types (st : state_t) (c : cptr) (cs : list cptr).

Lemma swap_pop_length i cs : length (swap_pop i cs) = pred (length cs).
Proof. unfold swap_pop. rewrite length_take, !length_insert. lia. Qed.

Lemma swap_pop_lookup_lt i j cs :
  j < i → i < length cs → swap_pop i cs !! j = cs !! j.
Proof.
  intros Hj Hi. unfold swap_pop.
  rewrite lookup_take_lt by lia.
  by rewrite !list_lookup_insert_ne by lia.
Qed.

Lemma swap_pop_elem_of i c0 c cs :
  cs !! i = Some c0 → c ≠ c0 → c ∈ swap_pop i cs ↔ c ∈ cs.
Proof.
  intros Hi Hne. pose proof (lookup_lt_Some _ _ _ Hi) as Hlt.
  set (last := pred (length cs)).
  assert (cs !!! i = c0) as Hc0 by (by apply list_lookup_total_correct).
  rewrite !list_elem_of_lookup. unfold swap_pop. fold last. split.
  - intros [j Hj]. apply lookup_take_Some in Hj as [Hj Hjl].
    rewrite list_lookup_insert_ne in Hj by lia.
    destruct (decide (j = i)) as [->|Hji].
    + rewrite list_lookup_insert_eq in Hj by lia. injection Hj as <-.
      exists last. apply list_lookup_lookup_total_lt. lia.
    + rewrite list_lookup_insert_ne in Hj by done. by exists j.
  - intros [j Hj]. pose proof (lookup_lt_Some _ _ _ Hj) as Hjlt.
    assert (j ≠ i) as Hji by (intros ->; congruence).
    destruct (decide (j = last)) as [->|Hjl].
    + exists i. assert (i < last) by lia.
      rewrite lookup_take_lt by lia.
      rewrite list_lookup_insert_ne by lia.
      rewrite list_lookup_insert_eq by lia.
      by rewrite (list_lookup_total_correct _ _ _ Hj).
    + exists j. rewrite lookup_take_lt by lia.
      by rewrite !list_lookup_insert_ne by lia.
Qed.

(** The state after the erasing branch of the sweep. *)
Lemma gc_erase_state c i st :
  let st1 :=
    exec (erase_bvar c ;;
          modify (upd_m_constraints (λ cs,
            take (pred (length (m_constraints st)))
              (<[pred (length (m_constraints st)) := cs !!! i]>
                 (<[i := cs !!! pred (length (m_constraints st))]> cs)))) ;;
          dealloc c) st in
  m_constraints st1 = swap_pop i (m_constraints st) ∧
  constraint_heap st1 = delete c (constraint_heap st).
Proof.
  intros st1. split; [apply gc_erase_m_constraints|].
  subst st1. unfold exec, bind.
  pose proof (erase_bvar_state c st) as He. unfold exec in He.
  destruct (erase_bvar c st) as [[] st1]. simpl in He. subst st1.
  unfold dealloc, modify. cbn [snd].
  destruct (bvar_of st c); destruct st; simpl; [|done].
  apply map_eq. intros c'. rewrite !lookup_delete.
  case_decide; [done|]. by rewrite lookup_alter_ne.
Qed.

Lemma gc_kept_None used : gc_kept used (None : option (constraint pdd)) = false.
Proof. done. Qed.

Lemma gc_constraints_loop_spec used fuel : ∀ i st,
  length (m_constraints st) - i ≤ fuel →
  (∀ j x, j < i → m_constraints st !! j = Some x →
     gc_kept used (constraint_heap st !! x) = true) →
  let st' := exec (gc_constraints_loop fuel used i) st in
  (∀ c, c ∈ m_constraints st' ↔
        c ∈ m_constraints st ∧ gc_kept used (constraint_heap st !! c) = true) ∧
  (∀ c, constraint_heap st' !! c =
        if decide (c ∈ m_constraints st ∧
                   gc_kept used (constraint_heap st !! c) = false)
        then None else constraint_heap st !! c).
Proof.
  assert (∀ i st,
    length (m_constraints st) ≤ i →
    (∀ j x, j < i → m_constraints st !! j = Some x →
       gc_kept used (constraint_heap st !! x) = true) →
    (∀ c, c ∈ m_constraints st ↔
          c ∈ m_constraints st ∧
          gc_kept used (constraint_heap st !! c) = true) ∧
    (∀ c, constraint_heap st !! c =
          if decide (c ∈ m_constraints st ∧
                     gc_kept used (constraint_heap st !! c) = false)
          then None else constraint_heap st !! c)) as Hend.
  { intros i st Hlen Hpre.
    assert (∀ c, c ∈ m_constraints st →
              gc_kept used (constraint_heap st !! c) = true) as Hall.
    { intros c [j Hj]%list_elem_of_lookup. apply (Hpre j); [|done].
      apply lookup_lt_Some in Hj. lia. }
    split; intros c.
    - naive_solver.
    - rewrite decide_False; [done|]. intros [Hc Hk]. apply Hall in Hc.
      congruence. }
  induction fuel as [|fuel IH]; intros i st Hlen Hpre st'.
  { apply (Hend i); [lia|done]. }
  subst st'. unfold exec. rewrite gc_constraints_loop_S.
  destruct (m_constraints st !! i) as [c0|] eqn:Hi.
  2:{ apply lookup_ge_None in Hi. by apply (Hend i). }
  pose proof (lookup_lt_Some _ _ _ Hi) as Hlt.
  assert (gc_kept used (constraint_heap st !! c0) =
          (match bvar_of st c0 with
           | Some v => bool_decide (v ∈ used)
           | None => false
           end || default false (m_external <$> constraint_heap st !! c0)))
    as Hk by done.
  destruct (match bvar_of st c0 with
            | Some v => bool_decide (v ∈ used)
            | None => false
            end) eqn:Hused.
  { apply IH; [lia|]. intros j x Hj Hx.
    destruct (decide (j = i)) as [->|]; [|apply (Hpre j); [lia|done]].
    by simplify_eq. }
  destruct (default false (m_external <$> constraint_heap st !! c0)) eqn:Hext.
  { apply IH; [lia|]. intros j x Hj Hx.
    destruct (decide (j = i)) as [->|]; [|apply (Hpre j); [lia|done]].
    by simplify_eq. }
  simpl in Hk.
  destruct (gc_erase_state c0 i st) as [Hm1 Hh1].
  set (st1 := exec _ st) in *.
  assert (∀ c, c ≠ c0 → constraint_heap st1 !! c = constraint_heap st !! c)
    as Hother by (intros c Hc; by rewrite Hh1, lookup_delete_ne).
  assert (constraint_heap st1 !! c0 = None) as Hc0
    by (by rewrite Hh1, lookup_delete_eq).
  destruct (IH i st1) as [Ha Hb].
  { rewrite Hm1, swap_pop_length. lia. }
  { intros j x Hj. rewrite Hm1, swap_pop_lookup_lt by done. intros Hx.
    pose proof (Hpre j x Hj Hx) as Hkx.
    rewrite Hother; [done|]. intros ->. congruence. }
  split; intros c.
  - rewrite Ha, Hm1. destruct (decide (c = c0)) as [->|Hne].
    + rewrite Hc0, gc_kept_None, Hk. naive_solver.
    + by rewrite (swap_pop_elem_of i c0), Hother.
  - rewrite Hb, Hm1. destruct (decide (c = c0)) as [->|Hne].
    + rewrite Hc0. rewrite (decide_True (P := c0 ∈ m_constraints st ∧ _)).
      * by case_decide.
      * split; [by eapply list_elem_of_lookup_2|done].
    + rewrite Hother by done.
      apply decide_ext. by rewrite (swap_pop_elem_of i c0).
Qed.

(** X13: gc keeps exactly the stored constraints that pass its test (the
    boolean variable is used by a stored clause or by the search stack, or
    the constraint is external), with their objects unchanged, and frees
    exactly the stored constraints that fail it; it stores nothing new and
    touches no other constraint object. *)
Theorem gc_sweep st :
  let st' := exec gc st in
  let kept c := gc_kept (used_vars st) (constraint_heap st !! c) in
  (∀ c, c ∈ m_constraints st' ↔ c ∈ m_constraints st ∧ kept c = true) ∧
  (∀ c, constraint_heap st' !! c =
        if decide (c ∈ m_constraints st ∧ kept c = false)
        then None else constraint_heap st !! c).
Proof.
  intros st' kept. subst st' kept.
  unfold exec, gc, gc_clauses, gc_constraints, bind, gets, ret. cbn [snd fst].
  apply (gc_constraints_loop_spec (used_vars st)
           (length (m_constraints st)) 0 st); [lia|]. intros j x Hj. lia.
Qed.
End gc_sweep_proofs.

(** ** gc and the dedup table *)
Section gc_dedup.

Context `{SE : SearchEngine trail} `{PO : PddOps pdd} `{US : UleSimplify pdd}.

Local Abbreviation state_t := (state (trail:=trail) (pdd:=pdd)).
Implicit Types (st : state_t) (c : cptr).

Lemma gc_heap st c :
  constraint_heap (exec gc st) !! c =
    if decide (c ∈ m_constraints st ∧
               gc_kept (used_vars st) (constraint_heap st !! c) = false)
    then None else constraint_heap st !! c.
Proof.
  unfold exec, gc, gc_clauses, gc_constraints, bind, gets, ret. cbn [snd fst].
  apply (gc_constraints_loop_spec (used_vars st)
           (length (m_constraints st)) 0 st); [lia|]. intros j x Hj. lia.
Qed.

Lemma gc_dedup_table st :
  m_dedup_constraints (exec gc st) = m_dedup_constraints st.
Proof.
  assert (respects (same (m_dedup_constraints : state_t → _)) gc) as Hr.
  { apply respects_gc; first [ apply set_bvar_ok_of_free; tc_solve
                             | apply dealloc_ok_of_free; tc_solve
                             | tc_solve ]. }
  apply (Hr st).
Qed.

Lemma used_vars_miss k st : used_vars (miss_state k st) = used_vars st.
Proof. by destruct st. Qed.

(** X26: gc does not clean the dedup table.  A constraint that ule has
    just created and that no clause or trail entry mentions is freed by
    the next gc: it leaves m_constraints and the heap.  The dedup table is
    left as it was, so it still holds the pointer to the freed constraint:
    after gc the table is no longer well-formed. *)
Theorem gc_leaves_dangling_dedup_entry a b st :
  m_dedup_constraints st !! ule_key a b = None →
  s_num_bvars st ∉ used_vars st →
  let '(sc, st1) := ule a b st in
  let st2 := exec gc st1 in
  m_dedup_constraints st2 = m_dedup_constraints st1 ∧
  ¬ table_wf st2 ∧
  ∃ c, sc_constraint sc = Some c ∧
       m_dedup_constraints st1 !! ule_key a b = Some c ∧
       live st1 c ∧ c ∈ m_constraints st1 ∧
       ¬ live st2 c ∧ c ∉ m_constraints st2.
Proof.
  intros Hmiss Hunused. rewrite ule_spec, Hmiss.
  set (k := ule_key a b) in *. set (c := next_cptr st).
  set (st1 := miss_state k st). intros st2.
  assert (constraint_heap st1 !! c =
          Some {| c_kind := k; m_bvar := Some (s_num_bvars st);
                  m_external := false |}) as Hc1.
  { unfold st1. by rewrite miss_state_heap, lookup_insert_eq. }
  assert (c ∈ m_constraints st1) as Hin1.
  { unfold st1, miss_state. destruct st; simpl. set_solver. }
  assert (gc_kept (used_vars st1) (constraint_heap st1 !! c) = false) as Hk.
  { rewrite Hc1. unfold gc_kept. simpl. unfold st1.
    rewrite used_vars_miss, bool_decide_eq_false_2 by done. done. }
  assert (constraint_heap st2 !! c = None) as Hc2.
  { unfold st2. rewrite gc_heap, decide_True; done. }
  assert (m_dedup_constraints st1 !! k = Some c) as Ht1.
  { unfold st1. by rewrite miss_state_table, lookup_insert_eq. }
  assert (m_dedup_constraints st2 !! k = Some c) as Ht2.
  { unfold st2. by rewrite gc_dedup_table. }
  split_and!.
  - apply gc_dedup_table.
  - intros Htw. destruct (Htw _ _ Ht2) as [Hkey _].
    unfold key_of in Hkey. by rewrite Hc2 in Hkey.
  - exists c. split_and!; try done.
    + unfold live. by rewrite Hc1.
    + unfold live. rewrite Hc2. by intros [? ?].
    + unfold st2. intros Hin.
      destruct (gc_constraints_loop_spec (used_vars st1)
                  (length (m_constraints st1)) 0 st1) as [Ha _];
        [lia|intros j x Hj; lia|].
      unfold exec, gc, gc_clauses, gc_constraints, bind, gets, ret in Hin.
      cbn [snd fst] in Hin. apply Ha in Hin as [_ Hkept]. congruence.
Qed.
End gc_dedup.

(** ** What the calls leave alone *)

Section frames.
Context `{SE : SearchEngine trail} `{PO : PddOps pdd} `{US : UleSimplify pdd}.

Local Abbreviation state_t := (state (trail:=trail) (pdd:=pdd)).
Implicit Types (st : state_t).




(** X15: store, release_level and unwatch never touch the constraint
    objects, the bridge, the constraint storage, the dedup and memo tables,
    nor do they create variables or emit clauses. *)
Theorem clause_calls_leave_constraint_side cl vp lvl st :
  constraint_side (exec (store_clause cl vp) st) = constraint_side st ∧
  constraint_side (exec (release_level lvl) st) = constraint_side st ∧
  constraint_side (exec (unwatch cl) st) = constraint_side st.
Proof.
  split_and!.
  - apply (respects_store_clause (same constraint_side)).
  - apply (respects_release_level (same constraint_side)).
  - apply (respects_unwatch (same constraint_side)).
Qed.

(** X16: gc changes the constraint objects, the bridge map and the
    constraint storage only; in particular it removes no entry of the dedup
    table and recycles no boolean variable. *)
Theorem gc_leaves_frame st : gc_frame (exec gc st) = gc_frame st.
Proof.
  assert (SetBvarOk (same (gc_frame : state_t → _)))
    by (apply set_bvar_ok_of_free; tc_solve).
  assert (DeallocOk (same (gc_frame : state_t → _)))
    by (apply dealloc_ok_of_free; tc_solve).
  apply (respects_gc (same gc_frame)).
Qed.
End frames.

(** ** Comparisons and the bit test on values *)

Lemma msb_shift_testbit (K i v : Z) :
  (0 ≤ i < K)%Z →
  (2 ^ (K - 1) ≤ (v * 2 ^ (K - i - 1)) mod 2 ^ K ↔ Z.testbit v i = true)%Z.
Proof.
  intros Hi.
  set (e := (K - i - 1)%Z).
  assert (0 ≤ e)%Z as He by lia.
  assert (0 < 2 ^ e)%Z as Hpe by (apply Z.pow_pos_nonneg; lia).
  assert (0 < 2 ^ i)%Z as Hpi by (apply Z.pow_pos_nonneg; lia).
  replace K with (i + 1 + e)%Z by lia.
  replace (i + 1 + e - 1)%Z with (i + e)%Z by lia.
  rewrite (Z.pow_add_r 2 (i + 1) e), (Z.pow_add_r 2 i e) by lia.
  rewrite Z.mul_mod_distr_r by lia.
  rewrite (Z.pow_add_r 2 i 1), Z.pow_1_r by lia.
  rewrite Z.rem_mul_r by lia.
  rewrite Z.testbit_true by lia.
  pose proof (Z.mod_pos_bound v (2 ^ i) Hpi).
  pose proof (Z.mod_pos_bound (v / 2 ^ i) 2 ltac:(lia)).
  split.
  - intros Hle. apply Z.mul_le_mono_pos_r in Hle; [|done]. nia.
  - intros ->. apply Z.mul_le_mono_nonneg_r; lia.
Qed.

Section bit.
Context `{SE : SearchEngine trail} `{PO : PddOps pdd} `{US : UleSimplify pdd}.
Context `{!PddLaws pdd} `{!UleSimplifySound pdd}.

Local Abbreviation state_t := (state (trail:=trail) (pdd:=pdd)).
Implicit Types (st : state_t) (p : pdd).
Local Abbreviation K := (power_of_2).

Lemma mk_val_mod n : mk_val (n mod 2 ^ K) = mk_val n.
Proof. by rewrite <-val_mk_val, (mk_val_val _ (is_val_mk_val n)). Qed.

Lemma bit_unfold p i :
  (0 ≤ i < K)%Z →
  bit (trail:=trail) p i =
    ule (mk_val (2 ^ (K - 1))) (p * mk_val (2 ^ (K - i - 1)))%pdd.
Proof.
  intros Hi. pose proof power_of_2_range.
  unfold bit, power_of_two, wrap32.
  by rewrite !Z.mod_small by lia.
Qed.

Lemma bit_unfold_out_of_range p i :
  (K ≤ i < 2 ^ 32)%Z →
  bit (trail:=trail) p i = ule (mk_val (2 ^ (K - 1))) (p * mk_val 0)%pdd.
Proof.
  intros Hi. pose proof power_of_2_range as HK.
  unfold bit, power_of_two, wrap32.
  rewrite (Z.mod_small (K - 1)) by lia.
  replace ((K - i - 1) mod 2 ^ 32)%Z with (K - i - 1 + 2 ^ 32)%Z.
  2:{ symmetry. rewrite <-(Z.mod_add _ 1) by lia.
      rewrite Z.mul_1_l. apply Z.mod_small. lia. }
  set (e := (K - i - 1 + 2 ^ 32)%Z).
  assert (K ≤ e)%Z by (unfold e; lia).
  rewrite <-(mk_val_mod (2 ^ e)).
  replace e with ((e - K) + K)%Z by lia.
  rewrite Z.pow_add_r by lia. by rewrite Z.mod_mul by lia.
Qed.

(** X17: for a bit position i below the width K, [bit p i] is the
    comparison 2^(K-1) <= p * 2^(K-i-1); on a value p the right-hand side is
    a value and the comparison holds exactly when bit i of p is set.  For
    K <= i (an unsigned i) the exponent K - i - 1 wraps around, the factor
    vanishes modulo 2^K and the constraint is 2^(K-1) <= p * 0, false on
    every value. *)
Theorem bit_encodes_testbit p i st :
  ((0 ≤ i < K)%Z →
   bit (trail:=trail) p i =
     ule (mk_val (2 ^ (K - 1))) (p * mk_val (2 ^ (K - i - 1)))%pdd ∧
   (is_val p = true →
    is_val (p * mk_val (2 ^ (K - i - 1)))%pdd = true ∧
    ((val (mk_val (2 ^ (K - 1)) : pdd)
        ≤ val (p * mk_val (2 ^ (K - i - 1)))%pdd)%Z ↔
     Z.testbit (val p) i = true) ∧
    (wf st →
     (let '(sc, st') := bit p i st in sc_holds st' sc) =
       Some (Z.testbit (val p) i)))) ∧
  ((K ≤ i < 2 ^ 32)%Z →
   bit (trail:=trail) p i = ule (mk_val (2 ^ (K - 1))) (p * mk_val 0)%pdd ∧
   (is_val p = true →
    val (p * mk_val 0)%pdd = 0%Z ∧
    (wf st →
     (let '(sc, st') := bit p i st in sc_holds st' sc) = Some false))).
Proof.
  pose proof power_of_2_range as HK.
  assert (val (mk_val (2 ^ (K - 1)) : pdd) = 2 ^ (K - 1))%Z as Hmsb.
  { apply val_mk_val_small. split; [apply Z.pow_nonneg; lia|].
    apply Z.pow_lt_mono_r; lia. }
  split; intros Hi.
  - split; [by apply bit_unfold|]. intros Hp.
    assert (is_val (p * mk_val (2 ^ (K - i - 1)))%pdd = true ∧
            val (p * mk_val (2 ^ (K - i - 1)))%pdd =
              ((val p * 2 ^ (K - i - 1)) mod 2 ^ K)%Z) as [Hq Hvq].
    { rewrite <-(mk_val_val p Hp) at 1 2. rewrite mul_mk_val.
      split; [apply is_val_mk_val|apply val_mk_val]. }
    assert ((val (mk_val (2 ^ (K - 1)) : pdd)
               ≤ val (p * mk_val (2 ^ (K - i - 1)))%pdd)%Z ↔
            Z.testbit (val p) i = true) as Hiff.
    { rewrite Hmsb, Hvq. by apply msb_shift_testbit. }
    split_and!; [done|done|]. intros Hwf.
    rewrite bit_unfold by done.
    pose proof (ule_holds _ _ st Hwf (is_val_mk_val (2 ^ (K - 1))) Hq) as Hh.
    destruct (ule _ _ st) as [sc st']. rewrite Hh. f_equal.
    destruct (Z.testbit (val p) i).
    + apply bool_decide_eq_true. by apply Hiff.
    + apply bool_decide_eq_false. rewrite Hiff. done.
  - split; [by apply bit_unfold_out_of_range|]. intros Hp.
    assert (is_val (p * mk_val 0)%pdd = true ∧ val (p * mk_val 0)%pdd = 0%Z)
      as [Hq Hvq].
    { rewrite <-(mk_val_val p Hp). rewrite mul_mk_val, Z.mul_0_r.
      split; [apply is_val_mk_val|]. apply val_mk_val_small.
      pose proof (modulus_pos (pdd:=pdd)). lia. }
    split; [done|]. intros Hwf.
    rewrite bit_unfold_out_of_range by done.
    pose proof (ule_holds _ _ st Hwf (is_val_mk_val (2 ^ (K - 1))) Hq) as Hh.
    destruct (ule _ _ st) as [sc st']. rewrite Hh. f_equal.
    apply bool_decide_eq_false. rewrite Hmsb, Hvq.
    assert (0 < 2 ^ (K - 1))%Z by (apply Z.pow_pos_nonneg; lia). lia.
Qed.
End bit.

Section cmp.
Context `{SE : SearchEngine trail} `{PO : PddOps pdd} `{US : UleSimplify pdd}.
Context `{!PddLaws pdd} `{!UleSimplifySound pdd}.

Local Abbreviation state_t := (state (trail:=trail) (pdd:=pdd)).
Implicit Types (st : state_t) (a b p : pdd).

Lemma sc_holds_neg st sc : sc_holds st (sc_neg sc) = negb <$> sc_holds st sc.
Proof.
  unfold sc_holds, sc_neg. simpl.
  destruct (sc_constraint sc) as [c|]; [simpl|done].
  destruct (key_of st c) as [[lhs rhs| | |]|]; try done. simpl.
  destruct (is_val lhs && is_val rhs); [simpl|done].
  destruct (sc_positive sc); simpl; by rewrite ?negb_involutive.
Qed.

Lemma ult_holds a b st :
  wf st → is_val a = true → is_val b = true →
  let '(sc, st') := ult a b st in
  sc_holds st' sc = Some (bool_decide (val a < val b)%Z).
Proof.
  intros Hwf Ha Hb. unfold ult, bind, ret.
  pose proof (ule_holds b a st Hwf Hb Ha) as Hh.
  destruct (ule b a st) as [sc st']. rewrite sc_holds_neg, Hh. simpl.
  f_equal. case_bool_decide; symmetry.
  - apply bool_decide_eq_false. lia.
  - apply bool_decide_eq_true. lia.
Qed.

(** X18: on values in a well-formed state, the constraint of [ule a b]
    holds exactly when a <= b, that of [ult a b] exactly when a < b, and
    that of [eq a] exactly when a is 0; [ult a b] is the negation of
    [ule b a] and [eq a] is [ule a 0]. *)
Theorem unsigned_comparisons_on_values a b st :
  wf st → is_val a = true → is_val b = true →
  (let '(sc, st') := ule a b st in sc_holds st' sc) =
    Some (bool_decide (val a ≤ val b)%Z) ∧
  (let '(sc, st') := ult a b st in sc_holds st' sc) =
    Some (bool_decide (val a < val b)%Z) ∧
  (let '(sc, st') := eq a st in sc_holds st' sc) =
    Some (bool_decide (val a = 0)%Z) ∧
  ult a b st = (let '(sc, st') := ule b a st in (sc_neg sc, st')) ∧
  eq (trail:=trail) a = ule a (mk_val 0).
Proof.
  intros Hwf Ha Hb. split_and!.
  - pose proof (ule_holds a b st Hwf Ha Hb) as Hh.
    by destruct (ule a b st).
  - pose proof (ult_holds a b st Hwf Ha Hb) as Hh.
    by destruct (ult a b st).
  - unfold eq, pdd_zero.
    pose proof (ule_holds a (mk_val 0) st Hwf Ha (is_val_mk_val 0)) as Hh.
    destruct (ule a (mk_val 0) st) as [sc st']. rewrite Hh. f_equal.
    pose proof (val_range a Ha).
    rewrite val_mk_val_small by (pose proof (modulus_pos (pdd:=pdd)); lia).
    apply bool_decide_ext. lia.
  - unfold ult, bind, ret. by destruct (ule b a st).
  - done.
Qed.

(** X19: [slt a b] is the negation of [sle b a], on the same constraint
    instance, and on values in a well-formed state it holds exactly when
    a < b in the two's-complement order. *)
Theorem slt_signed_order a b st :
  slt a b st = (let '(sc, st') := sle b a st in (sc_neg sc, st')) ∧
  (wf st → is_val a = true → is_val b = true →
   (let '(sc, st') := slt a b st in sc_holds st' sc) =
     Some (bool_decide (signed_val (val a) < signed_val (val b))%Z)).
Proof.
  assert (slt a b st = (let '(sc, st') := sle b a st in (sc_neg sc, st')))
    as Hslt.
  { unfold slt, sle, ult, bind, ret. by destruct (ule _ _ st). }
  split; [done|]. intros Hwf Ha Hb. rewrite Hslt.
  pose proof (sle_holds_signed b a st Hwf Hb Ha) as Hh.
  unfold sle_holds in Hh. destruct (sle b a st) as [sc st'].
  rewrite sc_holds_neg, Hh. simpl. f_equal.
  case_bool_decide; symmetry.
  - apply bool_decide_eq_false. lia.
  - apply bool_decide_eq_true. lia.
Qed.
End cmp.

(** ** Builders reuse their constraints *)

Section keys.
Context `{SE : SearchEngine trail} `{PO : PddOps pdd} `{US : UleSimplify pdd}.

Local Abbreviation state_t := (state (trail:=trail) (pdd:=pdd)).
Implicit Types (st : state_t) (k : ckind pdd) (a b : pdd).

(** The instance returned for a key is the table's entry for it. *)
Lemma intern_entry k st :
  let '(c, st') := bind (alloc k) dedup st in
  m_dedup_constraints st' !! k = Some c ∧
  (∀ k', k' ≠ k → m_dedup_constraints st' !! k' = m_dedup_constraints st !! k').
Proof.
  rewrite alloc_dedup.
  destruct (m_dedup_constraints st !! k) as [c2|] eqn:Hk.
  - rewrite hit_state_table. by split.
  - rewrite miss_state_table. split; [by rewrite lookup_insert_eq|].
    intros k' Hne. by rewrite lookup_insert_ne.
Qed.

(** Builder calls keep the constraint objects. *)
Lemma objects_kept_run rs st :
  Forall (λ r, is_builder r = true) rs → objects_kept st (run rs st).
Proof.
  intros Hrs. apply (respects_run objects_kept rs).
  intros r Hr. rewrite Forall_forall in Hrs. specialize (Hrs r Hr).
  apply respects_run_builder; first [done | tc_solve].
Qed.

(** Interning a key again, after any builder calls, is a hit on the same
    instance. *)
Lemma intern_again k rs st :
  wf st → Forall (λ r, is_builder r = true) rs →
  let '(c, st1) := bind (alloc k) dedup st in
  let st2 := run rs st1 in
  bind (alloc k) dedup st2 = (c, hit_state st2) ∧
  ∃ bv, bvar_of st1 c = Some bv ∧ bvar_of st2 c = Some bv.
Proof.
  intros Hwf Hrs.
  pose proof (intern_entry k st) as Hent.
  pose proof (wf_intern_ok k st Hwf) as Hwf1.
  destruct (bind (alloc k) dedup st) as [c st1]. simpl in Hwf1.
  destruct Hent as [Hent _]. intros st2.
  destruct (objects_kept_run rs st1 Hrs Hwf1) as [Hwf2 Hsub].
  fold st2 in Hwf2, Hsub.
  destruct Hwf1 as [Hh1 Ht1]. destruct (Ht1 _ _ Hent) as [Hkey [bv Hbv]].
  unfold key_of in Hkey. unfold bvar_of in Hbv.
  destruct (constraint_heap st1 !! c) as [o|] eqn:Ho; [|done].
  pose proof (lookup_weaken _ _ _ _ Ho Hsub) as Ho2.
  assert (m_dedup_constraints st2 !! k = Some c) as Hent2.
  { destruct Hwf2 as [[_ Htab] _]. apply Htab. unfold key_of.
    by rewrite Ho2. }
  split.
  - by rewrite alloc_dedup, Hent2.
  - exists bv. unfold bvar_of. by rewrite Ho, Ho2.
Qed.

(** What each builder interns. *)
Lemma ule_intern a b st :
  ule a b st =
    let '(c, st') := bind (alloc (ule_key a b)) dedup st in
    ({| sc_constraint := Some c; sc_positive := ule_polarity a b |}, st').
Proof.
  unfold ule, ule_key, ule_polarity.
  destruct (ule_simplify true a b) as [[pos lhs] rhs]. simpl.
  rewrite bind_alloc_dedup. by destruct (bind (alloc _) dedup st).
Qed.

Lemma ult_intern a b st :
  ult a b st =
    let '(c, st') := bind (alloc (ule_key b a)) dedup st in
    ({| sc_constraint := Some c; sc_positive := negb (ule_polarity b a) |},
     st').
Proof.
  unfold ult, bind at 1, ret. rewrite ule_intern.
  by destruct (bind (alloc _) dedup st).
Qed.

Lemma smul_ovfl_intern a b st :
  smul_ovfl a b st =
    let '(c, st') := bind (alloc (smul_fl_constraint a b true)) dedup st in
    ({| sc_constraint := Some c; sc_positive := true |}, st').
Proof.
  unfold smul_ovfl. rewrite bind_alloc_dedup.
  by destruct (bind (alloc _) dedup st).
Qed.

Lemma smul_udfl_intern a b st :
  smul_udfl a b st =
    let '(c, st') := bind (alloc (smul_fl_constraint a b false)) dedup st in
    ({| sc_constraint := Some c; sc_positive := true |}, st').
Proof.
  unfold smul_udfl. rewrite bind_alloc_dedup.
  by destruct (bind (alloc _) dedup st).
Qed.

Lemma umul_ovfl_intern a b st :
  umul_ovfl a b st =
    let '(c, st') := bind (alloc (umul_ovfl_constraint a b)) dedup st in
    ({| sc_constraint := Some c; sc_positive := true |}, st').
Proof.
  unfold umul_ovfl. rewrite bind_alloc_dedup.
  by destruct (bind (alloc _) dedup st).
Qed.

Lemma mk_op_constraint_intern op p q r st :
  mk_op_constraint op p q r st =
    let '(c, st') := bind (alloc (op_constraint op p q r)) dedup st in
    ({| sc_constraint := Some c; sc_positive := true |}, st').
Proof.
  unfold mk_op_constraint. rewrite bind_alloc_dedup.
  by destruct (bind (alloc _) dedup st).
Qed.

(** A builder that interns one key reuses its constraint. *)
Lemma reuses_intern (m : StateM state_t signed_constraint) k pos rs st :
  (∀ st, m st =
     let '(c, st') := bind (alloc k) dedup st in
     ({| sc_constraint := Some c; sc_positive := pos |}, st')) →
  wf st → Forall (λ r, is_builder r = true) rs → reuses m rs st.
Proof.
  intros Hm Hwf Hrs. unfold reuses. rewrite Hm.
  pose proof (intern_again k rs st Hwf Hrs) as Hag.
  destruct (bind (alloc k) dedup st) as [c st1].
  cbv zeta in Hag |- *. destruct Hag as [Hag (bv & Hbv1 & Hbv2)].
  rewrite Hm, Hag. split; [done|]. by exists c, bv.
Qed.

(** X20: in a well-formed state, every constraint builder reuses its
    constraint.  When ule, ult, umul_ovfl, smul_ovfl, smul_udfl or
    mk_op_constraint is called a second time with the same arguments,
    after any number of builder calls in between, it returns the same
    constraint instance with the same polarity; the call only allocates
    and frees its candidate, so it hands out no boolean variable and
    stores nothing; and the instance still has the boolean variable it
    had after the first call. *)
Theorem builders_reuse_instance a b op p q r rs st :
  wf st → Forall (λ r, is_builder r = true) rs →
  reuses (ule a b) rs st ∧
  reuses (ult a b) rs st ∧
  reuses (umul_ovfl a b) rs st ∧
  reuses (smul_ovfl a b) rs st ∧
  reuses (smul_udfl a b) rs st ∧
  reuses (mk_op_constraint op p q r) rs st.
Proof.
  intros Hwf Hrs. split_and!.
  - eapply reuses_intern; [apply ule_intern|done..].
  - eapply reuses_intern; [apply ult_intern|done..].
  - eapply reuses_intern; [apply umul_ovfl_intern|done..].
  - eapply reuses_intern; [apply smul_ovfl_intern|done..].
  - eapply reuses_intern; [apply smul_udfl_intern|done..].
  - eapply reuses_intern; [apply mk_op_constraint_intern|done..].
Qed.
End keys.

(** ** Bitwise terms and the memo tables *)

Section sparse_poly_sub_laws.
Import sparse_poly.
Variable K : Z.
Hypothesis K_range : (1 ≤ K < 2 ^ 32)%Z.

Lemma neg_const x : neg K (const K x) = const K (- x).
Proof.
  pose proof (sparse_modulus_gt_1 K K_range) as HM.
  apply map_eq. intros m. unfold neg, const.
  rewrite lookup_omap, !lookup_monom.
  case_decide; [|done].
  destruct (coeff K x) as [a|] eqn:Hx; simpl.
  - apply (coeff_Some K K_range) in Hx as [-> _].
    apply (coeff_congr K K_range).
    rewrite (Z.div_mod x (modulus K)) at 2 by lia.
    replace (- (modulus K * (x / modulus K) + x mod modulus K))%Z
      with (- (x mod modulus K) + (- (x / modulus K)) * modulus K)%Z by lia.
    by rewrite Z.mod_add by lia.
  - symmetry. apply (coeff_None K) in Hx. unfold coeff.
    rewrite decide_True; [done|].
    rewrite (Z.div_mod x (modulus K)), Hx by lia.
    replace (- (modulus K * (x / modulus K) + 0))%Z
      with (0 + (- (x / modulus K)) * modulus K)%Z by lia.
    by rewrite Z.mod_add by lia.
Qed.

Lemma sparse_poly_sub_laws : PddSubLaws poly (PO := ops K).
Proof.
  split; simpl.
  - apply neg_const.
  - intros x y. unfold sub. rewrite neg_const, (add_const K K_range).
    f_equal.
Qed.
End sparse_poly_sub_laws.

Lemma mod_pow2_small_bits (K a : Z) :
  (0 ≤ K)%Z → (∀ n, K ≤ n → Z.testbit a n = false)%Z → (0 ≤ a)%Z →
  (a mod 2 ^ K = a)%Z.
Proof.
  intros HK Hhigh Ha. apply Z.bits_inj'. intros n Hn.
  destruct (decide (n < K)%Z).
  - by rewrite Z.mod_pow2_bits_low by lia.
  - rewrite Z.mod_pow2_bits_high by lia. symmetry. apply Hhigh. lia.
Qed.

Lemma small_high_bits (K a n : Z) :
  (0 ≤ a < 2 ^ K)%Z → (K ≤ n)%Z → Z.testbit a n = false.
Proof.
  intros Ha Hn. destruct (decide (0 ≤ K)%Z).
  - rewrite <-(Z.mod_small a (2 ^ K)) by done.
    apply Z.mod_pow2_bits_high. lia.
  - rewrite Z.pow_neg_r in Ha by lia. lia.
Qed.

Section terms.
Context `{SE : SearchEngine trail} `{PO : PddOps pdd} `{US : UleSimplify pdd}.
Context `{!PddLaws pdd}.

Local Abbreviation state_t := (state (trail:=trail) (pdd:=pdd)).
Implicit Types (st : state_t) (p q : pdd).
Local Abbreviation K := (power_of_2).

(** X21: bor, bxor, bnand and bnor are arithmetic over the one memoized
    term of band: once [band p q] has been built, and whatever is called in
    between, each of them returns its combination of p, q and that same
    term and leaves the state as it is. *)
Theorem bitwise_terms_share_band p q st :
  let '(r, st1) := band p q st in
  ∀ rs, let st2 := run rs st1 in
    band p q st2 = (r, st2) ∧
    bor p q st2 = ((p + q - r)%pdd, st2) ∧
    bxor p q st2 = ((p + q - mk_val 2 * r)%pdd, st2) ∧
    bnand p q st2 = (bnot r, st2) ∧
    bnor p q st2 = (bnot (p + q - r)%pdd, st2).
Proof.
  pose proof (mk_op_term_again and_op p q st) as Hagain.
  unfold band. destruct (mk_op_term and_op p q st) as [r st1].
  intros rs. specialize (Hagain rs). simpl in Hagain.
  unfold bnor, bor, bxor, bnand, band, bind, ret. by rewrite Hagain.
Qed.

Context `{!PddSubLaws pdd}.

(** X22: on a value, bnot is the bitwise complement: the result is the
    value 2^K - 1 - p, every bit below the width is flipped, and bnot is an
    involution. *)
Theorem bnot_complement p :
  is_val p = true →
  is_val (bnot p) = true ∧
  val (bnot p) = (max_value - val p)%Z ∧
  bnot (bnot p) = p ∧
  ∀ i, (0 ≤ i < K)%Z →
    Z.testbit (val (bnot p)) i = negb (Z.testbit (val p) i).
Proof.
  intros Hp. pose proof (val_range p Hp) as Hr.
  pose proof power_of_2_range as HK.
  assert (∀ v, bnot (mk_val v : pdd) = mk_val (- v - 1)) as Hb.
  { intros v. unfold bnot. by rewrite neg_mk_val, sub_mk_val. }
  assert (val (bnot p) = ((- val p - 1) mod 2 ^ K)%Z) as Hv.
  { rewrite <-(mk_val_val p Hp) at 1. by rewrite Hb, val_mk_val. }
  split_and!.
  - rewrite <-(mk_val_val p Hp), Hb. apply is_val_mk_val.
  - rewrite Hv. unfold max_value.
    replace (- val p - 1)%Z with ((2 ^ K - 1 - val p) + (-1) * 2 ^ K)%Z by lia.
    rewrite Z.mod_add by lia. apply Z.mod_small. lia.
  - rewrite <-(mk_val_val p Hp) at 1. rewrite !Hb.
    rewrite <-(mk_val_val p Hp) at 2. f_equal. lia.
  - intros i Hi. rewrite Hv. rewrite Z.mod_pow2_bits_low by lia.
    replace (- val p - 1)%Z with (Z.lnot (val p)) by (unfold Z.lnot; lia).
    apply Z.lnot_spec. lia.
Qed.
(** X25: bor, bxor, bnand and bnor build fixed arithmetic terms over the
    term of band; when that term stands for the bitwise and of two values,
    p + q - r is their bitwise or and p + q - 2r their bitwise exclusive or
    (the identities the code takes from Hacker's Delight), and bnot of them
    gives nand and nor, modulo 2^K. *)
Theorem bitwise_encodings_on_values p q x st :
  (bor p q st = let '(r, st') := band p q st in (or_of_and p q r, st')) ∧
  (bxor p q st = let '(r, st') := band p q st in (xor_of_and p q r, st')) ∧
  (bnand p q st = let '(r, st') := band p q st in (bnot r, st')) ∧
  (bnor p q st =
     let '(r, st') := band p q st in (bnot (or_of_and p q r), st')) ∧
  (is_val p = true → is_val q = true → is_val x = true →
   val x = Z.land (val p) (val q) →
   val (or_of_and p q x) = Z.lor (val p) (val q) ∧
   val (xor_of_and p q x) = Z.lxor (val p) (val q) ∧
   val (bnot x) = (Z.lnot (Z.land (val p) (val q)) mod 2 ^ K)%Z ∧
   val (bnot (or_of_and p q x)) =
     (Z.lnot (Z.lor (val p) (val q)) mod 2 ^ K)%Z).
Proof.
  split_and!.
  - unfold bor, bind, ret. by destruct (band p q st).
  - unfold bxor, bind, ret. by destruct (band p q st).
  - unfold bnand, bind, ret. by destruct (band p q st).
  - unfold bnor, bor, bind, ret. by destruct (band p q st).
  - intros Hp Hq Hx Hand.
    pose proof power_of_2_range as HK.
    pose proof (val_range p Hp) as Hrp. pose proof (val_range q Hq) as Hrq.
    set (a := val p) in *. set (b := val q) in *.
    assert (or_of_and p q x = mk_val (Z.lor a b)) as Hor.
    { unfold or_of_and.
      rewrite <-(mk_val_val p Hp), <-(mk_val_val q Hq), <-(mk_val_val x Hx).
      rewrite add_mk_val, sub_mk_val, Hand. fold a b. f_equal.
      pose proof (Z.add_lor_land a b). lia. }
    assert (xor_of_and p q x = mk_val (Z.lxor a b)) as Hxor.
    { unfold xor_of_and.
      rewrite <-(mk_val_val p Hp), <-(mk_val_val q Hq), <-(mk_val_val x Hx).
      rewrite add_mk_val, mul_mk_val, sub_mk_val, Hand. fold a b. f_equal.
      pose proof (Z.add_lxor_2land a b). lia. }
    assert (∀ v, bnot (mk_val v : pdd) = mk_val (Z.lnot v)) as Hb.
    { intros v. unfold bnot. rewrite neg_mk_val, sub_mk_val.
      f_equal; unfold Z.lnot; lia. }
    split_and!.
    + rewrite Hor, val_mk_val. apply mod_pow2_small_bits; [lia| |].
      * intros n Hn. rewrite Z.lor_spec.
        by rewrite !(small_high_bits K) by done.
      * apply Z.lor_nonneg. lia.
    + rewrite Hxor, val_mk_val. apply mod_pow2_small_bits; [lia| |].
      * intros n Hn. rewrite Z.lxor_spec.
        by rewrite !(small_high_bits K) by done.
      * apply Z.lxor_nonneg. lia.
    + rewrite <-(mk_val_val x Hx), Hb, val_mk_val. by rewrite Hand.
    + by rewrite Hor, Hb, val_mk_val.
Qed.
End terms.

Section memo_wf_proofs.
Context `{SE : SearchEngine trail} `{PO : PddOps pdd} `{US : UleSimplify pdd}.
Context `{!PddLaws pdd}.

Local Abbreviation state_t := (state (trail:=trail) (pdd:=pdd)).
Implicit Types (st : state_t) (a b p q : pdd).

Lemma memo_wf_ext st st' :
  s_vars st' = s_vars st →
  m_dedup_quot_rem_expr st' = m_dedup_quot_rem_expr st →
  m_dedup_op_constraint_expr st' = m_dedup_op_constraint_expr st →
  memo_wf st → memo_wf st'.
Proof.
  intros Hv Hq Ho [H1 H2 H3 H4 H5].
  split; rewrite ?Hv, ?Hq, ?Ho; done.
Qed.

Lemma memo_wf_init (s : trail) : memo_wf (init s : state_t).
Proof. split; simpl; intros *; by rewrite lookup_empty. Qed.

Lemma memo_wf_bound st k vq vr :
  memo_wf st → m_dedup_quot_rem_expr st !! k = Some (vq, vr) →
  vq < length (s_vars st) ∧ vr < length (s_vars st).
Proof.
  intros [H1 _ _ _ _] Hk. destruct (H1 _ _ _ Hk) as (Hq & Hr & _).
  split; by eapply lookup_lt_Some.
Qed.

Lemma memo_wf_bound_op st k v :
  memo_wf st → m_dedup_op_constraint_expr st !! k = Some v →
  v < length (s_vars st).
Proof. intros [_ H2 _ _ _] Hk. eapply lookup_lt_Some. by eapply H2. Qed.

Lemma memo_wf_quot_rem a b :
  respects (preserving (memo_wf : state_t → Prop)) (quot_rem a b).
Proof.
  intros st Hwf.
  destruct (is_zero b) eqn:Hz;
    [unfold quot_rem; by rewrite Hz|].
  destruct (is_one b) eqn:Ho;
    [unfold quot_rem; by rewrite Hz, Ho|].
  destruct (is_val a && is_val b) eqn:Hv;
    [unfold quot_rem; by rewrite Hz, Ho, Hv|].
  destruct (m_dedup_quot_rem_expr st !! (a, b)) as [[vq vr]|] eqn:Hm.
  { by rewrite (quot_rem_hit a b st vq vr). }
  pose proof (quot_rem_miss a b st Hz Ho Hv Hm) as Hqr.
  destruct (quot_rem a b st) as [res st']. simpl in *.
  destruct Hqr as (_ & Hvars & Hq & Hop & _).
  rewrite !var_mk_var in Hq.
  set (n := length (s_vars st)) in *.
  assert (∀ v, v < n → (s_vars st' !! v = s_vars st !! v)) as Hold.
  { intros v Hlt. rewrite Hvars. by apply lookup_app_l. }
  assert (s_vars st' !! n = Some power_of_2 ∧
          s_vars st' !! S n = Some power_of_2) as [Hn HSn].
  { rewrite Hvars. split.
    - rewrite lookup_app_r by (unfold n; lia).
      by replace (n - length (s_vars st)) with 0 by (unfold n; lia).
    - rewrite lookup_app_r by (unfold n; lia).
      by replace (S n - length (s_vars st)) with 1 by (unfold n; lia). }
  pose proof (λ k vq vr, memo_wf_bound st k vq vr Hwf) as Hbq.
  pose proof (λ k v, memo_wf_bound_op st k v Hwf) as Hbo.
  destruct Hwf as [H1 H2 H3 H4 H5]. fold n in Hbq, Hbo.
  split; rewrite ?Hq, ?Hop.
  - intros k vq vr. rewrite lookup_insert_Some.
    intros [[<- [= <- <-]]|[Hne Hk]]; [split_and!; [done|done|lia]|].
    destruct (H1 _ _ _ Hk) as (? & ? & ?), (Hbq _ _ _ Hk).
    by rewrite !Hold.
  - intros k v Hk. rewrite Hold; [by eapply H2|by eapply Hbo].
  - intros k1 k2 q1 r1 q2 r2. rewrite !lookup_insert_Some.
    intros [[<- [= <- <-]]|[Hne1 Hk1]] [[<- [= <- <-]]|[Hne2 Hk2]] Hne;
      try done.
    + destruct (Hbq _ _ _ Hk2). lia.
    + destruct (Hbq _ _ _ Hk1). lia.
    + by eapply H3.
  - done.
  - intros k k' q0 r0 v. rewrite lookup_insert_Some.
    intros [[<- [= <- <-]]|[Hne Hk]] Hk'; [|by eapply H5].
    pose proof (Hbo _ _ Hk'). lia.
Qed.

Lemma memo_wf_mk_op_term op p q :
  respects (preserving (memo_wf : state_t → Prop)) (mk_op_term op p q).
Proof.
  intros st Hwf.
  destruct (m_dedup_op_constraint_expr st !! (op, p, q)) as [v|] eqn:Hm.
  { by rewrite (mk_op_term_hit op p q st v). }
  pose proof (mk_op_term_miss op p q st Hm) as Hmiss.
  destruct (mk_op_term op p q st) as [res st']. simpl in *.
  destruct Hmiss as (_ & Hvars & Hop & Hq & _).
  rewrite var_mk_var in Hop.
  set (n := length (s_vars st)) in *.
  assert (∀ v, v < n → (s_vars st' !! v = s_vars st !! v)) as Hold.
  { intros v Hlt. rewrite Hvars. by apply lookup_app_l. }
  assert (s_vars st' !! n = Some power_of_2) as Hn.
  { rewrite Hvars. rewrite lookup_app_r by (unfold n; lia).
    by replace (n - length (s_vars st)) with 0 by (unfold n; lia). }
  pose proof (λ k vq vr, memo_wf_bound st k vq vr Hwf) as Hbq.
  pose proof (λ k v, memo_wf_bound_op st k v Hwf) as Hbo.
  destruct Hwf as [H1 H2 H3 H4 H5]. fold n in Hbq, Hbo.
  split; rewrite ?Hq, ?Hop.
  - intros k vq vr Hk.
    destruct (H1 _ _ _ Hk) as (? & ? & ?), (Hbq _ _ _ Hk).
    by rewrite !Hold.
  - intros k v. rewrite lookup_insert_Some.
    intros [[<- <-]|[Hne Hk]]; [done|].
    rewrite Hold; [by eapply H2|by eapply Hbo].
  - done.
  - intros k1 k2 v1 v2. rewrite !lookup_insert_Some.
    intros [[<- <-]|[Hne1 Hk1]] [[<- <-]|[Hne2 Hk2]] Hne; try done.
    + pose proof (Hbo _ _ Hk2). lia.
    + pose proof (Hbo _ _ Hk1). lia.
    + by eapply H4.
  - intros k k' q0 r0 v Hk. rewrite lookup_insert_Some.
    intros [[<- <-]|[Hne Hk']]; [|by eapply H5].
    destruct (Hbq _ _ _ Hk). lia.
Qed.
End memo_wf_proofs.

#[global] Hint Extern 1 (Free _ (preserving memo_wf)) =>
  (let st := fresh "st" in
   intros ? st; unfold preserving; apply memo_wf_ext; by destruct st)
  : typeclass_instances.

Section memo_wf_run.
Context `{SE : SearchEngine trail} `{PO : PddOps pdd} `{US : UleSimplify pdd}.
Context `{!PddLaws pdd}.

Local Abbreviation state_t := (state (trail:=trail) (pdd:=pdd)).

Lemma memo_wf_run rs (s : trail) : memo_wf (run rs (init s) : state_t).
Proof.
  apply (respects_run (preserving memo_wf) rs); [|apply memo_wf_init].
  intros r _.
  apply respects_run_request_with;
    first [ apply memo_wf_quot_rem | apply memo_wf_mk_op_term
          | apply intern_ok_of_free; tc_solve
          | apply set_bvar_ok_of_free; tc_solve
          | apply dealloc_ok_of_free; tc_solve
          | tc_solve ].
Qed.

(** X23: after any sequence of calls on a fresh manager, every variable in
    the memo tables is a variable the solver created with the width of the
    manager, the quotient and the remainder of a pair are different
    variables, and no variable is memoized for two different keys, within
    or across the two tables. *)
Theorem memo_variables_fresh rs (s : trail) :
  let st : state_t := run rs (init s) in
  (∀ k vq vr,
     m_dedup_quot_rem_expr st !! k = Some (vq, vr) →
     s_vars st !! vq = Some power_of_2 ∧
     s_vars st !! vr = Some power_of_2 ∧ vq ≠ vr) ∧
  (∀ k v,
     m_dedup_op_constraint_expr st !! k = Some v →
     s_vars st !! v = Some power_of_2) ∧
  (∀ k1 k2 q1 r1 q2 r2,
     m_dedup_quot_rem_expr st !! k1 = Some (q1, r1) →
     m_dedup_quot_rem_expr st !! k2 = Some (q2, r2) →
     k1 ≠ k2 → q1 ≠ q2 ∧ q1 ≠ r2 ∧ r1 ≠ q2 ∧ r1 ≠ r2) ∧
  (∀ k1 k2 v1 v2,
     m_dedup_op_constraint_expr st !! k1 = Some v1 →
     m_dedup_op_constraint_expr st !! k2 = Some v2 →
     k1 ≠ k2 → v1 ≠ v2) ∧
  (∀ k k' q r v,
     m_dedup_quot_rem_expr st !! k = Some (q, r) →
     m_dedup_op_constraint_expr st !! k' = Some v →
     v ≠ q ∧ v ≠ r).
Proof.
  intros st. by destruct (memo_wf_run rs s).
Qed.
End memo_wf_run.

(** ** One boolean variable per structural key *)

Section count.
Context `{SE : SearchEngine trail} `{PO : PddOps pdd} `{US : UleSimplify pdd}.

Local Abbreviation state_t := (state (trail:=trail) (pdd:=pdd)).
Implicit Types (st : state_t).

Lemma one_per_key_ext st st' :
  s_num_bvars st' = s_num_bvars st →
  m_constraints st' = m_constraints st →
  m_dedup_constraints st' = m_dedup_constraints st →
  one_per_key st → one_per_key st'.
Proof. unfold one_per_key. by intros -> -> ->. Qed.

#[local] Instance one_per_key_intern_ok :
  InternOk (preserving (one_per_key : state_t → Prop)).
Proof.
  intros k st [Hn Hl]. rewrite alloc_dedup.
  destruct (m_dedup_constraints st !! k) eqn:Hk; simpl.
  - by destruct st.
  - unfold one_per_key.
    rewrite miss_state_num_bvars, miss_state_table.
    rewrite map_size_insert_None by done.
    split; [by rewrite Hn|]. destruct st; simpl in *.
    rewrite length_app. simpl. lia.
Qed.
End count.

#[global] Hint Extern 1 (Free _ (preserving one_per_key)) =>
  (let st := fresh "st" in
   intros ? st; unfold preserving; apply one_per_key_ext; by destruct st)
  : typeclass_instances.

Section count_run.
Context `{SE : SearchEngine trail} `{PO : PddOps pdd} `{US : UleSimplify pdd}.
Local Abbreviation state_t := (state (trail:=trail) (pdd:=pdd)).
#[local] Existing Instance one_per_key_intern_ok.

(** X24: after any sequence of builder calls on a fresh manager, the
    solver has handed out exactly one boolean variable, and the storage
    holds exactly one constraint, per entry of the dedup table. *)
Theorem builders_one_bvar_per_key rs (s : trail) :
  Forall (λ r, is_builder r = true) rs →
  let st : state_t := run rs (init s) in
  s_num_bvars st = size (m_dedup_constraints st) ∧
  length (m_constraints st) = size (m_dedup_constraints st).
Proof.
  intros Hrs st.
  apply (respects_run (preserving one_per_key) rs).
  - intros r Hr. rewrite Forall_forall in Hrs. specialize (Hrs r Hr).
    apply respects_run_builder; [tc_solve..|done].
  - split; simpl; by rewrite map_size_empty.
Qed.
End count_run.

(** * The theorems at concrete inputs *)

Lemma laws4 : PddLaws sparse_poly.poly (PO := example.ops4).
Proof. apply sparse_poly_laws. lia. Qed.

Lemma simp4_sound :
  UleSimplifySound sparse_poly.poly (PO := example.ops4) (US := example.simp4).
Proof. apply sparse_simplify_sound. lia. Qed.

Section witnesses.
Import example.
#[local] Existing Instances simple_trail.engine ops4 simp4 laws4 simp4_sound.

Lemma normalize_watch_front_levels_witness :
  1 < length lits_yxz ∧
  let cl' := normalize_watch trail_yz lits_yxz in
  length cl' = length lits_yxz ∧
  cl' ≡ₚ lits_yxz ∧
  ∃ lit0 lit1,
    cl' !! 0 = Some lit0 ∧ cl' !! 1 = Some lit1 ∧
    (get_watch_level trail_yz lit1 ≤ get_watch_level trail_yz lit0)%Z ∧
    ∀ i lit, 2 ≤ i → cl' !! i = Some lit →
      (get_watch_level trail_yz lit ≤ get_watch_level trail_yz lit0)%Z ∧
      (get_watch_level trail_yz lit ≤ get_watch_level trail_yz lit1)%Z.
Proof.
  split; [simpl; lia|].
  apply (normalize_watch_front_levels trail_yz lits_yxz). simpl; lia.
Defined.

Lemma normalize_watch_permutation_witness :
  1 < length lits_yxz ∧ normalize_watch trail_yz lits_yxz ≡ₚ lits_yxz.
Proof.
  split; [simpl; lia|].
  apply (normalize_watch_permutation trail_yz lits_yxz). simpl; lia.
Defined.

Lemma quot_rem_concrete_witness :
  (is_val (mk_val 13) = true ∧ is_val (mk_val 4) = true ∧
   val (mk_val 4) ≠ 0%Z) ∧
  let '(q, r) := eval (quot_rem (mk_val 13) (mk_val 4)) st0 in
  is_val q = true ∧ is_val r = true ∧
  (mk_val 4 * q + r)%pdd = mk_val 13 ∧
  (val r < val (mk_val 4))%Z ∧
  (val (mk_val 4) * val q + val r ≤ max_value)%Z ∧
  (val (mk_val 4) * val q + val r = val (mk_val 13))%Z.
Proof.
  split; [by vm_compute|].
  apply (proj1 (quot_rem_concrete (mk_val 13) (mk_val 4) st0));
    by vm_compute.
Defined.

Lemma quot_rem_constant_folding_witness :
  is_zero (mk_val 0) = true ∧
  eval (quot_rem (mk_val 5) (mk_val 0)) st0 = (mk_val max_value, mk_val 5).
Proof.
  split; [reflexivity|].
  apply (proj1 (quot_rem_constant_folding (mk_val 5) (mk_val 0) st0)).
  reflexivity.
Defined.

Lemma quot_rem_constant_frame_witness :
  (is_zero (mk_val 3) = true ∨ is_one (mk_val 3) = true ∨
   (is_val (mk_val 5) = true ∧ is_val (mk_val 3) = true)) ∧
  exec (quot_rem (mk_val 5) (mk_val 3)) st0 = st0.
Proof.
  assert (is_zero (mk_val 3) = true ∨ is_one (mk_val 3) = true ∨
          (is_val (mk_val 5) = true ∧ is_val (mk_val 3) = true)) as Hpath
    by (right; right; split; reflexivity).
  split; [exact Hpath|].
  exact (quot_rem_constant_frame (mk_val 5) (mk_val 3) st0 Hpath).
Defined.

Lemma ule_dedup_canonical_witness :
  heap_wf st0 ∧
  let '(sc1, st1) := ule var_a var_b st0 in
  let '(sc2, st2) := ule var_a var_b st1 in
  sc1 = sc2 ∧
  (∃ c, sc_constraint sc1 = Some c ∧
        bvar_of st2 c = bvar_of st1 c ∧
        (table_wf st0 → is_Some (bvar_of st1 c))) ∧
  s_num_bvars st2 = s_num_bvars st1 ∧
  s_num_bvars st1 ≤ S (s_num_bvars st0).
Proof.
  split; [apply heap_wf_init|].
  apply (proj1 (ule_dedup_canonical var_a var_b st0)), heap_wf_init.
Defined.

Lemma term_builders_memoize_witness :
  (is_zero var_b = false ∧ is_one var_b = false ∧
   is_val var_a && is_val var_b = false ∧
   m_dedup_quot_rem_expr st0 !! (var_a, var_b) = None ∧
   m_dedup_op_constraint_expr st0 !! (and_op, var_a, var_b) = None ∧
   wf st0) ∧
  (let '(res, st') := quot_rem var_a var_b st0 in
   res = (mk_var 0, mk_var 1) ∧
   s_vars st' = [power_of_2; power_of_2] ∧
   m_dedup_quot_rem_expr st' = {[ (var_a, var_b) := (0, 1) ]} ∧
   ∃ c1 c2 c3 c4 c5 c7,
     s_added_clauses st' =
       [([c1], false); ([sc_neg c2], false); ([c3], false);
        ([c4; c5], false); ([sc_neg c4; c7], false)] ∧
     wf st' ∧
     atom_of st' c1 =
       Some (eq_atom (var_b * mk_var 0 + mk_var 1 - var_a)%pdd) ∧
     atom_of st' c2 = Some (umul_ovfl_atom var_b (mk_var 0)) ∧
     atom_of st' c3 =
       Some (ule_atom (var_b * mk_var 0)%pdd
                      (- mk_var 1 - mk_val 1)%pdd) ∧
     atom_of st' c4 = Some (eq_atom var_b) ∧
     atom_of st' c5 = Some (ult_atom (mk_var 1) var_b) ∧
     atom_of st' c7 = Some (eq_atom (mk_var 0 + mk_val 1)%pdd)) ∧
  (let '(res, st') := mk_op_term and_op var_a var_b st0 in
   res = mk_var 0 ∧
   s_vars st' = [power_of_2] ∧
   m_dedup_op_constraint_expr st' = {[ (and_op, var_a, var_b) := 0 ]} ∧
   ∃ c, s_added_clauses st' = [([c], false)] ∧
        wf st' ∧
        atom_of st' c = Some (op_atom and_op var_a var_b (mk_var 0))).
Proof.
  assert (is_zero var_b = false) as Hz by reflexivity.
  assert (is_one var_b = false) as Ho by reflexivity.
  assert (is_val var_a && is_val var_b = false) as Hv by reflexivity.
  assert (m_dedup_quot_rem_expr st0 !! (var_a, var_b) = None) as Hq
    by reflexivity.
  assert (m_dedup_op_constraint_expr st0 !! (and_op, var_a, var_b) = None)
    as Hop by reflexivity.
  pose proof (wf_init simple_trail.empty : wf st0) as Hwf.
  split; [done|]. split.
  - pose proof (proj1 (proj1 (term_builders_memoize
                                var_a var_b and_op var_a var_b st0)
                        Hz Ho Hv) Hq) as Hmiss.
    cbv zeta in Hmiss.
    destruct (quot_rem var_a var_b st0) as [res st'].
    destruct Hmiss as (Hres & Hvs & Hqr & c1 & c2 & c3 & c4 & c5 & c7 &
                       Hlog & Hat).
    split_and!; [exact Hres|exact Hvs|exact Hqr|].
    exists c1, c2, c3, c4, c5, c7. split; [exact Hlog|exact (Hat Hwf)].
  - pose proof (proj1 (proj2 (term_builders_memoize
                                var_a var_b and_op var_a var_b st0))
                  Hop) as Hmiss.
    cbv zeta in Hmiss.
    destruct (mk_op_term and_op var_a var_b st0) as [res st'].
    destruct Hmiss as (Hres & Hvs & Hoe & c & Hlog & Hat).
    split_and!; [exact Hres|exact Hvs|exact Hoe|].
    exists c. split; [exact Hlog|exact (Hat Hwf)].
Defined.

Lemma sle_signed_order_witness :
  (wf st0 ∧ is_val (mk_val 8) = true ∧ is_val (mk_val 7) = true) ∧
  sle_holds (mk_val 8) (mk_val 7) st0 =
    Some (bool_decide (signed_val (val (mk_val 8))
                       ≤ signed_val (val (mk_val 7)))%Z).
Proof.
  split; [split_and!; [apply wf_init|reflexivity|reflexivity]|].
  apply (proj1 (proj2 (proj2 (sle_signed_order (mk_val 8) (mk_val 7) st0))));
    [apply wf_init|reflexivity|reflexivity].
Defined.
End witnesses.

Lemma sub_laws4 : PddSubLaws sparse_poly.poly (PO := example.ops4).
Proof. apply sparse_poly_sub_laws. lia. Qed.

Section more_witnesses.
Import example.
#[local] Existing Instances simple_trail.engine ops4 simp4 laws4 simp4_sound
  sub_laws4.

Lemma normalize_watch_stable_witness :
  1 < length lits_yxz ∧
  normalize_watch trail_yz (normalize_watch trail_yz lits_yxz) =
    normalize_watch trail_yz lits_yxz.
Proof.
  assert (1 < length lits_yxz) as Hlen by (simpl; lia).
  split; [exact Hlen|].
  exact (proj2 (normalize_watch_stable trail_yz lits_yxz Hlen)).
Defined.

Lemma watch_unit_propagation_witness :
  (clause_heap st_yxz !! cl_yxz =
     Some {| lits := lits_yxz; m_ref_count := 0 |} ∧
   lits_yxz ≠ [] ∧
   ∀ l, l ∈ lits_yxz → value trail_yz l = l_false →
        (level trail_yz l < UINT_MAX - 1)%Z) ∧
  s_trail (exec (watch cl_yxz false) st_yxz) =
    match filter (λ l, is_false trail_yz l = false) lits_yxz with
    | [] => set_conflict_clause cl_yxz trail_yz
    | [l] => if is_true trail_yz l then trail_yz
             else assign_propagate l cl_yxz trail_yz
    | _ => trail_yz
    end.
Proof.
  assert (∀ l, l ∈ lits_yxz → value trail_yz l = l_false →
               (level trail_yz l < UINT_MAX - 1)%Z) as Hlvl.
  { intros l Hl _. apply list_elem_of_In in Hl. simpl in Hl.
    destruct Hl as [<-|[<-|[<-|[]]]]; reflexivity. }
  split; [split_and!; [reflexivity|discriminate|exact Hlvl]|].
  exact (watch_unit_propagation cl_yxz st_yxz
           {| lits := lits_yxz; m_ref_count := 0 |}
           eq_refl ltac:(discriminate) Hlvl).
Defined.

Lemma watch_small_clause_witness :
  length (clause_lits st_x cl_x) ≤ 1 ∧
  exec (watch cl_x true) st_x =
    upd_s_trail (λ _, s_trail (exec (watch cl_x true) st_x)) st_x.
Proof.
  assert (length (clause_lits st_x cl_x) ≤ 1) as Hlen by (vm_compute; lia).
  split; [exact Hlen|].
  exact (proj1 (watch_small_clause cl_x true st_x Hlen)).
Defined.

Lemma store_clause_installs_witness :
  (clause_heap st_xy !! cl_xy =
     Some {| lits := [lit_x; lit_y]; m_ref_count := 0 |} ∧
   1 < length [lit_x; lit_y]) ∧
  clause_lits (exec (store_clause cl_xy false) st_xy) cl_xy =
    normalize_watch (s_trail st_xy) [lit_x; lit_y].
Proof.
  assert (1 < length [lit_x; lit_y]) as Hlen by (simpl; lia).
  split; [split; [reflexivity|exact Hlen]|].
  exact (proj1 (store_clause_installs cl_xy st_xy
                  {| lits := [lit_x; lit_y]; m_ref_count := 0 |}
                  eq_refl Hlen)).
Defined.

Lemma ensure_bvar_lookup_witness :
  (live st_alloc 0 ∧ bvar_of st_alloc 0 = None) ∧
  bvar_of (exec (ensure_bvar 0) st_alloc) 0 = Some (s_num_bvars st_alloc).
Proof.
  assert (live st_alloc 0) as Hlive by (eexists; reflexivity).
  split; [split; [exact Hlive|reflexivity]|].
  exact (proj1 (ensure_bvar_lookup 0 st_alloc Hlive eq_refl)).
Defined.

Lemma ensure_erase_bvar_roundtrip_witness :
  (live st_alloc 0 ∧ bvar_of st_alloc 0 = None ∧
   m_bv2constraint st_alloc !! s_num_bvars st_alloc = None) ∧
  exec (erase_bvar 0) (exec (ensure_bvar 0) st_alloc) =
    upd_s_num_bvars S st_alloc.
Proof.
  assert (live st_alloc 0) as Hlive by (eexists; reflexivity).
  split; [split_and!; [exact Hlive|reflexivity|reflexivity]|].
  exact (ensure_erase_bvar_roundtrip 0 st_alloc Hlive eq_refl eq_refl).
Defined.

Lemma ule_lookup_roundtrip_witness :
  (wf st0 ∧ bridge_wf st0) ∧
  let '(sc, st') := ule var_a var_b st0 in
  ∃ c bv, sc_constraint sc = Some c ∧ bvar_of st' c = Some bv ∧
    eval (lookup_lit {| lit_var := bv; lit_sign := negb (sc_positive sc) |})
         st' = sc.
Proof.
  split; [split; [apply wf_init|apply bridge_wf_init]|].
  exact (ule_lookup_roundtrip var_a var_b st0
           (wf_init _) (bridge_wf_init _)).
Defined.


Lemma bit_encodes_testbit_witness :
  (0 ≤ 2 < power_of_2)%Z ∧
  bit (trail:=simple_trail.t) (mk_val 5) 2 =
    ule (mk_val (2 ^ (power_of_2 - 1)))
        (mk_val 5 * mk_val (2 ^ (power_of_2 - 2 - 1)))%pdd.
Proof.
  assert (0 ≤ 2 < power_of_2)%Z as Hi by (simpl; lia).
  split; [exact Hi|].
  exact (proj1 (proj1 (bit_encodes_testbit (mk_val 5) 2 st0) Hi)).
Defined.

Lemma unsigned_comparisons_on_values_witness :
  (wf st0 ∧ is_val (mk_val 3) = true ∧ is_val (mk_val 5) = true) ∧
  (let '(sc, st') := ult (mk_val 3) (mk_val 5) st0 in sc_holds st' sc) =
    Some (bool_decide (val (mk_val 3) < val (mk_val 5))%Z).
Proof.
  split; [split_and!; [apply wf_init|reflexivity|reflexivity]|].
  exact (proj1 (proj2 (unsigned_comparisons_on_values
                         (mk_val 3) (mk_val 5) st0
                         (wf_init _) eq_refl eq_refl))).
Defined.

Lemma slt_signed_order_witness :
  (wf st0 ∧ is_val (mk_val 8) = true ∧ is_val (mk_val 7) = true) ∧
  (let '(sc, st') := slt (mk_val 8) (mk_val 7) st0 in sc_holds st' sc) =
    Some (bool_decide (signed_val (val (mk_val 8))
                       < signed_val (val (mk_val 7)))%Z).
Proof.
  split; [split_and!; [apply wf_init|reflexivity|reflexivity]|].
  exact (proj2 (slt_signed_order (mk_val 8) (mk_val 7) st0)
           (wf_init _) eq_refl eq_refl).
Defined.

Lemma builders_reuse_instance_witness :
  (wf st0 ∧
   Forall (λ r, is_builder r = true)
     [req_ule var_a var_b; req_quot_rem var_a var_b]) ∧
  reuses (umul_ovfl var_a var_b)
    [req_ule var_a var_b; req_quot_rem var_a var_b] st0.
Proof.
  assert (Forall (λ r, is_builder r = true)
            [req_ule var_a var_b; req_quot_rem var_a var_b]) as Hrs
    by (repeat constructor).
  split; [split; [apply wf_init|exact Hrs]|].
  exact (proj1 (proj2 (proj2 (builders_reuse_instance
                                var_a var_b and_op var_a var_b var_a
                                _ st0 (wf_init _) Hrs)))).
Defined.

Lemma bitwise_terms_share_band_witness :
  let '(r, st1) := band var_a var_b st0 in
  ∀ rs, let st2 := run rs st1 in
    band var_a var_b st2 = (r, st2) ∧
    bor var_a var_b st2 = ((var_a + var_b - r)%pdd, st2) ∧
    bxor var_a var_b st2 = ((var_a + var_b - mk_val 2 * r)%pdd, st2) ∧
    bnand var_a var_b st2 = (bnot r, st2) ∧
    bnor var_a var_b st2 = (bnot (var_a + var_b - r)%pdd, st2).
Proof. exact (bitwise_terms_share_band var_a var_b st0). Defined.

Lemma bnot_complement_witness :
  is_val (mk_val 5) = true ∧
  val (bnot (mk_val 5)) = (max_value - val (mk_val 5))%Z.
Proof.
  split; [reflexivity|].
  exact (proj1 (proj2 (bnot_complement (mk_val 5) eq_refl))).
Defined.

Lemma memo_variables_fresh_witness :
  let st : state4 :=
    run [req_quot_rem var_a var_b; req_mk_op_term and_op var_a var_b]
        (init simple_trail.empty) in
  m_dedup_quot_rem_expr st !! (var_a, var_b) = Some (0, 1) ∧
  s_vars st !! 0 = Some power_of_2 ∧
  s_vars st !! 1 = Some power_of_2 ∧ 0 ≠ 1.
Proof.
  assert (m_dedup_quot_rem_expr
            (run [req_quot_rem var_a var_b;
                  req_mk_op_term and_op var_a var_b]
                 (init simple_trail.empty) : state4)
            !! (var_a, var_b) = Some (0, 1)) as Hk
    by (vm_compute; reflexivity).
  split; [exact Hk|].
  exact (proj1 (memo_variables_fresh
                  [req_quot_rem var_a var_b;
                   req_mk_op_term and_op var_a var_b]
                  simple_trail.empty) (var_a, var_b) 0 1 Hk).
Defined.

Lemma builders_one_bvar_per_key_witness :
  Forall (λ r, is_builder r = true)
    [req_ule var_a var_b; req_ule var_a var_b; req_eq var_a] ∧
  let st : state4 :=
    run [req_ule var_a var_b; req_ule var_a var_b; req_eq var_a]
        (init simple_trail.empty) in
  s_num_bvars st = size (m_dedup_constraints st) ∧
  length (m_constraints st) = size (m_dedup_constraints st).
Proof.
  assert (Forall (λ r, is_builder r = true)
            [req_ule var_a var_b; req_ule var_a var_b; req_eq var_a])
    as Hrs by (repeat constructor).
  split; [exact Hrs|].
  exact (builders_one_bvar_per_key _ simple_trail.empty Hrs).
Defined.

Lemma bitwise_encodings_on_values_witness :
  (is_val (mk_val 5) = true ∧ is_val (mk_val 3) = true ∧
   is_val (mk_val 1) = true ∧
   val (mk_val 1) = Z.land (val (mk_val 5)) (val (mk_val 3))) ∧
  val (or_of_and (mk_val 5) (mk_val 3) (mk_val 1)) =
    Z.lor (val (mk_val 5)) (val (mk_val 3)).
Proof.
  split; [split_and!; reflexivity|].
  exact (proj1 (proj2 (proj2 (proj2 (proj2
    (bitwise_encodings_on_values (mk_val 5) (mk_val 3) (mk_val 1) st0))))
    eq_refl eq_refl eq_refl eq_refl)).
Defined.

Lemma gc_leaves_dangling_dedup_entry_witness :
  (m_dedup_constraints st0 !! ule_key var_a var_b = None ∧
   s_num_bvars st0 ∉ used_vars st0) ∧
  let '(sc, st1) := ule var_a var_b st0 in
  let st2 := exec gc st1 in
  m_dedup_constraints st2 = m_dedup_constraints st1 ∧
  ¬ table_wf st2 ∧
  ∃ c, sc_constraint sc = Some c ∧
       m_dedup_constraints st1 !! ule_key var_a var_b = Some c ∧
       live st1 c ∧ c ∈ m_constraints st1 ∧
       ¬ live st2 c ∧ c ∉ m_constraints st2.
Proof.
  assert (m_dedup_constraints st0 !! ule_key var_a var_b = None) as H1
    by (vm_compute; reflexivity).
  assert (s_num_bvars st0 ∉ used_vars st0) as H2
    by (vm_compute; set_solver).
  split; [by split|].
  exact (gc_leaves_dangling_dedup_entry var_a var_b st0 H1 H2).
Defined.
End more_witnesses.
